(** * A leftist-heap priority queue (sjtu::priority_queue): model and proofs

    The development embeds [src/priority_queue.hpp].  Nodes live in a heap
    of addressable cells, containers are objects with a [root] pointer and a
    [queue_size] counter, and every member function is a computation over that
    store which may return, throw, or have no defined behaviour.  A ghost
    trace records each comparator call, each [new] and each [delete]. *)

From stdpp Require Import gmap list sorting.
From Stdlib Require Import ZArith Lia.

Local Open Scope Z_scope.

(** ** Answers of the user-supplied collaborators *)

(** What a call into user code (the comparator, or [new Node(v)] with the
    element's copy constructor) produces: a value, or an exception carrying
    an opaque code. *)
Inductive answer (A : Type) : Type :=
  | Returns (a : A)
  | Throws (code : nat).
Arguments Returns {A} a.
Arguments Throws {A} code.

(** Exceptions seen by a caller of the container: the container's own
    [container_is_empty], or one that user code threw. *)
Inductive exn : Type :=
  | container_is_empty
  | foreign (code : nat).

Definition loc := positive.
Definition cid := positive.

(** [Node *]: [None] is [nullptr]. *)
Definition ptr := option loc.

(** [size_t] is 64 bits wide; arithmetic on it wraps. *)
Definition size_max : Z := 2 ^ 64.
Definition wrap (n : Z) : Z := n mod size_max.

(** [struct Node].  The [int] field [dist] is kept as an integer: in a
    leftist tree with [n] nodes it is below [log2 (n + 1)] (lemma
    [leftist_dist_bound]), far inside the range of [int]. *)
Record Node (T : Type) : Type := mkNode {
  data : T;
  left : ptr;
  right : ptr;
  dist : Z
}.
Arguments mkNode {T} data left right dist.
Arguments data {T} n.
Arguments left {T} n.
Arguments right {T} n.
Arguments dist {T} n.

(** The data members [root] and [queue_size] of a [priority_queue]. *)
Record pq : Type := mkPq {
  root : ptr;
  queue_size : Z
}.

(** Ghost events: a comparator call with its arguments, a successful or a
    failed [new Node(v)], and a [delete]. *)
Inductive event (T : Type) : Type :=
  | Cmp (a b : T)
  | New (l : loc)
  | NewFailed
  | Delete (l : loc).
Arguments Cmp {T} a b.
Arguments New {T} l.
Arguments NewFailed {T}.
Arguments Delete {T} l.

(** The comparator calls among the events. *)
Definition is_cmp {T} (ev : event T) : bool :=
  match ev with
  | Cmp _ _ => true
  | _ => false
  end.

Record world (T : Type) : Type := mkWorld {
  heap : gmap loc (Node T);
  objs : gmap cid pq;
  trace : list (event T)
}.
Arguments mkWorld {T} heap objs trace.
Arguments heap {T} w.
Arguments objs {T} w.
Arguments trace {T} w.

(** ** Computations *)

(** How a computation ends: it returns [a] in world [w], it throws [e] in
    world [w], it has no defined behaviour (a dangling or null pointer is
    dereferenced, a dead cell is freed, a dead object is used), or its
    recursion never comes back. *)
Inductive result (T A : Type) : Type :=
  | Done (w : world T) (a : A)
  | Raised (w : world T) (e : exn)
  | Undefined
  | Diverges.
Arguments Done {T A} w a.
Arguments Raised {T A} w e.
Arguments Undefined {T A}.
Arguments Diverges {T A}.

Definition M (T A : Type) : Type := world T → result T A.

Definition ret {T A} (a : A) : M T A := fun w => Done w a.
Definition raise {T A} (e : exn) : M T A := fun w => Raised w e.
Definition undefined {T A} : M T A := fun _ => Undefined.
Definition diverge {T A} : M T A := fun _ => Diverges.

Definition bind {T A B} (m : M T A) (k : A → M T B) : M T B :=
  fun w =>
    match m w with
    | Done w' a => k a w'
    | Raised w' e => Raised w' e
    | Undefined => Undefined
    | Diverges => Diverges
    end.

(** [try { m } catch (...) { h }]. *)
Definition try_catch {T A} (m : M T A) (h : exn → M T A) : M T A :=
  fun w =>
    match m w with
    | Raised w' e => h e w'
    | r => r
    end.

Notation "x <~ m ;~ k" := (bind m (fun x => k))
  (at level 200, m at level 100, k at level 200, right associativity).
Notation "m ;~ k" := (bind m (fun _ => k))
  (at level 200, right associativity).

(** The public operations, as a caller issues them. *)
Inductive op (T : Type) : Type :=
  | OpConstruct (this : cid)
  | OpCopy (this other : cid)
  | OpDestroy (this : cid)
  | OpAssign (this other : cid)
  | OpTop (this : cid)
  | OpPush (this : cid) (e : T)
  | OpPop (this : cid)
  | OpSize (this : cid)
  | OpEmpty (this : cid)
  | OpMerge (this other : cid).
Arguments OpConstruct {T} this.
Arguments OpCopy {T} this other.
Arguments OpDestroy {T} this.
Arguments OpAssign {T} this other.
Arguments OpTop {T} this.
Arguments OpPush {T} this e.
Arguments OpPop {T} this.
Arguments OpSize {T} this.
Arguments OpEmpty {T} this.
Arguments OpMerge {T} this other.

(** A tree of cells: each node carries its address, its element and its
    [dist] field. *)
Inductive tree (T : Type) : Type :=
  | Leaf
  | Nd (l : loc) (v : T) (d : Z) (tl tr : tree T).
Arguments Leaf {T}.
Arguments Nd {T} l v d tl tr.

Section Model.

Context {T : Type}.

(** The comparator [cmp] and the allocating constructor [new Node(v)].  Both
    may depend on everything that happened before, which covers stateful
    comparators and allocators that fail at some point. *)
Variable cmp : list (event T) → T → T → answer bool.
Variable alloc : list (event T) → gmap loc (Node T) → T → answer loc.

Definition set_heap (w : world T) (h : gmap loc (Node T)) : world T :=
  mkWorld h (objs w) (trace w).
Definition set_objs (w : world T) (o : gmap cid pq) : world T :=
  mkWorld (heap w) o (trace w).
Definition log (w : world T) (ev : event T) : world T :=
  mkWorld (heap w) (objs w) (trace w ++ [ev]).

(** *** Node cells *)

Definition load (l : loc) : M T (Node T) :=
  fun w => match heap w !! l with
           | Some n => Done w n
           | None => Undefined
           end.

Definition store (l : loc) (n : Node T) : M T unit :=
  fun w => match heap w !! l with
           | Some _ => Done (set_heap w (<[l := n]> (heap w))) tt
           | None => Undefined
           end.

Definition get_data (l : loc) : M T T := n <~ load l ;~ ret (data n).
Definition get_left (l : loc) : M T ptr := n <~ load l ;~ ret (left n).
Definition get_right (l : loc) : M T ptr := n <~ load l ;~ ret (right n).
Definition get_dist (l : loc) : M T Z := n <~ load l ;~ ret (dist n).

Definition set_left (l : loc) (p : ptr) : M T unit :=
  n <~ load l ;~ store l (mkNode (data n) p (right n) (dist n)).
Definition set_right (l : loc) (p : ptr) : M T unit :=
  n <~ load l ;~ store l (mkNode (data n) (left n) p (dist n)).
Definition set_dist (l : loc) (d : Z) : M T unit :=
  n <~ load l ;~ store l (mkNode (data n) (left n) (right n) d).

(** [new Node(value)]: the node starts with no children and [dist = 0]. *)
Definition new_node (value : T) : M T loc :=
  fun w => match alloc (trace w) (heap w) value with
           | Returns l =>
               Done (mkWorld (<[l := mkNode value None None 0]> (heap w))
                             (objs w) (trace w ++ [New l])) l
           | Throws c => Raised (log w NewFailed) (foreign c)
           end.

(** [delete node]. *)
Definition delete_node (l : loc) : M T unit :=
  fun w => match heap w !! l with
           | Some _ => Done (mkWorld (delete l (heap w)) (objs w)
                                     (trace w ++ [Delete l])) tt
           | None => Undefined
           end.

(** [delete p] for a pointer that may be null. *)
Definition delete_ptr (p : ptr) : M T unit :=
  match p with
  | Some l => delete_node l
  | None => ret tt
  end.

(** A call [cmp(a, b)]. *)
Definition call_cmp (a b : T) : M T bool :=
  fun w => match cmp (trace w) a b with
           | Returns r => Done (log w (Cmp a b)) r
           | Throws c => Raised (log w (Cmp a b)) (foreign c)
           end.

(** *** Private helpers of the class *)

(** [int getDist(Node *node) const]. *)
Definition getDist (node : ptr) : M T Z :=
  match node with
  | Some l => get_dist l
  | None => ret (-1)
  end.

(** [Node* mergeNodes(Node *a, Node *b)], with a bound on the depth of the
    recursion. *)
Fixpoint mergeNodes_fuel (fuel : nat) (a b : ptr) : M T ptr :=
  match a, b with
  | None, _ => ret b
  | _, None => ret a
  | Some la, Some lb =>
      match fuel with
      | O => diverge
      | S fuel' =>
          va <~ get_data la ;~ vb <~ get_data lb ;~
          comparison_result <~ call_cmp va vb ;~
          if negb comparison_result then
            temp <~ get_right la ;~
            m <~ mergeNodes_fuel fuel' temp b ;~
            set_right la m ;~
            l <~ get_left la ;~ dl <~ getDist l ;~
            r <~ get_right la ;~ dr <~ getDist r ;~
            (if dl <? dr then set_left la r ;~ set_right la l else ret tt) ;~
            r' <~ get_right la ;~ d <~ getDist r' ;~
            set_dist la (d + 1) ;~
            ret a
          else
            temp <~ get_right lb ;~
            m <~ mergeNodes_fuel fuel' a temp ;~
            set_right lb m ;~
            l <~ get_left lb ;~ dl <~ getDist l ;~
            r <~ get_right lb ;~ dr <~ getDist r ;~
            (if dl <? dr then set_left lb r ;~ set_right lb l else ret tt) ;~
            r' <~ get_right lb ;~ d <~ getDist r' ;~
            set_dist lb (d + 1) ;~
            ret b
      end
  end.

(** How deep the three tree walkers can recurse before a cell comes up
    twice on their way down: [mergeNodes] steps along the right spines of both
    operands, [copyTree] and [deleteTree] along one path.  On a store with a
    cycle they never come back, which is [Diverges]; on trees the bound is not
    reached (lemmas [mergeNodes_spec], [copyTree_spec], [deleteTree_spec]). *)
Definition depth_bound (w : world T) : nat := S (2 * size (heap w)).

Definition mergeNodes (a b : ptr) : M T ptr :=
  fun w => mergeNodes_fuel (depth_bound w) a b w.

(** [Node* copyTree(Node *other)]. *)
Fixpoint copyTree_fuel (fuel : nat) (other : ptr) : M T ptr :=
  match other with
  | None => ret None
  | Some lo =>
      match fuel with
      | O => diverge
      | S fuel' =>
          v <~ get_data lo ;~
          newNode <~ new_node v ;~
          ol <~ get_left lo ;~
          cl <~ copyTree_fuel fuel' ol ;~
          set_left newNode cl ;~
          or <~ get_right lo ;~
          cr <~ copyTree_fuel fuel' or ;~
          set_right newNode cr ;~
          d <~ get_dist lo ;~
          set_dist newNode d ;~
          ret (Some newNode)
      end
  end.

Definition copyTree (other : ptr) : M T ptr :=
  fun w => copyTree_fuel (depth_bound w) other w.

(** [void deleteTree(Node *node)]. *)
Fixpoint deleteTree_fuel (fuel : nat) (node : ptr) : M T unit :=
  match node with
  | None => ret tt
  | Some l =>
      match fuel with
      | O => diverge
      | S fuel' =>
          nl <~ get_left l ;~
          deleteTree_fuel fuel' nl ;~
          nr <~ get_right l ;~
          deleteTree_fuel fuel' nr ;~
          delete_node l
      end
  end.

Definition deleteTree (node : ptr) : M T unit :=
  fun w => deleteTree_fuel (depth_bound w) node w.

(** *** Data members of a container object *)

Definition get_obj (this : cid) : M T pq :=
  fun w => match objs w !! this with
           | Some q => Done w q
           | None => Undefined
           end.

Definition put_obj (this : cid) (q : pq) : M T unit :=
  fun w => match objs w !! this with
           | Some _ => Done (set_objs w (<[this := q]> (objs w))) tt
           | None => Undefined
           end.

Definition get_root (this : cid) : M T ptr := q <~ get_obj this ;~ ret (root q).
Definition get_size (this : cid) : M T Z := q <~ get_obj this ;~ ret (queue_size q).
Definition set_root (this : cid) (p : ptr) : M T unit :=
  q <~ get_obj this ;~ put_obj this (mkPq p (queue_size q)).
Definition set_size (this : cid) (n : Z) : M T unit :=
  q <~ get_obj this ;~ put_obj this (mkPq (root q) n).

(** *** Public members *)

(** [priority_queue()]: the object comes into existence at [this]. *)
Definition construct (this : cid) : M T unit :=
  fun w => match objs w !! this with
           | None => Done (set_objs w (<[this := mkPq None 0]> (objs w))) tt
           | Some _ => Undefined
           end.

(** The object at [this] ceases to exist (end of a destructor, or a
    constructor left by an exception). *)
Definition vanish (this : cid) : M T unit :=
  fun w => match objs w !! this with
           | Some _ => Done (set_objs w (delete this (objs w))) tt
           | None => Undefined
           end.

(** [priority_queue(const priority_queue &other)]. *)
Definition copy_construct (this other : cid) : M T unit :=
  construct this ;~
  try_catch
    (oroot <~ get_root other ;~
     r <~ copyTree oroot ;~
     set_root this r ;~
     n <~ get_size other ;~
     set_size this n)
    (fun e => vanish this ;~ raise e).

(** [~priority_queue()]. *)
Definition destroy (this : cid) : M T unit :=
  r <~ get_root this ;~
  deleteTree r ;~
  vanish this.

(** [priority_queue &operator=(const priority_queue &other)]. *)
Definition assign (this other : cid) : M T unit :=
  if decide (this = other) then ret tt
  else
    r <~ get_root this ;~
    deleteTree r ;~
    oroot <~ get_root other ;~
    c <~ copyTree oroot ;~
    set_root this c ;~
    n <~ get_size other ;~
    set_size this n.

(** [size_t size() const]. *)
Definition size (this : cid) : M T Z := get_size this.

(** [bool empty() const]. *)
Definition empty (this : cid) : M T bool :=
  n <~ get_size this ;~ ret (n =? 0).

(** [const T & top() const]. *)
Definition top (this : cid) : M T T :=
  e <~ empty this ;~
  if e then raise container_is_empty
  else
    r <~ get_root this ;~
    match r with
    | Some l => get_data l
    | None => undefined
    end.

(** [void push(const T &e)]. *)
Definition push (this : cid) (e : T) : M T unit :=
  newNode <~ new_node e ;~
  try_catch
    (r <~ get_root this ;~
     m <~ mergeNodes r (Some newNode) ;~
     set_root this m ;~
     n <~ get_size this ;~
     set_size this (wrap (n + 1)))
    (fun ex => delete_node newNode ;~ raise ex).

(** [void pop()]. *)
Definition pop (this : cid) : M T unit :=
  e <~ empty this ;~
  if e then raise container_is_empty
  else
    oldRoot <~ get_root this ;~
    try_catch
      (r <~ get_root this ;~
       match r with
       | None => undefined
       | Some l =>
           rl <~ get_left l ;~
           rr <~ get_right l ;~
           m <~ mergeNodes rl rr ;~
           set_root this m ;~
           n <~ get_size this ;~
           set_size this (wrap (n - 1)) ;~
           delete_ptr oldRoot
       end)
      (fun ex => set_root this oldRoot ;~ raise ex).

(** [void merge(priority_queue &other)]. *)
Definition merge (this other : cid) : M T unit :=
  if decide (this = other) then ret tt
  else
    original_root <~ get_root this ;~
    original_size <~ get_size this ;~
    other_original_root <~ get_root other ;~
    other_original_size <~ get_size other ;~
    try_catch
      (r <~ get_root this ;~
       o <~ get_root other ;~
       m <~ mergeNodes r o ;~
       set_root this m ;~
       n <~ get_size this ;~
       k <~ get_size other ;~
       set_size this (wrap (n + k)) ;~
       set_root other None ;~
       set_size other 0)
      (fun ex =>
         set_root this original_root ;~
         set_size this original_size ;~
         set_root other other_original_root ;~
         set_size other other_original_size ;~
         raise ex).

(** *** Callers *)

Definition exec (o : op T) : M T unit :=
  match o with
  | OpConstruct c => construct c
  | OpCopy c c' => copy_construct c c'
  | OpDestroy c => destroy c
  | OpAssign c c' => assign c c'
  | OpTop c => top c ;~ ret tt
  | OpPush c e => push c e
  | OpPop c => pop c
  | OpSize c => size c ;~ ret tt
  | OpEmpty c => empty c ;~ ret tt
  | OpMerge c c' => merge c c'
  end.

(** A caller that catches whatever an operation throws and carries on. *)
Definition attempt (m : M T unit) : M T unit :=
  try_catch m (fun _ => ret tt).

(** A caller issuing a sequence of operations, one after the other. *)
Fixpoint run (ops : list (op T)) : M T unit :=
  match ops with
  | [] => ret tt
  | o :: ops' => attempt (exec o) ;~ run ops'
  end.

(** [o] is a [push] or a [pop] on container [c]. *)
Definition push_or_pop (c : cid) (o : op T) : Prop :=
  match o with
  | OpPush c' _ => c' = c
  | OpPop c' => c' = c
  | _ => False
  end.

(** [while (!q.empty()) { out.push_back(q.top()); q.pop(); }], for at most
    [n] rounds. *)
Fixpoint drain_n (n : nat) (this : cid) : M T (list T) :=
  match n with
  | O => ret []
  | S n' =>
      e <~ empty this ;~
      if e then ret []
      else
        v <~ top this ;~
        pop this ;~
        vs <~ drain_n n' this ;~
        ret (v :: vs)
  end.

(** The loop runs once per element, so [size()] rounds exhaust it. *)
Definition drain (this : cid) : M T (list T) :=
  n <~ size this ;~ drain_n (Z.to_nat n) this.

(** ** The trees behind the pointers *)

Definition root_of (t : tree T) : ptr :=
  match t with
  | Leaf => None
  | Nd l _ _ _ _ => Some l
  end.

(** [getDist] read off a tree. *)
Definition tdist (t : tree T) : Z :=
  match t with
  | Leaf => -1
  | Nd _ _ d _ _ => d
  end.

Fixpoint locs (t : tree T) : list loc :=
  match t with
  | Leaf => []
  | Nd l _ _ tl tr => l :: locs tl ++ locs tr
  end.

Fixpoint elems (t : tree T) : list T :=
  match t with
  | Leaf => []
  | Nd _ v _ tl tr => v :: elems tl ++ elems tr
  end.

Fixpoint tsize (t : tree T) : nat :=
  match t with
  | Leaf => O
  | Nd _ _ _ tl tr => S (tsize tl + tsize tr)
  end.

(** The cells of [t] are laid out in [h] exactly as [t] says. *)
Fixpoint stored (h : gmap loc (Node T)) (t : tree T) : Prop :=
  match t with
  | Leaf => True
  | Nd l v d tl tr =>
      h !! l = Some (mkNode v (root_of tl) (root_of tr) d)
      ∧ stored h tl ∧ stored h tr
  end.

(** [h] with the cells of [t] written into it. *)
Fixpoint write_tree (t : tree T) (h : gmap loc (Node T)) : gmap loc (Node T) :=
  match t with
  | Leaf => h
  | Nd l v d tl tr =>
      <[l := mkNode v (root_of tl) (root_of tr) d]>
        (write_tree tl (write_tree tr h))
  end.

(** [h] without the cells of [t]. *)
Fixpoint erase_tree (t : tree T) (h : gmap loc (Node T)) : gmap loc (Node T) :=
  match t with
  | Leaf => h
  | Nd l _ _ tl tr => delete l (erase_tree tr (erase_tree tl h))
  end.

(** The order in which [deleteTree] frees the cells of a tree. *)
Fixpoint postorder (t : tree T) : list loc :=
  match t with
  | Leaf => []
  | Nd l _ _ tl tr => postorder tl ++ postorder tr ++ [l]
  end.

(** Same shape, same element and same [dist] at every node; addresses are
    free to differ. *)
Fixpoint same_shape (t t' : tree T) : Prop :=
  match t, t' with
  | Leaf, Leaf => True
  | Nd _ v d tl tr, Nd _ v' d' tl' tr' =>
      v = v' ∧ d = d' ∧ same_shape tl tl' ∧ same_shape tr tr'
  | _, _ => False
  end.

(** What the winner of a merge step becomes once the merged subtree [m] has
    been hung on its right and the leftist fix-up has run. *)
Definition join (l : loc) (v : T) (tl m : tree T) : tree T :=
  if tdist tl <? tdist m
  then Nd l v (tdist tl + 1) m tl
  else Nd l v (tdist m + 1) tl m.

(** How one merge step continues from the answer of its recursive call. *)
Definition finish (l : loc) (v : T) (tl : tree T)
  (r : list (event T) * answer (tree T)) : list (event T) * answer (tree T) :=
  match r with
  | (tr2, Returns m) => (tr2, Returns (join l v tl m))
  | (tr2, Throws c) => (tr2, Throws c)
  end.

(** [mergeNodes] on trees: the trace after the call, and the merged tree or
    the code of the exception the comparator threw. *)
Fixpoint merge_tree (a : tree T) : list (event T) → tree T → list (event T) * answer (tree T) :=
  fix merge_a (tr : list (event T)) (b : tree T) {struct b} :=
    match a, b with
    | Leaf, _ => (tr, Returns b)
    | _, Leaf => (tr, Returns a)
    | Nd la va _ al ar, Nd lb vb _ bl br =>
        let tr1 := tr ++ [Cmp va vb] in
        match cmp tr va vb with
        | Throws c => (tr1, Throws c)
        | Returns false => finish la va al (merge_tree ar tr1 b)
        | Returns true => finish lb vb bl (merge_a tr1 br)
        end
    end.

(** The outcome of a tree walker that rearranges cells in place, read off
    the answer of its counterpart on trees. *)
Definition in_place (w : world T) (r : list (event T) * answer (tree T))
  : result T ptr :=
  match r with
  | (tr, Returns t) => Done (mkWorld (write_tree t (heap w)) (objs w) tr) (root_of t)
  | (tr, Throws c) => Raised (mkWorld (heap w) (objs w) tr) (foreign c)
  end.

(** ** Invariants *)

(** The leftist property and distance consistency at every node. *)
Fixpoint leftist (t : tree T) : Prop :=
  match t with
  | Leaf => True
  | Nd _ _ d tl tr =>
      tdist tr ≤ tdist tl
      ∧ d = tdist tr + 1
      ∧ (d = 0 ↔ tr = Leaf)
      ∧ leftist tl ∧ leftist tr
  end.

(** Container [c] of world [w] owns exactly the tree [t]: its root points
    at it, its counter is the number of nodes (as a [size_t]), and no cell
    occurs twice. *)
Definition owns (w : world T) (c : cid) (t : tree T) : Prop :=
  objs w !! c = Some (mkPq (root_of t) (wrap (Z.of_nat (tsize t))))
  ∧ stored (heap w) t
  ∧ NoDup (locs t).

(** The world in which [operator=] starts copying: the old tree of the
    destination is gone already. *)
Definition released (w : world T) (t : tree T) : world T :=
  mkWorld (erase_tree t (heap w)) (objs w) (trace w ++ map Delete (postorder t)).

(** The world in which the copy constructor starts copying: the new object
    exists and is empty. *)
Definition constructed (w : world T) (c : cid) : world T :=
  set_objs w (<[c := mkPq None 0]> (objs w)).

(** A successful [copyTree] of [t] from world [w]: the result [p] is the
    root of a tree of fresh cells with the shape, elements and [dist] fields
    of [t]; nothing else changed, and the cells were allocated in preorder. *)
Definition copied (t : tree T) (w w' : world T) (p : ptr) : Prop :=
  ∃ t', p = root_of t'
    ∧ same_shape t t'
    ∧ NoDup (locs t')
    ∧ (∀ l, l ∈ locs t' → heap w !! l = None)
    ∧ stored (heap w') t'
    ∧ (∀ l, l ∉ locs t' → heap w' !! l = heap w !! l)
    ∧ objs w' = objs w
    ∧ trace w' = trace w ++ map New (locs t').

(** A [copyTree] that was cut short by a failing [new]: the cells [ls] it
    had allocated until then are all still live; nothing else changed and
    nothing was freed. *)
Definition copy_failed (w w' : world T) (e : exn) : Prop :=
  ∃ (ls : list loc) (c : nat),
    e = foreign c
    ∧ trace w' = trace w ++ map New ls ++ [NewFailed]
    ∧ NoDup ls
    ∧ (∀ l, l ∈ ls → heap w !! l = None ∧ is_Some (heap w' !! l))
    ∧ (∀ l, l ∉ ls → heap w' !! l = heap w !! l)
    ∧ objs w' = objs w.

(** Every container owns a leftist tree, and no two containers share a
    cell. *)
Definition world_inv (w : world T) : Prop :=
  ∃ own : gmap cid (tree T),
    (∀ c, is_Some (objs w !! c) → is_Some (own !! c))
    ∧ (∀ c t, own !! c = Some t → owns w c t ∧ leftist t)
    ∧ (∀ c1 c2 t1 t2 l, c1 ≠ c2 → own !! c1 = Some t1 → own !! c2 = Some t2 →
         l ∈ locs t1 → l ∉ locs t2).



End Model.

(** ** Instances used in examples *)

(** [std::less<int>]: never throws. *)
Definition less (_ : list (event Z)) (a b : Z) : answer bool :=
  Returns (a <? b).

(** An allocator that always succeeds, handing out an unused address. *)
Definition fresh_alloc (_ : list (event Z)) (h : gmap loc (Node Z)) (_ : Z)
  : answer loc :=
  Returns (fresh (dom h)).

(** An allocator that succeeds while fewer than [cap] cells are live and
    throws (code 0) afterwards. *)
Definition capped_alloc (cap : nat) (_ : list (event Z))
  (h : gmap loc (Node Z)) (_ : Z) : answer loc :=
  if decide (base.size h < cap)%nat then Returns (fresh (dom h)) else Throws 0.

(** A comparator that throws (code 1) on its [k]-th call, counted from 0
    over the whole history, and is [<] otherwise. *)
Definition throwing_less (k : nat) (tr : list (event Z)) (a b : Z)
  : answer bool :=
  if decide (length (filter is_cmp tr) = k) then Throws 1
  else Returns (a <? b).

Definition empty_world : world Z := mkWorld ∅ ∅ [].

(** A world with one container, [1], holding the single element 7. *)
Definition one_elem : world Z :=
  mkWorld (<[1%positive := mkNode 7 None None 0]> ∅)
          (<[1%positive := mkPq (Some 1%positive) 1]> ∅) [].

Definition one_elem_tree : tree Z := Nd 1%positive 7 0 Leaf Leaf.

(** A world with two containers: [1] holds 7, [2] holds 9. *)
Definition two_queues : world Z :=
  mkWorld (<[1%positive := mkNode 7 None None 0]>
             (<[2%positive := mkNode 9 None None 0]> ∅))
          (<[1%positive := mkPq (Some 1%positive) 1]>
             (<[2%positive := mkPq (Some 2%positive) 1]> ∅)) [].

Definition other_tree : tree Z := Nd 2%positive 9 0 Leaf Leaf.

(** A world with one container, [1], holding 7 at the root and 3 below. *)
Definition two_nodes : world Z :=
  mkWorld (<[1%positive := mkNode 7 (Some 2%positive) None 0]>
             (<[2%positive := mkNode 3 None None 0]> ∅))
          (<[1%positive := mkPq (Some 1%positive) 2]> ∅) [].

Definition two_nodes_tree : tree Z :=
  Nd 1%positive 7 0 (Nd 2%positive 3 0 Leaf Leaf) Leaf.

(** Two single cells holding equal keys, not owned by any container. *)
Definition tie_world : world Z :=
  mkWorld (<[1%positive := mkNode 5 None None 0]>
             (<[2%positive := mkNode 5 None None 0]> ∅)) ∅ [].

(** The world a computation ends in, when it returns or throws. *)
Definition world_after {T A} (r : result T A) (w0 : world T) : world T :=
  match r with
  | Done w _ => w
  | Raised w _ => w
  | _ => w0
  end.

(** Max-heap order under [<] on integers: no element below a node exceeds
    the node's own. *)
Fixpoint heap_ordered (t : tree Z) : Prop :=
  match t with
  | Leaf => True
  | Nd _ v _ tl tr =>
      Forall (λ x, x ≤ v) (elems tl ++ elems tr)
      ∧ heap_ordered tl ∧ heap_ordered tr
  end.

(** * Proofs *)

Lemma bind_Done {T A B} (m : M T A) (k : A → M T B) (w w' : world T) a :
  m w = Done w' a → bind m k w = k a w'.
Proof. unfold bind. by intros ->. Qed.

Lemma bind_Undefined {T A B} (m : M T A) (k : A → M T B) (w : world T) :
  m w = Undefined → bind m k w = Undefined.
Proof. unfold bind. by intros ->. Qed.

(** Run the first computation of a sequence, given what it returns. *)
Tactic Notation "step" open_constr(H) := rewrite (bind_Done _ _ _ _ _ H).

Section Proofs.

Context {T : Type}.
Variable cmp : list (event T) → T → T → answer bool.
Variable alloc : list (event T) → gmap loc (Node T) → T → answer loc.

(** [new] only hands out addresses that are not live. *)
Hypothesis alloc_fresh :
  ∀ tr h v l, alloc tr h v = Returns l → h !! l = None.

Implicit Types (h : gmap loc (Node T)) (w : world T) (t : tree T)
  (l : loc) (p : ptr) (tr : list (event T)).

(** ** Worlds and the monad *)

Lemma world_eta w : mkWorld (heap w) (objs w) (trace w) = w.
Proof. by destruct w. Qed.

(** ** Trees in heaps *)

Lemma stored_frame h h' t :
  stored h t → (∀ l, l ∈ locs t → h' !! l = h !! l) → stored h' t.
Proof.
  induction t as [|l v d tl IHl tr IHr]; simpl; [done|].
  intros (Hl & Hsl & Hsr) Hag. split_and!.
  - rewrite Hag; [done | left].
  - apply IHl; [done|]. intros x Hx. apply Hag. right. apply elem_of_app. by left.
  - apply IHr; [done|]. intros x Hx. apply Hag. right. apply elem_of_app. by right.
Qed.

Lemma stored_live h t l : stored h t → l ∈ locs t → is_Some (h !! l).
Proof.
  induction t as [|l' v d tl IHl tr IHr]; simpl.
  - intros _ Hl. by apply elem_of_nil in Hl.
  - intros (Hl' & Hsl & Hsr) Hin.
    apply elem_of_cons in Hin as [-> | Hin]; [by eexists|].
    apply elem_of_app in Hin as [Hin | Hin]; auto.
Qed.

Lemma stored_write_id h t : stored h t → write_tree t h = h.
Proof.
  induction t as [|l v d tl IHl tr IHr]; simpl; [done|].
  intros (Hl & Hsl & Hsr). rewrite (IHr Hsr), (IHl Hsl). by apply insert_id.
Qed.

Lemma lookup_write_notin h t l : l ∉ locs t → write_tree t h !! l = h !! l.
Proof.
  revert h. induction t as [|l' v d tl IHl tr IHr]; simpl; intros h Hl; [done|].
  apply not_elem_of_cons in Hl as [Hne Hl].
  apply not_elem_of_app in Hl as [Hl1 Hl2].
  rewrite lookup_insert_ne by done. by rewrite IHl, IHr.
Qed.

Lemma stored_write h t : NoDup (locs t) → stored (write_tree t h) t.
Proof.
  revert h. induction t as [|l v d tl IHl tr IHr]; simpl; intros h Hnd; [done|].
  apply NoDup_cons in Hnd as [Hl Hnd].
  apply not_elem_of_app in Hl as [Hl1 Hl2].
  apply NoDup_app in Hnd as (Hnl & Hdisj & Hnr).
  split_and!.
  - by rewrite lookup_insert_eq.
  - eapply stored_frame; [apply IHl, Hnl|].
    intros x Hx. rewrite lookup_insert_ne; [done|]. by intros ->.
  - eapply stored_frame; [apply (IHr h), Hnr|].
    intros x Hx. rewrite lookup_insert_ne by (by intros ->).
    apply lookup_write_notin. intros Hx'. by apply (Hdisj x).
Qed.

Lemma lookup_erase_notin h t l : l ∉ locs t → erase_tree t h !! l = h !! l.
Proof.
  revert h. induction t as [|l' v d tl IHl tr IHr]; simpl; intros h Hl; [done|].
  apply not_elem_of_cons in Hl as [Hne Hl].
  apply not_elem_of_app in Hl as [Hl1 Hl2].
  rewrite lookup_delete_ne by done. by rewrite IHr, IHl.
Qed.

(** A tree laid out without sharing has no more nodes than the heap has
    cells. *)
Lemma locs_length t : length (locs t) = tsize t.
Proof.
  induction t as [|l v d tl IHl tr IHr]; simpl; [done|].
  rewrite length_app. lia.
Qed.

Lemma live_length h (ls : list loc) :
  NoDup ls → (∀ l, l ∈ ls → is_Some (h !! l)) → (length ls ≤ base.size h)%nat.
Proof.
  intros Hnd Hlive.
  rewrite <- (size_list_to_set (C := gset loc) ls Hnd), <- size_dom.
  apply subseteq_size. intros x Hx.
  apply elem_of_list_to_set in Hx. apply elem_of_dom. auto.
Qed.

Lemma stored_size h t : stored h t → NoDup (locs t) → (tsize t ≤ base.size h)%nat.
Proof.
  intros Hs Hnd. rewrite <- locs_length. apply live_length; [done|].
  intros l. by apply stored_live.
Qed.

(** ** Reading and writing cells *)

Lemma load_run w l n : heap w !! l = Some n → load l w = Done w n.
Proof. unfold load. by intros ->. Qed.

Lemma get_data_run w l n : heap w !! l = Some n → get_data l w = Done w (data n).
Proof. intros H. unfold get_data. by step (load_run _ _ _ H). Qed.

Lemma get_left_run w l n : heap w !! l = Some n → get_left l w = Done w (left n).
Proof. intros H. unfold get_left. by step (load_run _ _ _ H). Qed.

Lemma get_right_run w l n : heap w !! l = Some n → get_right l w = Done w (right n).
Proof. intros H. unfold get_right. by step (load_run _ _ _ H). Qed.

Lemma get_dist_run w l n : heap w !! l = Some n → get_dist l w = Done w (dist n).
Proof. intros H. unfold get_dist. by step (load_run _ _ _ H). Qed.

Lemma store_run w l n n' :
  heap w !! l = Some n → store l n' w = Done (set_heap w (<[l := n']> (heap w))) tt.
Proof. unfold store. by intros ->. Qed.

Lemma set_left_run w l n p :
  heap w !! l = Some n →
  set_left l p w
  = Done (set_heap w (<[l := mkNode (data n) p (right n) (dist n)]> (heap w))) tt.
Proof.
  intros H. unfold set_left.
  step (load_run _ _ _ H). by eapply store_run.
Qed.

Lemma set_right_run w l n p :
  heap w !! l = Some n →
  set_right l p w
  = Done (set_heap w (<[l := mkNode (data n) (left n) p (dist n)]> (heap w))) tt.
Proof.
  intros H. unfold set_right.
  step (load_run _ _ _ H). by eapply store_run.
Qed.

Lemma set_dist_run w l n d :
  heap w !! l = Some n →
  set_dist l d w
  = Done (set_heap w (<[l := mkNode (data n) (left n) (right n) d]> (heap w))) tt.
Proof.
  intros H. unfold set_dist.
  step (load_run _ _ _ H). by eapply store_run.
Qed.

(** [getDist] of the root of a stored tree is the tree's [tdist]. *)
Lemma getDist_stored w t :
  stored (heap w) t → getDist (root_of t) w = Done w (tdist t).
Proof.
  destruct t as [|l v d tl tr]; simpl; [done|].
  intros (Hl & _). by rewrite (get_dist_run _ _ _ Hl).
Qed.

(** The tail of a merge step, from [if (getDist(n->left) < getDist(n->right))]
    to the update of [n->dist]: with the children of [n] stored as [tl] and
    [m], the node ends up as [join] prescribes, and the step goes on. *)
Lemma maintain_leftist_run {A} w n v d tl m (k : M T A) :
  heap w !! n = Some (mkNode v (root_of tl) (root_of m) d) →
  stored (heap w) tl → stored (heap w) m →
  n ∉ locs tl → n ∉ locs m →
  (l <~ get_left n ;~ dl <~ getDist l ;~
   r <~ get_right n ;~ dr <~ getDist r ;~
   (if dl <? dr then set_left n r ;~ set_right n l else ret tt) ;~
   r' <~ get_right n ;~ d' <~ getDist r' ;~
   set_dist n (d' + 1) ;~
   k) w
  = k (set_heap w
         (<[n := if tdist tl <? tdist m
                 then mkNode v (root_of m) (root_of tl) (tdist tl + 1)
                 else mkNode v (root_of tl) (root_of m) (tdist m + 1)]>
            (heap w))).
Proof.
  intros Hn Htl Hm Hntl Hnm.
  step (get_left_run _ _ _ Hn); simpl.
  step (getDist_stored _ _ Htl).
  step (get_right_run _ _ _ Hn); simpl.
  step (getDist_stored _ _ Hm).
  destruct (tdist tl <? tdist m) eqn:Hcmp.
  - erewrite bind_Done; last first.
    { erewrite bind_Done by (by eapply set_left_run).
      eapply set_right_run. simpl. apply lookup_insert_eq. }
    simpl. rewrite insert_insert_eq.
    set (w1 := set_heap _ _).
    assert (Hn1 : heap w1 !! n = Some (mkNode v (root_of m) (root_of tl) d))
      by (subst w1; simpl; apply lookup_insert_eq).
    step (get_right_run _ _ _ Hn1); simpl.
    assert (Htl1 : stored (heap w1) tl).
    { eapply stored_frame; [exact Htl|]. intros x Hx. subst w1; simpl.
      apply lookup_insert_ne. by intros ->. }
    step (getDist_stored _ _ Htl1).
    step (set_dist_run _ _ _ _ Hn1). subst w1. unfold set_heap; simpl.
    by rewrite insert_insert_eq.
  - rewrite (bind_Done _ _ _ w tt) by done.
    step (get_right_run _ _ _ Hn); simpl.
    step (getDist_stored _ _ Hm).
    by step (set_dist_run _ _ _ _ Hn).
Qed.

(** ** The merge on trees *)

Lemma merge_tree_eq a tr b :
  merge_tree cmp a tr b =
    match a, b with
    | Leaf, _ => (tr, Returns b)
    | _, Leaf => (tr, Returns a)
    | Nd la va _ al ar, Nd lb vb _ bl br =>
        match cmp tr va vb with
        | Throws c => (tr ++ [Cmp va vb], Throws c)
        | Returns false => finish la va al (merge_tree cmp ar (tr ++ [Cmp va vb]) b)
        | Returns true => finish lb vb bl (merge_tree cmp a (tr ++ [Cmp va vb]) br)
        end
    end.
Proof. destruct a, b; try reflexivity. Qed.

(** Induction along the recursion of [merge_tree]. *)
Lemma merge_tree_ind
  (P : tree T → list (event T) → tree T → list (event T) * answer (tree T) → Prop) :
  (∀ tr b, P Leaf tr b (tr, Returns b)) →
  (∀ tr l v d tl rt, P (Nd l v d tl rt) tr Leaf (tr, Returns (Nd l v d tl rt))) →
  (∀ tr la va da al ar lb vb db bl br c,
      cmp tr va vb = Throws c →
      P (Nd la va da al ar) tr (Nd lb vb db bl br) (tr ++ [Cmp va vb], Throws c)) →
  (∀ tr la va da al ar lb vb db bl br,
      cmp tr va vb = Returns false →
      let b := Nd lb vb db bl br in
      let r := merge_tree cmp ar (tr ++ [Cmp va vb]) b in
      P ar (tr ++ [Cmp va vb]) b r →
      P (Nd la va da al ar) tr b (finish la va al r)) →
  (∀ tr la va da al ar lb vb db bl br,
      cmp tr va vb = Returns true →
      let a := Nd la va da al ar in
      let r := merge_tree cmp a (tr ++ [Cmp va vb]) br in
      P a (tr ++ [Cmp va vb]) br r →
      P a tr (Nd lb vb db bl br) (finish lb vb bl r)) →
  ∀ a tr b, P a tr b (merge_tree cmp a tr b).
Proof.
  intros HL HR HT HF HTr.
  induction a as [|la va da al IHal ar IHar]; intros tr b.
  - rewrite merge_tree_eq. apply HL.
  - revert tr. induction b as [|lb vb db bl IHbl br IHbr]; intros tr.
    + rewrite merge_tree_eq. apply HR.
    + rewrite merge_tree_eq.
      destruct (cmp tr va vb) as [[|]|c] eqn:Hc.
      * by apply HTr.
      * by apply HF.
      * by apply HT.
Qed.

Lemma perm_swap_middle {A} (x : A) (l1 l2 l3 : list A) :
  x :: l1 ++ (l2 ++ l3) ≡ₚ l2 ++ x :: l1 ++ l3.
Proof.
  rewrite <- Permutation_middle. constructor.
  rewrite !app_assoc. f_equiv. apply Permutation_app_comm.
Qed.

Lemma join_locs l (v : T) (tl m : tree T) : locs (join l v tl m) ≡ₚ l :: locs tl ++ locs m.
Proof.
  unfold join. destruct (tdist tl <? tdist m); simpl; [|done].
  by rewrite (Permutation_app_comm (locs m)).
Qed.

Lemma join_elems l (v : T) (tl m : tree T) : elems (join l v tl m) ≡ₚ v :: elems tl ++ elems m.
Proof.
  unfold join. destruct (tdist tl <? tdist m); simpl; [|done].
  by rewrite (Permutation_app_comm (elems m)).
Qed.

Lemma join_root l (v : T) (tl m : tree T) : root_of (join l v tl m) = Some l.
Proof. unfold join. by destruct (tdist tl <? tdist m). Qed.

Lemma merge_tree_locs a tr b tr' t :
  merge_tree cmp a tr b = (tr', Returns t) → locs t ≡ₚ locs a ++ locs b.
Proof.
  revert tr' t. pattern a, tr, b, (merge_tree cmp a tr b).
  apply merge_tree_ind; clear a tr b.
  - intros tr b tr' t [= _ <-]. done.
  - intros tr l v d tl tr0 tr' t [= _ <-]. by rewrite app_nil_r.
  - intros; discriminate.
  - intros tr la va da al ar lb vb db bl br Hc b r IH tr' t.
    destruct r as [tr2 [m|c]]; simpl; [|discriminate].
    intros [= _ <-]. rewrite join_locs, (IH _ _ eq_refl). simpl.
    by rewrite app_assoc.
  - intros tr la va da al ar lb vb db bl br Hc a r IH tr' t.
    destruct r as [tr2 [m|c]]; unfold finish; [|discriminate].
    intros [= _ <-]. rewrite join_locs, (IH _ _ eq_refl).
    change (locs (Nd lb vb db bl br)) with (lb :: locs bl ++ locs br).
    apply perm_swap_middle.
Qed.

Lemma merge_tree_elems a tr b tr' t :
  merge_tree cmp a tr b = (tr', Returns t) → elems t ≡ₚ elems a ++ elems b.
Proof.
  revert tr' t. pattern a, tr, b, (merge_tree cmp a tr b).
  apply merge_tree_ind; clear a tr b.
  - intros tr b tr' t [= _ <-]. done.
  - intros tr l v d tl tr0 tr' t [= _ <-]. by rewrite app_nil_r.
  - intros; discriminate.
  - intros tr la va da al ar lb vb db bl br Hc b r IH tr' t.
    destruct r as [tr2 [m|c]]; simpl; [|discriminate].
    intros [= _ <-]. rewrite join_elems, (IH _ _ eq_refl). simpl.
    by rewrite app_assoc.
  - intros tr la va da al ar lb vb db bl br Hc a r IH tr' t.
    destruct r as [tr2 [m|c]]; unfold finish; [|discriminate].
    intros [= _ <-]. rewrite join_elems, (IH _ _ eq_refl).
    change (elems (Nd lb vb db bl br)) with (vb :: elems bl ++ elems br).
    apply perm_swap_middle.
Qed.

Lemma merge_tree_size a tr b tr' t :
  merge_tree cmp a tr b = (tr', Returns t) → tsize t = (tsize a + tsize b)%nat.
Proof.
  intros H. apply merge_tree_locs in H.
  apply Permutation_length in H. rewrite length_app, !locs_length in H. done.
Qed.

(** ** [mergeNodes] computes [merge_tree] in place *)

Lemma call_cmp_run w (a b : T) :
  call_cmp cmp a b w =
    match cmp (trace w) a b with
    | Returns r => Done (log w (Cmp a b)) r
    | Throws c => Raised (log w (Cmp a b)) (foreign c)
    end.
Proof. reflexivity. Qed.

Lemma mergeNodes_fuel_spec a tr b :
  ∀ fuel w,
    trace w = tr →
    stored (heap w) a → stored (heap w) b →
    NoDup (locs a ++ locs b) →
    (tsize a + tsize b < fuel)%nat →
    mergeNodes_fuel cmp fuel (root_of a) (root_of b) w
    = in_place w (merge_tree cmp a tr b).
Proof.
  pattern a, tr, b, (merge_tree cmp a tr b).
  apply merge_tree_ind; clear a tr b.
  - intros tr b fuel w <- _ Hb _ _. simpl.
    rewrite (stored_write_id _ _ Hb), world_eta. by destruct fuel.
  - intros tr l v d tl rt fuel w <- Ha _ _ _.
    unfold in_place. rewrite (stored_write_id _ _ Ha), world_eta. by destruct fuel.
  - intros tr la va da al ar lb vb db bl br c Hc fuel w <- Ha Hb _ Hfuel.
    destruct fuel as [|fuel]; [lia|]. simpl.
    destruct Ha as (Hla & _), Hb as (Hlb & _).
    step (get_data_run _ _ _ Hla).
    step (get_data_run _ _ _ Hlb). simpl.
    unfold bind at 1. by rewrite call_cmp_run, Hc.
  - intros tr la va da al ar lb vb db bl br Hc b r IH fuel w <- Ha Hb Hnd Hfuel.
    destruct fuel as [|fuel]; [simpl in Hfuel; lia|].
    pose proof Ha as (Hla & Hal & Har). pose proof Hb as (Hlb & _).
    change (root_of (Nd la va da al ar)) with (Some la).
    change (root_of b) with (Some lb).
    cbn [mergeNodes_fuel].
    step (get_data_run _ _ _ Hla).
    step (get_data_run _ _ _ Hlb). simpl data.
    unfold bind at 1. rewrite call_cmp_run, Hc. cbn [negb].
    set (w1 := log w (Cmp va vb)).
    assert (Hla1 : heap w1 !! la = Some (mkNode va (root_of al) (root_of ar) da))
      by done.
    step (get_right_run _ _ _ Hla1). simpl right.
    simpl in Hnd. apply NoDup_cons in Hnd as [Hla_notin Hnd].
    assert (Hnd' : NoDup (locs ar ++ locs b)).
    { rewrite <- app_assoc in Hnd. by apply NoDup_app in Hnd as (_ & _ & ?). }
    unfold bind at 1.
    change (Some lb) with (root_of b).
    rewrite (IH fuel w1) by (try done; simpl in Hfuel; simpl; lia).
    fold r. destruct r as [tr2 [m|c]] eqn:Hr; simpl; [|done].
    pose proof (merge_tree_locs _ _ _ _ _ Hr) as Hperm.
    assert (Hndm : NoDup (locs m)) by by rewrite Hperm.
    assert (Hla_m : la ∉ locs m).
    { rewrite Hperm. intros Hin. apply Hla_notin.
      rewrite <- app_assoc. apply elem_of_app. by right. }
    assert (Hla_al : la ∉ locs al).
    { intros Hin. apply Hla_notin. rewrite <- app_assoc. apply elem_of_app. by left. }
    assert (Hal_m : ∀ x, x ∈ locs al → x ∉ locs m).
    { intros x Hx. rewrite Hperm. rewrite <- app_assoc in Hnd.
      apply NoDup_app in Hnd as (_ & Hd & _). by apply Hd. }
    set (w2 := mkWorld (write_tree m (heap w)) (objs w) tr2).
    assert (Hla2 : heap w2 !! la = Some (mkNode va (root_of al) (root_of ar) da)).
    { subst w2; simpl. by rewrite lookup_write_notin. }
    step (set_right_run _ _ _ (root_of m) Hla2).
    simpl data; simpl left; simpl dist.
    set (w3 := set_heap w2 _).
    rewrite (maintain_leftist_run w3 la va da al m); first last; try done.
    { eapply stored_frame; [apply (stored_write (heap w)), Hndm|].
      intros x Hx. subst w3 w2; simpl.
      apply lookup_insert_ne. by intros ->. }
    { eapply stored_frame; [exact Hal|]. intros x Hx. subst w3 w2; simpl.
      rewrite lookup_insert_ne by (by intros ->).
      apply lookup_write_notin. by apply Hal_m. }
    { subst w3; simpl. apply lookup_insert_eq. }
    unfold ret. rewrite join_root. f_equal. subst w3 w2. unfold set_heap; simpl.
    rewrite insert_insert_eq. f_equal. unfold join.
    destruct (tdist al <? tdist m); simpl.
    + by rewrite (stored_write_id _ _ Hal).
    + rewrite (stored_write_id (write_tree m (heap w)) al); [done|].
      eapply stored_frame; [exact Hal|]. intros x Hx.
      apply lookup_write_notin. by apply Hal_m.
  - intros tr la va da al ar lb vb db bl br Hc a r IH fuel w <- Ha Hb Hnd Hfuel.
    destruct fuel as [|fuel]; [simpl in Hfuel; lia|].
    pose proof Ha as (Hla & _). pose proof Hb as (Hlb & Hbl & Hbr).
    change (root_of (Nd lb vb db bl br)) with (Some lb).
    change (root_of a) with (Some la).
    cbn [mergeNodes_fuel].
    step (get_data_run _ _ _ Hla).
    step (get_data_run _ _ _ Hlb). simpl data.
    unfold bind at 1. rewrite call_cmp_run, Hc. cbn [negb].
    set (w1 := log w (Cmp va vb)).
    assert (Hlb1 : heap w1 !! lb = Some (mkNode vb (root_of bl) (root_of br) db))
      by done.
    step (get_right_run _ _ _ Hlb1). simpl right.
    change (locs (Nd lb vb db bl br)) with (lb :: locs bl ++ locs br) in Hnd.
    assert (Hnd2 : NoDup (lb :: locs bl ++ (locs a ++ locs br))).
    { by rewrite perm_swap_middle. }
    apply NoDup_cons in Hnd2 as [Hlb_notin Hnd2].
    assert (Hnd' : NoDup (locs a ++ locs br)).
    { by apply NoDup_app in Hnd2 as (_ & _ & ?). }
    unfold bind at 1.
    change (Some la) with (root_of a).
    rewrite (IH fuel w1) by (try done; simpl in Hfuel; simpl; lia).
    fold r. destruct r as [tr2 [m|c]] eqn:Hr; simpl; [|done].
    pose proof (merge_tree_locs _ _ _ _ _ Hr) as Hperm.
    assert (Hndm : NoDup (locs m)) by by rewrite Hperm.
    assert (Hlb_m : lb ∉ locs m).
    { rewrite Hperm. intros Hin. apply Hlb_notin. apply elem_of_app. by right. }
    assert (Hlb_bl : lb ∉ locs bl).
    { intros Hin. apply Hlb_notin. apply elem_of_app. by left. }
    assert (Hbl_m : ∀ x, x ∈ locs bl → x ∉ locs m).
    { intros x Hx. rewrite Hperm.
      apply NoDup_app in Hnd2 as (_ & Hd & _). by apply Hd. }
    set (w2 := mkWorld (write_tree m (heap w)) (objs w) tr2).
    assert (Hlb2 : heap w2 !! lb = Some (mkNode vb (root_of bl) (root_of br) db)).
    { subst w2; simpl. by rewrite lookup_write_notin. }
    step (set_right_run _ _ _ (root_of m) Hlb2).
    simpl data; simpl left; simpl dist.
    set (w3 := set_heap w2 _).
    rewrite (maintain_leftist_run w3 lb vb db bl m); first last; try done.
    { eapply stored_frame; [apply (stored_write (heap w)), Hndm|].
      intros x Hx. subst w3 w2; simpl.
      apply lookup_insert_ne. by intros ->. }
    { eapply stored_frame; [exact Hbl|]. intros x Hx. subst w3 w2; simpl.
      rewrite lookup_insert_ne by (by intros ->).
      apply lookup_write_notin. by apply Hbl_m. }
    { subst w3; simpl. apply lookup_insert_eq. }
    unfold ret. rewrite join_root. f_equal. subst w3 w2. unfold set_heap; simpl.
    rewrite insert_insert_eq. f_equal. unfold join.
    destruct (tdist bl <? tdist m); simpl.
    + by rewrite (stored_write_id _ _ Hbl).
    + rewrite (stored_write_id (write_tree m (heap w)) bl); [done|].
      eapply stored_frame; [exact Hbl|]. intros x Hx.
      apply lookup_write_notin. by apply Hbl_m.
Qed.

Lemma mergeNodes_spec a b w :
  stored (heap w) a → stored (heap w) b → NoDup (locs a ++ locs b) →
  mergeNodes cmp (root_of a) (root_of b) w
  = in_place w (merge_tree cmp a (trace w) b).
Proof.
  intros Ha Hb Hnd. unfold mergeNodes, depth_bound.
  apply mergeNodes_fuel_spec; try done.
  assert (Hlen : (length (locs a ++ locs b) ≤ base.size (heap w))%nat).
  { apply live_length; [done|].
    intros l [Hl|Hl]%elem_of_app; eauto using stored_live. }
  rewrite length_app, !locs_length in Hlen. lia.
Qed.

(** ** [deleteTree] frees exactly the cells of the tree, children first *)

Lemma deleteTree_fuel_spec t :
  ∀ fuel w,
    stored (heap w) t → NoDup (locs t) → (tsize t < fuel)%nat →
    deleteTree_fuel fuel (root_of t) w
    = Done (mkWorld (erase_tree t (heap w)) (objs w)
                    (trace w ++ map Delete (postorder t))) tt.
Proof.
  induction t as [|l v d tl IHl rt IHr]; intros fuel w Hst Hnd Hfuel.
  - simpl. rewrite app_nil_r, world_eta. by destruct fuel.
  - destruct fuel as [|fuel]; [lia|]. simpl in Hfuel.
    destruct Hst as (Hl & Hsl & Hsr).
    simpl in Hnd. apply NoDup_cons in Hnd as [Hnotin Hnd].
    apply not_elem_of_app in Hnotin as [Hn1 Hn2].
    apply NoDup_app in Hnd as (Hndl & Hdisj & Hndr).
    cbn [root_of deleteTree_fuel].
    step (get_left_run _ _ _ Hl). simpl left.
    erewrite bind_Done by (apply IHl; [done|done|lia]).
    set (w1 := mkWorld (erase_tree tl (heap w)) _ _).
    assert (Hl1 : heap w1 !! l = Some (mkNode v (root_of tl) (root_of rt) d)).
    { subst w1; simpl. by rewrite lookup_erase_notin. }
    step (get_right_run _ _ _ Hl1). simpl right.
    erewrite bind_Done; last first.
    { apply IHr; [|done|lia]. eapply stored_frame; [exact Hsr|].
      intros x Hx. subst w1; simpl. apply lookup_erase_notin.
      intros Hx'. by apply (Hdisj x). }
    unfold delete_node. simpl.
    rewrite lookup_erase_notin by done. subst w1; simpl in Hl1. rewrite Hl1.
    do 2 f_equal. rewrite !map_app, <- !app_assoc. done.
Qed.

Lemma deleteTree_spec t w :
  stored (heap w) t → NoDup (locs t) →
  deleteTree (root_of t) w
  = Done (mkWorld (erase_tree t (heap w)) (objs w)
                  (trace w ++ map Delete (postorder t))) tt.
Proof.
  intros Hst Hnd. unfold deleteTree, depth_bound.
  apply deleteTree_fuel_spec; try done.
  pose proof (stored_size _ _ Hst Hnd). lia.
Qed.

(** ** [copyTree] builds a fresh copy, or leaves its partial copy behind *)

Lemma new_node_run w (v : T) :
  new_node alloc v w =
    match alloc (trace w) (heap w) v with
    | Returns l =>
        Done (mkWorld (<[l := mkNode v None None 0]> (heap w))
                      (objs w) (trace w ++ [New l])) l
    | Throws c => Raised (log w NewFailed) (foreign c)
    end.
Proof. reflexivity. Qed.

Lemma copyTree_fuel_spec t :
  ∀ fuel w,
    stored (heap w) t → (tsize t < fuel)%nat →
    match copyTree_fuel alloc fuel (root_of t) w with
    | Done w' p => copied t w w' p
    | Raised w' e => copy_failed w w' e
    | _ => False
    end.
Proof.
  induction t as [|lo v d tl IHl rt IHr]; intros fuel w Hst Hfuel.
  - change (root_of Leaf) with (@None loc).
    assert (copyTree_fuel alloc fuel None w = Done w None) as -> by by destruct fuel.
    exists Leaf. simpl. rewrite app_nil_r. split_and!; try done; [constructor|].
    intros l Hl. by apply elem_of_nil in Hl.
  - destruct fuel as [|fuel]; [lia|]. simpl in Hfuel.
    destruct Hst as (Hlo & Hsl & Hsr).
    cbn [root_of copyTree_fuel].
    step (get_data_run _ _ _ Hlo). simpl data.
    unfold bind at 1. rewrite new_node_run.
    destruct (alloc (trace w) (heap w) v) as [ln|c] eqn:Hal.
    2:{ exists [], c. simpl. split_and!; try done; [constructor|].
        intros l Hl. by apply elem_of_nil in Hl. }
    pose proof (alloc_fresh _ _ _ _ Hal) as Hln.
    set (w1 := mkWorld _ _ _).
    assert (Hsub1 : ∀ x, is_Some (heap w !! x) → heap w1 !! x = heap w !! x).
    { intros x [n Hx]. subst w1; simpl. apply lookup_insert_ne. congruence. }
    assert (Hlo1 : heap w1 !! lo = Some (mkNode v (root_of tl) (root_of rt) d)).
    { rewrite Hsub1; [done | eauto]. }
    step (get_left_run _ _ _ Hlo1). simpl left.
    assert (Hsl1 : stored (heap w1) tl).
    { eapply stored_frame; [exact Hsl|]. intros x Hx.
      apply Hsub1. eauto using stored_live. }
    specialize (IHl fuel w1 Hsl1 ltac:(lia)).
    unfold bind at 1.
    destruct (copyTree_fuel alloc fuel (root_of tl) w1) as [w2 pl|w2 e| |];
      [|clear IHr|done|done].
    2:{ destruct IHl as (ls & c & -> & Htr & Hnd & Hls & Hout & Hobj).
        exists (ln :: ls), c. split_and!; try done.
        - rewrite Htr. subst w1; simpl. by rewrite <- app_assoc.
        - apply NoDup_cons. split; [|done]. intros Hin.
          destruct (Hls _ Hin) as [Hnone _]. subst w1; simpl in Hnone.
          by rewrite lookup_insert_eq in Hnone.
        - intros l [->|Hl]%elem_of_cons.
          + split; [done|]. rewrite Hout.
            * subst w1; simpl. rewrite lookup_insert_eq. by eexists.
            * intros Hin. destruct (Hls _ Hin) as [Hnone _].
              subst w1; simpl in Hnone. by rewrite lookup_insert_eq in Hnone.
          + destruct (Hls _ Hl) as [Hnone Hsome]. split; [|done].
            subst w1; simpl in Hnone.
            apply lookup_insert_None in Hnone. tauto.
        - intros l [Hne Hl]%not_elem_of_cons. rewrite Hout by done.
          subst w1; simpl. by apply lookup_insert_ne. }
    destruct IHl as (tl' & -> & Hshl & Hndl & Hfrl & Hstl & Houtl & Hobjl & Htrl).
    assert (Hln_l : ln ∉ locs tl').
    { intros Hin. apply Hfrl in Hin. subst w1; simpl in Hin.
      by rewrite lookup_insert_eq in Hin. }
    assert (Hln2 : heap w2 !! ln = Some (mkNode v None None 0)).
    { rewrite Houtl by done. subst w1; simpl. apply lookup_insert_eq. }
    step (set_left_run _ _ _ (root_of tl') Hln2).
    simpl data; simpl right; simpl dist.
    set (w3 := set_heap w2 _).
    assert (Hsub3 : ∀ x, is_Some (heap w !! x) → heap w3 !! x = heap w !! x).
    { intros x Hx. pose proof Hx as [n Hn].
      subst w3; simpl. rewrite lookup_insert_ne by congruence.
      rewrite Houtl; [by apply Hsub1|].
      intros Hin. apply Hfrl in Hin. rewrite Hsub1 in Hin by done. congruence. }
    assert (Hlo3 : heap w3 !! lo = Some (mkNode v (root_of tl) (root_of rt) d)).
    { rewrite Hsub3; [done | eauto]. }
    step (get_right_run _ _ _ Hlo3). simpl right.
    assert (Hsr3 : stored (heap w3) rt).
    { eapply stored_frame; [exact Hsr|]. intros x Hx.
      apply Hsub3. eauto using stored_live. }
    specialize (IHr fuel w3 Hsr3 ltac:(lia)).
    assert (Hln3 : heap w3 !! ln = Some (mkNode v (root_of tl') None 0)).
    { subst w3; simpl. apply lookup_insert_eq. }
    assert (Hlive3 : ∀ x, x ∈ locs tl' → is_Some (heap w3 !! x)).
    { intros x Hx. subst w3; simpl. rewrite lookup_insert_ne by congruence.
      eauto using stored_live. }
    unfold bind at 1.
    destruct (copyTree_fuel alloc fuel (root_of rt) w3) as [w4 pr|w4 e| |];
      [| |done|done].
    2:{ destruct IHr as (ls & c & -> & Htr & Hnd & Hls & Hout & Hobj).
        assert (Hln_ls : ln ∉ ls).
        { intros Hin. destruct (Hls _ Hin) as [Hnone _]. congruence. }
        assert (Hl_ls : ∀ x, x ∈ locs tl' → x ∉ ls).
        { intros x Hx Hin. destruct (Hls _ Hin) as [Hnone _].
          destruct (Hlive3 _ Hx). congruence. }
        exists (ln :: locs tl' ++ ls), c. split_and!; try done.
        - rewrite Htr. subst w3; simpl. rewrite Htrl. subst w1; simpl.
          rewrite map_app, <- !app_assoc. done.
        - apply NoDup_cons. split.
          + intros [?|?]%elem_of_app; done.
          + apply NoDup_app. split_and!; done.
        - intros l [->|[Hl|Hl]%elem_of_app]%elem_of_cons.
          + split; [done|]. rewrite Hout by done. by eexists.
          + split.
            * apply Hfrl in Hl. subst w1; simpl in Hl.
              apply lookup_insert_None in Hl. tauto.
            * rewrite Hout by (by apply Hl_ls). by apply Hlive3.
          + destruct (Hls _ Hl) as [Hnone Hsome]. split; [|done].
            subst w3; simpl in Hnone. apply lookup_insert_None in Hnone.
            destruct Hnone as [Hnone Hne].
            destruct (decide (l ∈ locs tl')) as [Hin|Hnin].
            { destruct (stored_live _ _ _ Hstl Hin). congruence. }
            rewrite Houtl in Hnone by done. subst w1; simpl in Hnone.
            apply lookup_insert_None in Hnone. tauto.
        - intros l [Hne [Hl1 Hl2]%not_elem_of_app]%not_elem_of_cons.
          rewrite Hout by done. subst w3; simpl.
          rewrite lookup_insert_ne by done. rewrite Houtl by done.
          subst w1; simpl. by apply lookup_insert_ne.
        - rewrite Hobj. subst w3; simpl. by rewrite Hobjl. }
    destruct IHr as (rt' & -> & Hshr & Hndr & Hfrr & Hstr & Houtr & Hobjr & Htrr).
    assert (Hln_r : ln ∉ locs rt').
    { intros Hin. apply Hfrr in Hin. congruence. }
    assert (Hl_r : ∀ x, x ∈ locs tl' → x ∉ locs rt').
    { intros x Hx Hin. apply Hfrr in Hin. destruct (Hlive3 _ Hx). congruence. }
    assert (Hln4 : heap w4 !! ln = Some (mkNode v (root_of tl') None 0)).
    { by rewrite Houtr. }
    step (set_right_run _ _ _ (root_of rt') Hln4).
    simpl data; simpl left; simpl dist.
    set (w5 := set_heap w4 _).
    assert (Hlo5 : heap w5 !! lo = Some (mkNode v (root_of tl) (root_of rt) d)).
    { subst w5; simpl. rewrite lookup_insert_ne by congruence.
      rewrite Houtr; [done|]. intros Hin. apply Hfrr in Hin. congruence. }
    step (get_dist_run _ _ _ Hlo5). simpl dist.
    assert (Hln5 : heap w5 !! ln = Some (mkNode v (root_of tl') (root_of rt') 0)).
    { subst w5; simpl. apply lookup_insert_eq. }
    step (set_dist_run _ _ _ d Hln5).
    simpl data; simpl left; simpl right.
    unfold ret. exists (Nd ln v d tl' rt'). simpl. split_and!; try done.
    + apply NoDup_cons. split.
      * intros [?|?]%elem_of_app; done.
      * apply NoDup_app. split_and!; done.
    + intros l [->|[Hl|Hl]%elem_of_app]%elem_of_cons.
      * done.
      * apply Hfrl in Hl. subst w1; simpl in Hl.
        apply lookup_insert_None in Hl. tauto.
      * pose proof (Hfrr _ Hl) as Hnone.
        subst w3; simpl in Hnone. apply lookup_insert_None in Hnone.
        destruct Hnone as [Hnone Hne].
        destruct (decide (l ∈ locs tl')) as [Hin|Hnin].
        { destruct (stored_live _ _ _ Hstl Hin). congruence. }
        rewrite Houtl in Hnone by done. subst w1; simpl in Hnone.
        apply lookup_insert_None in Hnone. tauto.
    + rewrite insert_insert_eq. apply lookup_insert_eq.
    + eapply stored_frame; [exact Hstl|]. intros x Hx.
      rewrite insert_insert_eq. rewrite lookup_insert_ne by congruence.
      rewrite Houtr by (by apply Hl_r). subst w3; simpl.
      apply lookup_insert_ne. congruence.
    + eapply stored_frame; [exact Hstr|]. intros x Hx.
      rewrite insert_insert_eq. apply lookup_insert_ne. congruence.
    + intros l [Hne [Hl1 Hl2]%not_elem_of_app]%not_elem_of_cons.
      rewrite insert_insert_eq. rewrite lookup_insert_ne by done.
      rewrite Houtr by done. subst w3; simpl.
      rewrite lookup_insert_ne by done. rewrite Houtl by done.
      subst w1; simpl. by apply lookup_insert_ne.
    + subst w5; simpl. rewrite Hobjr. subst w3; simpl. by rewrite Hobjl.
    + subst w5; simpl. rewrite Htrr. subst w3; simpl. rewrite Htrl.
      subst w1; simpl. rewrite map_app, <- !app_assoc. done.
Qed.

Lemma copyTree_spec t w :
  stored (heap w) t → NoDup (locs t) →
  match copyTree alloc (root_of t) w with
  | Done w' p => copied t w w' p
  | Raised w' e => copy_failed w w' e
  | _ => False
  end.
Proof.
  intros Hst Hnd. unfold copyTree, depth_bound.
  apply copyTree_fuel_spec; [done|].
  pose proof (stored_size _ _ Hst Hnd). lia.
Qed.

Lemma copyTree_null w : copyTree alloc None w = Done w None.
Proof. reflexivity. Qed.

(** ** Data members *)

Lemma get_root_run w c q : objs w !! c = Some q → get_root c w = Done w (root q).
Proof. intros H. unfold get_root, get_obj, bind, ret. by rewrite H. Qed.

Lemma get_size_run w c q :
  objs w !! c = Some q → get_size c w = Done w (queue_size q).
Proof. intros H. unfold get_size, get_obj, bind, ret. by rewrite H. Qed.

Lemma get_root_none w c : objs w !! c = None → get_root c w = Undefined.
Proof. intros H. unfold get_root, get_obj, bind. by rewrite H. Qed.

Lemma get_size_none w c : objs w !! c = None → get_size c w = Undefined.
Proof. intros H. unfold get_size, get_obj, bind. by rewrite H. Qed.

Lemma set_root_run w c q p :
  objs w !! c = Some q →
  set_root c p w = Done (set_objs w (<[c := mkPq p (queue_size q)]> (objs w))) tt.
Proof. intros H. unfold set_root, get_obj, put_obj, bind. by rewrite H, H. Qed.

Lemma set_size_run w c q n :
  objs w !! c = Some q →
  set_size c n w = Done (set_objs w (<[c := mkPq (root q) n]> (objs w))) tt.
Proof. intros H. unfold set_size, get_obj, put_obj, bind. by rewrite H, H. Qed.

Lemma set_root_id w c p n :
  objs w !! c = Some (mkPq p n) → set_root c p w = Done w tt.
Proof.
  intros H. rewrite (set_root_run _ _ _ _ H). simpl.
  unfold set_objs. by rewrite insert_id, world_eta.
Qed.

Lemma set_size_id w c p n :
  objs w !! c = Some (mkPq p n) → set_size c n w = Done w tt.
Proof.
  intros H. rewrite (set_size_run _ _ _ _ H). simpl.
  unfold set_objs. by rewrite insert_id, world_eta.
Qed.

Lemma wrap_succ n : wrap (wrap n + 1) = wrap (n + 1).
Proof. unfold wrap. by rewrite Zplus_mod_idemp_l. Qed.

Lemma wrap_add n k : wrap (wrap n + wrap k) = wrap (n + k).
Proof. unfold wrap. by rewrite <- Zplus_mod. Qed.

(** ** What the member functions do to a container that owns a tree *)

Lemma empty_spec w c t :
  owns w c t → empty c w = Done w (wrap (Z.of_nat (tsize t)) =? 0).
Proof.
  intros (Hc & _). unfold empty.
  by step (get_size_run _ _ _ Hc).
Qed.

Lemma top_spec w c t :
  owns w c t →
  top c w =
    if wrap (Z.of_nat (tsize t)) =? 0 then Raised w container_is_empty
    else match t with
         | Nd _ v _ _ _ => Done w v
         | Leaf => Undefined
         end.
Proof.
  intros Ho. unfold top. step (empty_spec _ _ _ Ho).
  destruct (wrap _ =? 0); [done|].
  destruct Ho as (Hc & Hst & _).
  step (get_root_run _ _ _ Hc). simpl.
  destruct t as [|l v d tl rt]; simpl; [done|].
  destruct Hst as (Hl & _). by rewrite (get_data_run _ _ _ Hl).
Qed.

Lemma push_spec w c t e :
  owns w c t →
  push cmp alloc c e w =
    match alloc (trace w) (heap w) e with
    | Throws k => Raised (log w NewFailed) (foreign k)
    | Returns l =>
        match merge_tree cmp t (trace w ++ [New l]) (Nd l e 0 Leaf Leaf) with
        | (tr', Returns t') =>
            Done (mkWorld (write_tree t' (<[l := mkNode e None None 0]> (heap w)))
                          (<[c := mkPq (root_of t') (wrap (Z.of_nat (tsize t) + 1))]>
                             (objs w))
                          tr') tt
        | (tr', Throws k) =>
            Raised (mkWorld (heap w) (objs w) (tr' ++ [Delete l])) (foreign k)
        end
    end.
Proof.
  intros (Hc & Hst & Hnd). unfold push.
  unfold bind at 1. rewrite new_node_run.
  destruct (alloc (trace w) (heap w) e) as [l|k] eqn:Hal; [|done].
  pose proof (alloc_fresh _ _ _ _ Hal) as Hl.
  set (w1 := mkWorld _ _ _).
  assert (Hc1 : objs w1 !! c = Some (mkPq (root_of t) (wrap (Z.of_nat (tsize t)))))
    by done.
  unfold try_catch.
  step (get_root_run _ _ _ Hc1). simpl root.
  assert (Hl_t : l ∉ locs t).
  { intros Hin. destruct (stored_live _ _ _ Hst Hin). congruence. }
  unfold bind at 1.
  change (Some l) with (root_of (Nd l e 0 Leaf Leaf)).
  rewrite mergeNodes_spec; first last.
  - simpl. apply NoDup_app. split_and!; [done| |apply NoDup_singleton].
    intros x Hx ->%list_elem_of_singleton. done.
  - simpl. split_and!; try done. subst w1; simpl. apply lookup_insert_eq.
  - eapply stored_frame; [exact Hst|]. intros x Hx. subst w1; simpl.
    apply lookup_insert_ne. congruence.
  - change (trace w1) with (trace w ++ [New l]).
    destruct (merge_tree cmp t (trace w ++ [New l]) (Nd l e 0 Leaf Leaf))
      as [tr' [t'|k]]; simpl.
    + set (w2 := mkWorld _ _ _).
      assert (Hc2 : objs w2 !! c = Some (mkPq (root_of t) (wrap (Z.of_nat (tsize t)))))
        by done.
      step (set_root_run _ _ _ (root_of t') Hc2).
      simpl queue_size. set (w3 := set_objs w2 _).
      assert (Hc3 : objs w3 !! c = Some (mkPq (root_of t') (wrap (Z.of_nat (tsize t)))))
        by (subst w3; simpl; apply lookup_insert_eq).
      step (get_size_run _ _ _ Hc3). simpl queue_size.
      rewrite (set_size_run _ _ _ _ Hc3). subst w3 w2. unfold set_objs; simpl.
      by rewrite insert_insert_eq, wrap_succ.
    + unfold bind, delete_node, raise. simpl. rewrite lookup_insert_eq.
      by rewrite delete_insert_id.
Qed.

Lemma wrap_pred n : wrap (wrap n - 1) = wrap (n - 1).
Proof. unfold wrap. by rewrite Zminus_mod_idemp_l. Qed.

Lemma pop_spec w c t :
  owns w c t →
  pop cmp c w =
    if wrap (Z.of_nat (tsize t)) =? 0 then Raised w container_is_empty
    else match t with
         | Leaf => Undefined
         | Nd l _ _ tl rt =>
             match merge_tree cmp tl (trace w) rt with
             | (tr', Returns m) =>
                 Done (mkWorld (delete l (write_tree m (heap w)))
                               (<[c := mkPq (root_of m) (wrap (Z.of_nat (tsize t) - 1))]>
                                  (objs w))
                               (tr' ++ [Delete l])) tt
             | (tr', Throws k) =>
                 Raised (mkWorld (heap w) (objs w) tr') (foreign k)
             end
         end.
Proof.
  intros Ho. unfold pop. step (empty_spec _ _ _ Ho).
  destruct (wrap _ =? 0); [done|].
  destruct Ho as (Hc & Hst & Hnd).
  step (get_root_run _ _ _ Hc). simpl root.
  unfold try_catch. step (get_root_run _ _ _ Hc). cbn [root].
  destruct t as [|l v d tl rt]; [done|].
  cbn [root_of].
  destruct Hst as (Hl & Hsl & Hsr).
  step (get_left_run _ _ _ Hl). simpl left.
  step (get_right_run _ _ _ Hl). simpl right.
  simpl in Hnd. apply NoDup_cons in Hnd as [Hl_notin Hnd].
  unfold bind at 1. rewrite mergeNodes_spec by done.
  pose proof (merge_tree_locs tl (trace w) rt) as Hperm.
  destruct (merge_tree cmp tl (trace w) rt) as [tr' [m|k]]; simpl.
  - specialize (Hperm _ _ eq_refl).
    set (w2 := mkWorld _ _ _).
    assert (Hc2 : objs w2 !! c = Some (mkPq (Some l) (wrap (Z.of_nat (tsize (Nd l v d tl rt))))))
      by done.
    step (set_root_run _ _ _ (root_of m) Hc2).
    simpl queue_size. set (w3 := set_objs w2 _).
    assert (Hc3 : objs w3 !! c = Some (mkPq (root_of m) (wrap (Z.of_nat (tsize (Nd l v d tl rt))))))
      by (subst w3; simpl; apply lookup_insert_eq).
    step (get_size_run _ _ _ Hc3). simpl queue_size.
    step (set_size_run _ _ _ _ Hc3). simpl root.
    unfold delete_node. subst w3 w2. unfold set_objs; simpl.
    rewrite lookup_write_notin by (by rewrite Hperm). rewrite Hl.
    by rewrite insert_insert_eq, wrap_pred.
  - set (w2 := mkWorld _ _ _).
    assert (Hc2 : objs w2 !! c = Some (mkPq (Some l) (wrap (Z.of_nat (tsize (Nd l v d tl rt))))))
      by done.
    step (set_root_run _ _ _ (Some l) Hc2).
    unfold raise, set_objs. subst w2; simpl. by rewrite insert_id.
Qed.

Lemma merge_spec w c1 c2 t1 t2 :
  c1 ≠ c2 →
  owns w c1 t1 → owns w c2 t2 →
  (∀ l, l ∈ locs t1 → l ∉ locs t2) →
  merge cmp c1 c2 w =
    match merge_tree cmp t1 (trace w) t2 with
    | (tr', Returns m) =>
        Done (mkWorld (write_tree m (heap w))
                      (<[c2 := mkPq None 0]>
                         (<[c1 := mkPq (root_of m)
                                       (wrap (Z.of_nat (tsize t1) + Z.of_nat (tsize t2)))]>
                            (objs w)))
                      tr') tt
    | (tr', Throws k) => Raised (mkWorld (heap w) (objs w) tr') (foreign k)
    end.
Proof.
  intros Hne (Hc1 & Hst1 & Hnd1) (Hc2 & Hst2 & Hnd2) Hdisj.
  unfold merge. rewrite decide_False by done.
  step (get_root_run _ _ _ Hc1).
  step (get_size_run _ _ _ Hc1).
  step (get_root_run _ _ _ Hc2).
  step (get_size_run _ _ _ Hc2).
  simpl root; simpl queue_size. unfold try_catch.
  step (get_root_run _ _ _ Hc1).
  step (get_root_run _ _ _ Hc2).
  simpl root. unfold bind at 1.
  rewrite mergeNodes_spec by (try done; by apply NoDup_app).
  destruct (merge_tree cmp t1 (trace w) t2) as [tr' [m|k]]; simpl.
  - set (w2 := mkWorld _ _ _).
    assert (H1 : objs w2 !! c1 = Some (mkPq (root_of t1) (wrap (Z.of_nat (tsize t1)))))
      by done.
    step (set_root_run _ _ _ (root_of m) H1).
    simpl queue_size. set (w3 := set_objs w2 _).
    assert (H13 : objs w3 !! c1 = Some (mkPq (root_of m) (wrap (Z.of_nat (tsize t1)))))
      by (subst w3; simpl; apply lookup_insert_eq).
    assert (H23 : objs w3 !! c2 = Some (mkPq (root_of t2) (wrap (Z.of_nat (tsize t2)))))
      by (subst w3; simpl; by rewrite lookup_insert_ne).
    step (get_size_run _ _ _ H13).
    step (get_size_run _ _ _ H23).
    simpl queue_size.
    step (set_size_run _ _ _ _ H13). simpl root.
    set (w4 := set_objs w3 _).
    assert (H24 : objs w4 !! c2 = Some (mkPq (root_of t2) (wrap (Z.of_nat (tsize t2)))))
      by (subst w4; simpl; by rewrite lookup_insert_ne).
    step (set_root_run _ _ _ None H24).
    simpl queue_size. set (w5 := set_objs w4 _).
    assert (H25 : objs w5 !! c2 = Some (mkPq None (wrap (Z.of_nat (tsize t2)))))
      by (subst w5; simpl; apply lookup_insert_eq).
    rewrite (set_size_run _ _ _ _ H25). simpl root.
    subst w5 w4 w3 w2. unfold set_objs; simpl.
    by rewrite !insert_insert_eq, wrap_add.
  - set (w2 := mkWorld _ _ _).
    assert (H1 : objs w2 !! c1 = Some (mkPq (root_of t1) (wrap (Z.of_nat (tsize t1)))))
      by done.
    assert (H2 : objs w2 !! c2 = Some (mkPq (root_of t2) (wrap (Z.of_nat (tsize t2)))))
      by done.
    step (set_root_id _ _ _ _ H1).
    step (set_size_id _ _ _ _ H1).
    step (set_root_id _ _ _ _ H2).
    step (set_size_id _ _ _ _ H2).
    done.
Qed.

(** ** The leftist invariant *)

Lemma leftist_dist_ge t : leftist t → -1 ≤ tdist t.
Proof.
  induction t as [|l v d tl IHl rt IHr]; simpl; [lia|].
  intros (_ & -> & _ & _ & Hr). specialize (IHr Hr). lia.
Qed.

Lemma leftist_dist_leaf t : leftist t → tdist t = -1 ↔ t = Leaf.
Proof.
  destruct t as [|l v d tl rt]; simpl; [done|].
  intros (_ & -> & _ & _ & Hr). pose proof (leftist_dist_ge _ Hr).
  split; [lia | done].
Qed.

Lemma leftist_singleton l (v : T) : leftist (Nd l v 0 Leaf Leaf).
Proof. simpl. split_and!; done. Qed.

Lemma leftist_join l (v : T) (tl m : tree T) :
  leftist tl → leftist m → leftist (join l v tl m).
Proof.
  intros Hl Hm. unfold join.
  pose proof (leftist_dist_ge _ Hl). pose proof (leftist_dist_ge _ Hm).
  destruct (tdist tl <? tdist m) eqn:Hlt; simpl.
  - apply Z.ltb_lt in Hlt. split_and!; try done; [lia|].
    rewrite <- (leftist_dist_leaf _ Hl). lia.
  - apply Z.ltb_ge in Hlt. split_and!; try done.
    rewrite <- (leftist_dist_leaf _ Hm). lia.
Qed.

Lemma merge_tree_leftist a tr b tr' t :
  leftist a → leftist b →
  merge_tree cmp a tr b = (tr', Returns t) → leftist t.
Proof.
  revert tr' t. pattern a, tr, b, (merge_tree cmp a tr b).
  apply merge_tree_ind; clear a tr b.
  - by intros tr b tr' t _ Hb [= _ <-].
  - by intros tr l v d tl rt tr' t Ha _ [= _ <-].
  - intros; discriminate.
  - intros tr la va da al ar lb vb db bl br Hc b r IH tr' t Ha Hb.
    destruct r as [tr2 [m|c]]; unfold finish; [|discriminate].
    intros [= _ <-]. destruct Ha as (_ & _ & _ & Hal & Har).
    apply leftist_join; [done|]. by eapply IH.
  - intros tr la va da al ar lb vb db bl br Hc a r IH tr' t Ha Hb.
    destruct r as [tr2 [m|c]]; unfold finish; [|discriminate].
    intros [= _ <-]. destruct Hb as (_ & _ & _ & Hbl & Hbr).
    apply leftist_join; [done|]. by eapply IH.
Qed.

(** A leftist tree with [dist] field [d] at its root has at least
    [2^(d+1) - 1] nodes, so [dist] stays far below the range of [int] for
    any tree that fits in memory. *)
Lemma leftist_dist_bound t :
  leftist t → 2 ^ (tdist t + 1) ≤ Z.of_nat (tsize t) + 1.
Proof.
  induction t as [|l v d tl IHl rt IHr]; simpl tdist; [simpl; lia|].
  intros (Hle & -> & _ & Hl & Hr).
  specialize (IHl Hl). specialize (IHr Hr).
  pose proof (leftist_dist_ge _ Hr).
  assert (2 ^ (tdist rt + 1) ≤ 2 ^ (tdist tl + 1))
    by (apply Z.pow_le_mono_r; lia).
  replace (tdist rt + 1 + 1) with (Z.succ (tdist rt + 1)) by lia.
  rewrite Z.pow_succ_r by lia.
  cbn [tsize]. lia.
Qed.

Lemma same_shape_dist (t t' : tree T) : same_shape t t' → tdist t' = tdist t.
Proof. destruct t, t'; simpl; try done. by intros (_ & -> & _). Qed.

Lemma same_shape_size (t t' : tree T) : same_shape t t' → tsize t' = tsize t.
Proof.
  revert t'. induction t as [|l v d tl IHl rt IHr]; intros [|l' v' d' tl' rt'];
    simpl; try done.
  intros (_ & _ & Hl & Hr). by rewrite (IHl _ Hl), (IHr _ Hr).
Qed.

Lemma same_shape_leftist (t t' : tree T) :
  same_shape t t' → leftist t → leftist t'.
Proof.
  revert t'. induction t as [|l v d tl IHl rt IHr]; intros [|l' v' d' tl' rt'];
    simpl; try done.
  intros (_ & <- & Hl & Hr) (Hle & Hd & Hz & Hll & Hlr).
  rewrite (same_shape_dist _ _ Hl), (same_shape_dist _ _ Hr).
  split_and!; auto.
  rewrite Hz. destruct rt, rt'; simpl in Hr; try done.
Qed.

(** ** Construction, copy, assignment, destruction *)

Lemma destroy_spec w c t :
  owns w c t →
  destroy c w
  = Done (mkWorld (erase_tree t (heap w)) (delete c (objs w))
                  (trace w ++ map Delete (postorder t))) tt.
Proof.
  intros (Hc & Hst & Hnd). unfold destroy.
  step (get_root_run _ _ _ Hc). simpl root.
  step (deleteTree_spec _ _ Hst Hnd).
  unfold vanish. simpl. by rewrite Hc.
Qed.

Lemma assign_spec w c c' t t2 :
  c ≠ c' →
  owns w c t → owns w c' t2 →
  (∀ l, l ∈ locs t → l ∉ locs t2) →
  match assign alloc c c' w with
  | Done w' _ =>
      ∃ w2 p, copied t2 (released w t) w2 p
        ∧ w' = set_objs w2 (<[c := mkPq p (wrap (Z.of_nat (tsize t2)))]> (objs w))
  | Raised w' e => copy_failed (released w t) w' e
  | _ => False
  end.
Proof.
  intros Hne (Hc & Hst & Hnd) (Hc' & Hst2 & Hnd2) Hdisj.
  unfold assign. rewrite decide_False by done.
  step (get_root_run _ _ _ Hc). simpl root.
  step (deleteTree_spec _ _ Hst Hnd).
  fold (released w t). set (w1 := released w t).
  assert (Hc1 : objs w1 !! c = Some (mkPq (root_of t) (wrap (Z.of_nat (tsize t)))))
    by done.
  assert (Hc1' : objs w1 !! c' = Some (mkPq (root_of t2) (wrap (Z.of_nat (tsize t2)))))
    by done.
  step (get_root_run _ _ _ Hc1'). simpl root.
  assert (Hst1 : stored (heap w1) t2).
  { eapply stored_frame; [exact Hst2|]. intros x Hx. subst w1; simpl.
    apply lookup_erase_notin. intros Hin. by apply (Hdisj x). }
  pose proof (copyTree_spec t2 w1 Hst1 Hnd2) as Hcopy.
  unfold bind at 1.
  destruct (copyTree alloc (root_of t2) w1) as [w2 p|w2 e| |]; try done.
  pose proof Hcopy as (t' & _ & _ & _ & _ & _ & _ & Hobj & _).
  assert (Hc2 : objs w2 !! c = Some (mkPq (root_of t) (wrap (Z.of_nat (tsize t)))))
    by (by rewrite Hobj).
  step (set_root_run _ _ _ p Hc2). simpl queue_size.
  set (w3 := set_objs w2 _).
  assert (Hc3' : objs w3 !! c' = Some (mkPq (root_of t2) (wrap (Z.of_nat (tsize t2))))).
  { subst w3; simpl. rewrite lookup_insert_ne by done. by rewrite Hobj. }
  step (get_size_run _ _ _ Hc3'). simpl queue_size.
  assert (Hc3 : objs w3 !! c = Some (mkPq p (wrap (Z.of_nat (tsize t)))))
    by (subst w3; simpl; apply lookup_insert_eq).
  rewrite (set_size_run _ _ _ _ Hc3). simpl root.
  exists w2, p. split; [done|]. subst w3. unfold set_objs; simpl.
  by rewrite insert_insert_eq, Hobj.
Qed.

Lemma copy_construct_spec w c c' t2 :
  objs w !! c = None →
  owns w c' t2 →
  match copy_construct alloc c c' w with
  | Done w' _ =>
      ∃ w2 p, copied t2 (constructed w c) w2 p
        ∧ w' = set_objs w2 (<[c := mkPq p (wrap (Z.of_nat (tsize t2)))]> (objs w))
  | Raised w' e =>
      ∃ w2, copy_failed (constructed w c) w2 e ∧ w' = set_objs w2 (objs w)
  | _ => False
  end.
Proof.
  intros Hc (Hc' & Hst2 & Hnd2).
  assert (Hne : c ≠ c') by congruence.
  unfold copy_construct, construct, bind at 1. rewrite Hc.
  fold (constructed w c). set (w1 := constructed w c).
  assert (Hc1' : objs w1 !! c' = Some (mkPq (root_of t2) (wrap (Z.of_nat (tsize t2))))).
  { subst w1; simpl. by rewrite lookup_insert_ne. }
  unfold try_catch.
  step (get_root_run _ _ _ Hc1'). simpl root.
  pose proof (copyTree_spec t2 w1 Hst2 Hnd2) as Hcopy.
  unfold bind at 1.
  destruct (copyTree alloc (root_of t2) w1) as [w2 p|w2 e| |]; try done.
  - pose proof Hcopy as (t' & _ & _ & _ & _ & _ & _ & Hobj & _).
    assert (Hc2 : objs w2 !! c = Some (mkPq None 0)).
    { rewrite Hobj. subst w1; simpl. apply lookup_insert_eq. }
    step (set_root_run _ _ _ p Hc2). simpl queue_size.
    set (w3 := set_objs w2 _).
    assert (Hc3' : objs w3 !! c' = Some (mkPq (root_of t2) (wrap (Z.of_nat (tsize t2))))).
    { subst w3; simpl. rewrite lookup_insert_ne by done. by rewrite Hobj. }
    step (get_size_run _ _ _ Hc3'). simpl queue_size.
    assert (Hc3 : objs w3 !! c = Some (mkPq p 0))
      by (subst w3; simpl; apply lookup_insert_eq).
    rewrite (set_size_run _ _ _ _ Hc3). simpl root.
    exists w2, p. split; [done|]. subst w3. unfold set_objs; simpl.
    rewrite insert_insert_eq, Hobj. subst w1; simpl.
    by rewrite insert_insert_eq.
  - pose proof Hcopy as (ls & k & _ & _ & _ & _ & _ & Hobj).
    unfold bind, vanish, raise. rewrite Hobj. subst w1; simpl.
    rewrite lookup_insert_eq. exists w2. split; [done|].
    unfold set_objs. by rewrite delete_insert_id.
Qed.

(** ** The world invariant is kept by every successful operation *)

Lemma owns_frame w w' c t :
  owns w c t →
  objs w' !! c = objs w !! c →
  (∀ l, l ∈ locs t → heap w' !! l = heap w !! l) →
  owns w' c t.
Proof.
  intros (Hc & Hst & Hnd) Hobj Hheap. split_and!; [by rewrite Hobj| |done].
  by eapply stored_frame.
Qed.

(** One container gets a new tree; the cells of the others are left alone. *)
Lemma world_inv_update w w' (own : gmap cid (tree T)) c t' :
  (∀ c0, is_Some (objs w !! c0) → is_Some (own !! c0)) →
  (∀ c0 t, own !! c0 = Some t → owns w c0 t ∧ leftist t) →
  (∀ c1 c2 t1 t2 l, c1 ≠ c2 → own !! c1 = Some t1 → own !! c2 = Some t2 →
     l ∈ locs t1 → l ∉ locs t2) →
  objs w' = <[c := mkPq (root_of t') (wrap (Z.of_nat (tsize t')))]> (objs w) →
  stored (heap w') t' → NoDup (locs t') → leftist t' →
  (∀ c2 t2 l, c2 ≠ c → own !! c2 = Some t2 → l ∈ locs t2 →
     heap w' !! l = heap w !! l ∧ l ∉ locs t') →
  world_inv w'.
Proof.
  intros Hdom Hown Hdisj Hobj Hst Hnd Hlf Hothers.
  exists (<[c := t']> own). split_and!.
  - intros c0. rewrite Hobj. destruct (decide (c = c0)) as [->|Hne].
    + rewrite !lookup_insert_eq. eauto.
    + rewrite !lookup_insert_ne by done. apply Hdom.
  - intros c0 t. destruct (decide (c = c0)) as [->|Hne].
    + rewrite lookup_insert_eq. intros [= <-]. split; [|done].
      split_and!; try done. rewrite Hobj. apply lookup_insert_eq.
    + rewrite lookup_insert_ne by done. intros Hc0.
      destruct (Hown _ _ Hc0) as [Ho Hl]. split; [|done].
      eapply owns_frame; [exact Ho| |].
      * rewrite Hobj. by apply lookup_insert_ne.
      * intros l Hl'. by apply (Hothers c0 t l).
  - intros c1 c2 t1 t2 l Hne.
    destruct (decide (c = c1)) as [<-|Hne1]; destruct (decide (c = c2)) as [<-|Hne2];
      try done.
    + rewrite lookup_insert_eq, lookup_insert_ne by done.
      intros [= <-] H2 Hl Hl2. by apply (Hothers c2 t2 l).
    + rewrite lookup_insert_eq, lookup_insert_ne by done.
      intros H1 [= <-] Hl. by apply (Hothers c1 t1 l).
    + rewrite !lookup_insert_ne by done. by apply Hdisj.
Qed.

Lemma world_inv_lookup w c q :
  world_inv w → objs w !! c = Some q →
  ∃ own : gmap cid (tree T), ∃ t,
    (∀ c0, is_Some (objs w !! c0) → is_Some (own !! c0))
    ∧ (∀ c0 t0, own !! c0 = Some t0 → owns w c0 t0 ∧ leftist t0)
    ∧ (∀ c1 c2 t1 t2 l, c1 ≠ c2 → own !! c1 = Some t1 → own !! c2 = Some t2 →
         l ∈ locs t1 → l ∉ locs t2)
    ∧ own !! c = Some t ∧ owns w c t ∧ leftist t.
Proof.
  intros (own & Hdom & Hown & Hdisj) Hc.
  destruct (Hdom c) as [t Ht]; [eauto|].
  destruct (Hown _ _ Ht). exists own, t. split_and!; done.
Qed.

Lemma world_inv_initial : world_inv (mkWorld ∅ ∅ [] : world T).
Proof.
  exists ∅. split_and!.
  - intros c [q Hq]. simpl in Hq. by rewrite lookup_empty in Hq.
  - intros c t Hc. by rewrite lookup_empty in Hc.
  - intros c1 c2 t1 t2 l _ Hc. by rewrite lookup_empty in Hc.
Qed.

Lemma inv_construct w w' c :
  world_inv w → construct c w = Done w' tt → world_inv w'.
Proof.
  intros (own & Hdom & Hown & Hdisj). unfold construct.
  destruct (objs w !! c) eqn:Hc; [done|]. intros [= <-].
  eapply (world_inv_update w _ own c Leaf); try done.
  - constructor.
  - intros c2 t2 l _ _ _. split; [done|]. apply not_elem_of_nil.
Qed.

Lemma inv_push w w' c e :
  world_inv w → push cmp alloc c e w = Done w' tt → world_inv w'.
Proof.
  intros Hinv. destruct (objs w !! c) as [q|] eqn:Hc.
  2:{ unfold push, bind at 1. rewrite new_node_run.
      destruct (alloc _ _ _); [|done].
      unfold try_catch. by erewrite bind_Undefined by (by apply get_root_none). }
  destruct (world_inv_lookup _ _ _ Hinv Hc)
    as (own & t & Hdom & Hown & Hdisj & Ht & Ho & Hlf).
  rewrite (push_spec _ _ _ _ Ho).
  destruct (alloc (trace w) (heap w) e) as [l|k] eqn:Hal; [|done].
  pose proof (alloc_fresh _ _ _ _ Hal) as Hl.
  destruct (merge_tree cmp t (trace w ++ [New l]) (Nd l e 0 Leaf Leaf))
    as [tr' [t'|k]] eqn:Hm; [|done].
  intros [= <-].
  pose proof (merge_tree_locs _ _ _ _ _ Hm) as Hperm. simpl in Hperm.
  pose proof (merge_tree_size _ _ _ _ _ Hm) as Hsz. simpl in Hsz.
  destruct Ho as (_ & Hst & Hnd).
  assert (Hl_t : l ∉ locs t).
  { intros Hin. destruct (stored_live _ _ _ Hst Hin). congruence. }
  assert (Hnd' : NoDup (locs t')).
  { rewrite Hperm. apply NoDup_app. split_and!; [done| |apply NoDup_singleton].
    intros x Hx ->%list_elem_of_singleton. done. }
  eapply (world_inv_update w _ own c t'); try done.
  - simpl. do 2 f_equal. f_equal. lia.
  - simpl. by apply stored_write.
  - eapply merge_tree_leftist; [| |exact Hm]; [done | apply leftist_singleton].
  - intros c2 t2 x Hne Ht2 Hx.
    destruct (Hown _ _ Ht2) as [(_ & Hst2 & _) _].
    assert (x ≠ l).
    { intros ->. destruct (stored_live _ _ _ Hst2 Hx). congruence. }
    assert (x ∉ locs t').
    { rewrite Hperm. intros [Hin|Hin%list_elem_of_singleton]%elem_of_app; [|done].
      by apply (Hdisj c2 c t2 t x). }
    split; [|done]. simpl. rewrite lookup_write_notin by done.
    by apply lookup_insert_ne.
Qed.

Lemma inv_pop w w' c :
  world_inv w → pop cmp c w = Done w' tt → world_inv w'.
Proof.
  intros Hinv. destruct (objs w !! c) as [q|] eqn:Hc.
  2:{ unfold pop, empty.
      by rewrite (bind_Undefined _ _ _ (bind_Undefined _ _ _ (get_size_none _ _ Hc))). }
  destruct (world_inv_lookup _ _ _ Hinv Hc)
    as (own & t & Hdom & Hown & Hdisj & Ht & Ho & Hlf).
  rewrite (pop_spec _ _ _ Ho).
  destruct (wrap _ =? 0); [done|].
  destruct t as [|l v d tl rt]; [done|].
  destruct (merge_tree cmp tl (trace w) rt) as [tr' [m|k]] eqn:Hm; [|done].
  intros [= <-].
  pose proof (merge_tree_locs _ _ _ _ _ Hm) as Hperm.
  pose proof (merge_tree_size _ _ _ _ _ Hm) as Hsz.
  destruct Ho as (_ & Hst & Hnd).
  simpl in Hnd. apply NoDup_cons in Hnd as [Hl_notin Hnd].
  destruct Hlf as (_ & _ & _ & Hll & Hlr).
  assert (Hl_m : l ∉ locs m) by (by rewrite Hperm).
  eapply (world_inv_update w _ own c m); try done.
  - simpl. do 2 f_equal. f_equal. lia.
  - simpl. eapply stored_frame; [apply (stored_write (heap w)); by rewrite Hperm|].
    intros x Hx. apply lookup_delete_ne. congruence.
  - by rewrite Hperm.
  - eapply merge_tree_leftist; [| |exact Hm]; done.
  - intros c2 t2 x Hne Ht2 Hx.
    assert (Hx_t : x ∉ locs (Nd l v d tl rt)) by by apply (Hdisj c2 c t2 _ x).
    simpl in Hx_t. apply not_elem_of_cons in Hx_t as [Hxl Hx_t].
    assert (x ∉ locs m) by (by rewrite Hperm).
    split; [|done]. simpl. rewrite lookup_delete_ne by done.
    by apply lookup_write_notin.
Qed.

Lemma inv_merge w w' c1 c2 :
  world_inv w → merge cmp c1 c2 w = Done w' tt → world_inv w'.
Proof.
  intros Hinv. destruct (decide (c1 = c2)) as [->|Hne].
  { unfold merge. rewrite decide_True by done. by intros [= <-]. }
  destruct (objs w !! c1) as [q1|] eqn:Hc1.
  2:{ unfold merge. rewrite decide_False by done.
      by rewrite (bind_Undefined _ _ _ (get_root_none _ _ Hc1)). }
  destruct (objs w !! c2) as [q2|] eqn:Hc2.
  2:{ unfold merge. rewrite decide_False by done.
      step (get_root_run _ _ _ Hc1).
      step (get_size_run _ _ _ Hc1).
      by rewrite (bind_Undefined _ _ _ (get_root_none _ _ Hc2)). }
  destruct (world_inv_lookup _ _ _ Hinv Hc1)
    as (own & t1 & Hdom & Hown & Hdisj & Ht1 & Ho1 & Hlf1).
  destruct (Hdom c2) as [t2 Ht2]; [eauto|].
  destruct (Hown _ _ Ht2) as [Ho2 Hlf2].
  assert (Hd12 : ∀ l, l ∈ locs t1 → l ∉ locs t2)
    by (intros l; by apply (Hdisj c1 c2)).
  rewrite (merge_spec _ _ _ _ _ Hne Ho1 Ho2 Hd12).
  destruct (merge_tree cmp t1 (trace w) t2) as [tr' [m|k]] eqn:Hm; [|done].
  intros [= <-].
  pose proof (merge_tree_locs _ _ _ _ _ Hm) as Hperm.
  pose proof (merge_tree_size _ _ _ _ _ Hm) as Hsz.
  destruct Ho1 as (_ & Hst1 & Hnd1). destruct Ho2 as (_ & Hst2 & Hnd2).
  assert (Hndm : NoDup (locs m)).
  { rewrite Hperm. by apply NoDup_app. }
  exists (<[c2 := Leaf]> (<[c1 := m]> own)). simpl. split_and!.
  - intros c0. destruct (decide (c2 = c0)) as [<-|Hne2].
    { rewrite !lookup_insert_eq. eauto. }
    rewrite !(lookup_insert_ne _ c2) by done.
    destruct (decide (c1 = c0)) as [<-|Hne1].
    { rewrite !lookup_insert_eq. eauto. }
    rewrite !lookup_insert_ne by done. apply Hdom.
  - intros c0 t. destruct (decide (c2 = c0)) as [<-|Hne2].
    { rewrite lookup_insert_eq. intros [= <-]. split; [|done].
      split_and!; simpl; [apply lookup_insert_eq|done|constructor]. }
    rewrite (lookup_insert_ne _ c2) by done.
    destruct (decide (c1 = c0)) as [<-|Hne1].
    { rewrite lookup_insert_eq. intros [= <-]. split.
      - split_and!; simpl; [|by apply stored_write|done].
        rewrite lookup_insert_ne, lookup_insert_eq by done.
        do 3 f_equal. lia.
      - eapply merge_tree_leftist; [| |exact Hm]; done. }
    rewrite lookup_insert_ne by done. intros Hc0.
    destruct (Hown _ _ Hc0) as [Ho Hl]. split; [|done].
    eapply owns_frame; [exact Ho| |]; simpl.
    + by rewrite !lookup_insert_ne.
    + intros l Hl'. apply lookup_write_notin. rewrite Hperm.
      intros [Hin|Hin]%elem_of_app.
      * by apply (Hdisj c0 c1 t t1 l).
      * by apply (Hdisj c0 c2 t t2 l).
  - intros ca cb ta tb l Hab.
    destruct (decide (c2 = ca)) as [<-|Ha2].
    { rewrite lookup_insert_eq. intros [= <-] _ Hl. by apply elem_of_nil in Hl. }
    rewrite (lookup_insert_ne _ c2 ca) by done.
    destruct (decide (c2 = cb)) as [<-|Hb2].
    { rewrite lookup_insert_eq. intros _ [= <-] _. apply not_elem_of_nil. }
    rewrite (lookup_insert_ne _ c2 cb) by done.
    destruct (decide (c1 = ca)) as [<-|Ha1].
    { rewrite lookup_insert_eq, lookup_insert_ne by done.
      intros [= <-] Hb. rewrite Hperm. intros [Hin|Hin]%elem_of_app.
      - by apply (Hdisj c1 cb t1 tb l).
      - by apply (Hdisj c2 cb t2 tb l). }
    rewrite (lookup_insert_ne _ c1 ca) by done.
    destruct (decide (c1 = cb)) as [<-|Hb1].
    { rewrite lookup_insert_eq. intros Ha [= <-] Hl. rewrite Hperm.
      intros [Hin|Hin]%elem_of_app.
      - by apply (Hdisj ca c1 ta t1 l).
      - by apply (Hdisj ca c2 ta t2 l). }
    rewrite lookup_insert_ne by done. by apply Hdisj.
Qed.

Lemma inv_destroy w w' c :
  world_inv w → destroy c w = Done w' tt → world_inv w'.
Proof.
  intros Hinv. destruct (objs w !! c) as [q|] eqn:Hc.
  2:{ unfold destroy. by rewrite (bind_Undefined _ _ _ (get_root_none _ _ Hc)). }
  destruct (world_inv_lookup _ _ _ Hinv Hc)
    as (own & t & Hdom & Hown & Hdisj & Ht & Ho & Hlf).
  rewrite (destroy_spec _ _ _ Ho). intros [= <-].
  exists (delete c own). simpl. split_and!.
  - intros c0. destruct (decide (c = c0)) as [<-|Hne].
    + rewrite lookup_delete_eq. by intros [? ?].
    + rewrite !lookup_delete_ne by done. apply Hdom.
  - intros c0 t0. destruct (decide (c = c0)) as [<-|Hne].
    + by rewrite lookup_delete_eq.
    + rewrite lookup_delete_ne by done. intros Hc0.
      destruct (Hown _ _ Hc0) as [Ho0 Hl0]. split; [|done].
      eapply owns_frame; [exact Ho0| |]; simpl.
      * by rewrite lookup_delete_ne.
      * intros l Hl. apply lookup_erase_notin. by apply (Hdisj c0 c t0 t l).
  - intros c1 c2 t1 t2 l Hne H1 H2.
    apply lookup_delete_Some in H1 as [_ H1].
    apply lookup_delete_Some in H2 as [_ H2]. by apply (Hdisj c1 c2).
Qed.

Lemma copied_update w w1 w2 (own : gmap cid (tree T)) c t2 p :
  (∀ c0, is_Some (objs w !! c0) → is_Some (own !! c0)) →
  (∀ c0 t, own !! c0 = Some t → owns w c0 t ∧ leftist t) →
  (∀ c1 c2 t1 t2 l, c1 ≠ c2 → own !! c1 = Some t1 → own !! c2 = Some t2 →
     l ∈ locs t1 → l ∉ locs t2) →
  leftist t2 →
  copied t2 w1 w2 p →
  (∀ c0 t l, c0 ≠ c → own !! c0 = Some t → l ∈ locs t →
     heap w1 !! l = heap w !! l) →
  world_inv (set_objs w2 (<[c := mkPq p (wrap (Z.of_nat (tsize t2)))]> (objs w))).
Proof.
  intros Hdom Hown Hdisj Hlf2 Hcopy Hkeep.
  destruct Hcopy as (t' & -> & Hsh & Hnd & Hfresh & Hst & Hout & Hobj & Htr).
  eapply (world_inv_update w _ own c t'); try done.
  - simpl. by rewrite (same_shape_size _ _ Hsh).
  - by eapply same_shape_leftist.
  - intros c0 t l Hne Ht Hl.
    destruct (Hown _ _ Ht) as [(_ & Hst0 & _) _].
    assert (Hnot : l ∉ locs t').
    { intros Hin. apply Hfresh in Hin. rewrite (Hkeep c0 t l) in Hin by done.
      destruct (stored_live _ _ _ Hst0 Hl). congruence. }
    split; [|done]. simpl. rewrite Hout by done. by apply (Hkeep c0 t).
Qed.

Lemma inv_copy_construct w w' c c' :
  world_inv w → copy_construct alloc c c' w = Done w' tt → world_inv w'.
Proof.
  intros Hinv. destruct (objs w !! c) as [q|] eqn:Hc.
  { unfold copy_construct, construct, bind. by rewrite Hc. }
  destruct (decide (c = c')) as [<-|Hne].
  { unfold copy_construct, construct, bind at 1. rewrite Hc.
    set (w1 := set_objs w _).
    assert (Hc1 : objs w1 !! c = Some (mkPq None 0))
      by (subst w1; simpl; apply lookup_insert_eq).
    unfold try_catch.
    step (get_root_run _ _ _ Hc1). simpl root.
    step (copyTree_null w1).
    step (set_root_id _ _ _ _ Hc1).
    step (get_size_run _ _ _ Hc1).
    cbn [queue_size]. rewrite (set_size_id _ _ _ _ Hc1). intros [= <-].
    destruct Hinv as (own & Hdom & Hown & Hdisj).
    eapply (world_inv_update w _ own c Leaf); try done.
    - constructor.
    - intros c2 t2 l _ _ _. split; [done|]. apply not_elem_of_nil. }
  destruct (objs w !! c') as [q'|] eqn:Hc'.
  2:{ unfold copy_construct, construct, bind at 1. rewrite Hc.
      unfold try_catch. erewrite bind_Undefined; [done|].
      apply get_root_none. simpl. by rewrite lookup_insert_ne. }
  destruct (world_inv_lookup _ _ _ Hinv Hc')
    as (own & t2 & Hdom & Hown & Hdisj & Ht2 & Ho2 & Hlf2).
  pose proof (copy_construct_spec _ _ _ _ Hc Ho2) as Hspec.
  destruct (copy_construct alloc c c' w) as [w2' []| | |]; try done.
  intros [= <-]. destruct Hspec as (w2 & p & Hcopy & ->).
  eapply copied_update; try done.
Qed.

Lemma inv_assign w w' c c' :
  world_inv w → assign alloc c c' w = Done w' tt → world_inv w'.
Proof.
  intros Hinv. destruct (decide (c = c')) as [<-|Hne].
  { unfold assign. rewrite decide_True by done. by intros [= <-]. }
  destruct (objs w !! c) as [q|] eqn:Hc.
  2:{ unfold assign. rewrite decide_False by done.
      by rewrite (bind_Undefined _ _ _ (get_root_none _ _ Hc)). }
  destruct (world_inv_lookup _ _ _ Hinv Hc)
    as (own & t & Hdom & Hown & Hdisj & Ht & Ho & Hlf).
  destruct (objs w !! c') as [q'|] eqn:Hc'.
  2:{ unfold assign. rewrite decide_False by done.
      pose proof Ho as (Hoc & Hst & Hnd).
      step (get_root_run _ _ _ Hoc). simpl root.
      step (deleteTree_spec _ _ Hst Hnd).
      by erewrite bind_Undefined by (by apply get_root_none). }
  destruct (Hdom c') as [t2 Ht2]; [eauto|].
  destruct (Hown _ _ Ht2) as [Ho2 Hlf2].
  assert (Hd : ∀ l, l ∈ locs t → l ∉ locs t2)
    by (intros l; by apply (Hdisj c c')).
  pose proof (assign_spec _ _ _ _ _ Hne Ho Ho2 Hd) as Hspec.
  destruct (assign alloc c c' w) as [w2' []| | |]; try done.
  intros [= <-]. destruct Hspec as (w2 & p & Hcopy & ->).
  eapply copied_update; try done.
  intros c0 t0 l Hne0 Ht0 Hl. simpl. apply lookup_erase_notin.
  by apply (Hdisj c0 c t0 t l).
Qed.

Lemma top_pure w w' c (v : T) : world_inv w → top c w = Done w' v → w' = w.
Proof.
  intros Hinv. destruct (objs w !! c) as [q|] eqn:Hc.
  2:{ unfold top, empty.
      by rewrite (bind_Undefined _ _ _ (bind_Undefined _ _ _ (get_size_none _ _ Hc))). }
  destruct (world_inv_lookup _ _ _ Hinv Hc) as (own & t & _ & _ & _ & _ & Ho & _).
  rewrite (top_spec _ _ _ Ho). destruct (wrap _ =? 0); [done|].
  destruct t; [done|]. by intros [= <- _].
Qed.

Lemma size_pure w w' c n : size c w = Done w' n → w' = w.
Proof.
  unfold size, get_size, get_obj, bind, ret.
  destruct (objs w !! c); [|done]. by intros [= <- _].
Qed.

Lemma empty_pure w w' c b : empty c w = Done w' b → w' = w.
Proof.
  unfold empty, get_size, get_obj, bind, ret.
  destruct (objs w !! c); [|done]. by intros [= <- _].
Qed.

(** The tree a container owns after each successful mutation. *)

Lemma owns_after_push w c t e l tr' t' :
  owns w c t →
  alloc (trace w) (heap w) e = Returns l →
  merge_tree cmp t (trace w ++ [New l]) (Nd l e 0 Leaf Leaf) = (tr', Returns t') →
  owns (mkWorld (write_tree t' (<[l := mkNode e None None 0]> (heap w)))
                (<[c := mkPq (root_of t') (wrap (Z.of_nat (tsize t) + 1))]> (objs w))
                tr') c t'.
Proof.
  intros (_ & Hst & Hnd) Hal Hm.
  pose proof (alloc_fresh _ _ _ _ Hal) as Hl.
  pose proof (merge_tree_locs _ _ _ _ _ Hm) as Hperm. simpl in Hperm.
  pose proof (merge_tree_size _ _ _ _ _ Hm) as Hsz. simpl in Hsz.
  assert (Hl_t : l ∉ locs t).
  { intros Hin. destruct (stored_live _ _ _ Hst Hin). congruence. }
  assert (Hnd' : NoDup (locs t')).
  { rewrite Hperm. apply NoDup_app. split_and!; [done| |apply NoDup_singleton].
    intros x Hx ->%list_elem_of_singleton. done. }
  split_and!; simpl; [|by apply stored_write|done].
  rewrite lookup_insert_eq. do 3 f_equal. lia.
Qed.

Lemma owns_after_pop w c l v d tl rt tr' m :
  owns w c (Nd l v d tl rt) →
  merge_tree cmp tl (trace w) rt = (tr', Returns m) →
  owns (mkWorld (delete l (write_tree m (heap w)))
                (<[c := mkPq (root_of m)
                             (wrap (Z.of_nat (tsize (Nd l v d tl rt)) - 1))]> (objs w))
                (tr' ++ [Delete l])) c m.
Proof.
  intros (_ & Hst & Hnd) Hm.
  pose proof (merge_tree_locs _ _ _ _ _ Hm) as Hperm.
  pose proof (merge_tree_size _ _ _ _ _ Hm) as Hsz.
  simpl in Hnd. apply NoDup_cons in Hnd as [Hl_notin Hnd].
  assert (Hl_m : l ∉ locs m) by (by rewrite Hperm).
  split_and!; simpl.
  - rewrite lookup_insert_eq. do 3 f_equal. lia.
  - eapply stored_frame; [apply (stored_write (heap w)); by rewrite Hperm|].
    intros x Hx. apply lookup_delete_ne. congruence.
  - by rewrite Hperm.
Qed.

Lemma owns_after_merge w c1 c2 t1 t2 tr' m :
  c1 ≠ c2 →
  owns w c1 t1 → owns w c2 t2 →
  (∀ l, l ∈ locs t1 → l ∉ locs t2) →
  merge_tree cmp t1 (trace w) t2 = (tr', Returns m) →
  let w' := mkWorld (write_tree m (heap w))
                    (<[c2 := mkPq None 0]>
                       (<[c1 := mkPq (root_of m)
                                     (wrap (Z.of_nat (tsize t1) + Z.of_nat (tsize t2)))]>
                          (objs w)))
                    tr' in
  owns w' c1 m ∧ owns w' c2 Leaf.
Proof.
  intros Hne (_ & Hst1 & Hnd1) (_ & Hst2 & Hnd2) Hdisj Hm.
  pose proof (merge_tree_locs _ _ _ _ _ Hm) as Hperm.
  pose proof (merge_tree_size _ _ _ _ _ Hm) as Hsz.
  assert (Hndm : NoDup (locs m)).
  { rewrite Hperm. by apply NoDup_app. }
  split; split_and!; simpl; try done.
  - rewrite lookup_insert_ne, lookup_insert_eq by done. do 3 f_equal. lia.
  - by apply stored_write.
  - apply lookup_insert_eq.
  - constructor.
Qed.

Lemma owns_constructed w c : objs w !! c = None → owns (constructed w c) c Leaf.
Proof.
  intros _. split_and!; simpl; [apply lookup_insert_eq|done|constructor].
Qed.

(** ** What a merge leaves in the trace *)

Lemma merge_tree_trace a tr b :
  ∃ cmps, (merge_tree cmp a tr b).1 = tr ++ cmps
          ∧ Forall (λ ev, is_cmp ev = true) cmps.
Proof.
  pattern a, tr, b, (merge_tree cmp a tr b).
  apply merge_tree_ind; clear a tr b.
  - intros tr b. exists []. by rewrite app_nil_r.
  - intros tr l v d tl rt. exists []. by rewrite app_nil_r.
  - intros tr la va da al ar lb vb db bl br c Hc.
    exists [Cmp va vb]. split; [done|]. by repeat constructor.
  - intros tr la va da al ar lb vb db bl br Hc b r (cmps & Hr & Hall).
    exists (Cmp va vb :: cmps). split.
    + destruct r as [tr2 [m|c]]; simpl in *; by rewrite Hr, <- app_assoc.
    + by constructor.
  - intros tr la va da al ar lb vb db bl br Hc a r (cmps & Hr & Hall).
    exists (Cmp va vb :: cmps). split.
    + destruct r as [tr2 [m|c]]; simpl in *; by rewrite Hr, <- app_assoc.
    + by constructor.
Qed.

Lemma merge_tree_leaf_l tr b : merge_tree cmp Leaf tr b = (tr, Returns b).
Proof. by rewrite merge_tree_eq. Qed.

(** * Properties of the container *)

(** C4.  If [push(e)] fails on a container that owns a tree, the heap and
    every object are exactly as before the call: root and size of the
    container are unchanged, and when a singleton node had been allocated
    (so the failure came from the comparator during the merge) that node
    was freed as the last step and is no longer live. *)
Theorem C4_push_strong_guarantee w c t e w' ex :
  owns w c t →
  push cmp alloc c e w = Raised w' ex →
  heap w' = heap w
  ∧ objs w' = objs w
  ∧ match alloc (trace w) (heap w) e with
    | Returns l =>
        heap w' !! l = None
        ∧ ∃ cmps, trace w' = trace w ++ [New l] ++ cmps ++ [Delete l]
                  ∧ Forall (λ ev, is_cmp ev = true) cmps
    | Throws k => ex = foreign k ∧ trace w' = trace w ++ [NewFailed]
    end.
Proof.
  intros Ho. rewrite (push_spec _ _ _ _ Ho).
  destruct (alloc (trace w) (heap w) e) as [l|k] eqn:Hal.
  - pose proof (alloc_fresh _ _ _ _ Hal) as Hl.
    destruct (merge_tree_trace t (trace w ++ [New l]) (Nd l e 0 Leaf Leaf))
      as (cmps & Htr & Hall).
    destruct (merge_tree cmp t (trace w ++ [New l]) (Nd l e 0 Leaf Leaf))
      as [tr' [t'|k]]; [done|].
    intros [= <- <-]. simpl in *. split_and!; try done.
    exists cmps. split; [|done]. by rewrite Htr, <- !app_assoc.
  - by intros [= <- <-].
Qed.

(** C5.  [top] and [pop] raise [container_is_empty] exactly when the size
    counter is 0, and then the world is untouched; whenever [pop] fails,
    heap and objects (root and the undecremented size included) are exactly
    as before the call. *)
Theorem C5_empty_errors w c t :
  owns w c t →
  ((∃ w', top c w = Raised w' container_is_empty) ↔ size c w = Done w 0)
  ∧ ((∃ w', pop cmp c w = Raised w' container_is_empty) ↔ size c w = Done w 0)
  ∧ (∀ w' ex, top c w = Raised w' ex → ex = container_is_empty ∧ w' = w)
  ∧ (∀ w', pop cmp c w = Raised w' container_is_empty → w' = w)
  ∧ (∀ w' ex, pop cmp c w = Raised w' ex → heap w' = heap w ∧ objs w' = objs w).
Proof.
  intros Ho. pose proof Ho as (Hc & _).
  rewrite (top_spec _ _ _ Ho), (pop_spec _ _ _ Ho).
  unfold size. rewrite (get_size_run _ _ _ Hc). simpl queue_size.
  destruct (wrap (Z.of_nat (tsize t)) =? 0) eqn:Hz.
  - apply Z.eqb_eq in Hz. rewrite Hz. split_and!.
    + split; [done | by exists w].
    + split; [done | by exists w].
    + by intros w' ex [= <- <-].
    + by intros w' [= <-].
    + by intros w' ex [= <- <-].
  - apply Z.eqb_neq in Hz.
    assert (Hne : Done w (wrap (Z.of_nat (tsize t))) ≠ Done w 0) by congruence.
    destruct t as [|l v d tl rt]; [done|].
    destruct (merge_tree cmp tl (trace w) rt) as [tr' [m|k]]; split_and!;
      try (split; [by intros [? ?] | done]); try done.
    by intros w' ex [= <- <-].
Qed.

(** C6.  For two distinct containers owning disjoint trees, [merge] either
    succeeds, and then the receiver's root is what [mergeNodes] returned for
    the two roots, its size is the wrapped sum of the sizes, the receiver
    owns a tree holding the elements of both, and the donor is empty (null
    root, size 0); or the comparator threw, and then heap and objects (both
    roots, both sizes) are as before and that exception is propagated. *)
Theorem C6_merge_containers w c1 c2 t1 t2 :
  c1 ≠ c2 →
  owns w c1 t1 → owns w c2 t2 →
  (∀ l, l ∈ locs t1 → l ∉ locs t2) →
  match merge cmp c1 c2 w with
  | Done w' _ =>
      ∃ w1 r m,
        mergeNodes cmp (root_of t1) (root_of t2) w = Done w1 r
        ∧ heap w' = heap w1
        ∧ objs w' !! c1
          = Some (mkPq r (wrap (wrap (Z.of_nat (tsize t1)) + wrap (Z.of_nat (tsize t2)))))
        ∧ objs w' !! c2 = Some (mkPq None 0)
        ∧ owns w' c1 m ∧ owns w' c2 Leaf
        ∧ elems m ≡ₚ elems t1 ++ elems t2
  | Raised w' ex =>
      mergeNodes cmp (root_of t1) (root_of t2) w = Raised w' ex
      ∧ heap w' = heap w ∧ objs w' = objs w
  | _ => False
  end.
Proof.
  intros Hne Ho1 Ho2 Hdisj.
  rewrite (merge_spec _ _ _ _ _ Hne Ho1 Ho2 Hdisj).
  pose proof (λ tr' m, owns_after_merge w c1 c2 t1 t2 tr' m Hne Ho1 Ho2 Hdisj)
    as Hafter.
  destruct Ho1 as (_ & Hst1 & Hnd1), Ho2 as (_ & Hst2 & Hnd2).
  rewrite mergeNodes_spec by (try done; by apply NoDup_app).
  pose proof (merge_tree_elems t1 (trace w) t2) as Hel.
  destruct (merge_tree cmp t1 (trace w) t2) as [tr' [m|k]]; simpl; [|done].
  destruct (Hafter _ _ eq_refl) as [Hom Hol].
  eexists _, _, m. split_and!; try done.
  - rewrite lookup_insert_ne, lookup_insert_eq by done. by rewrite wrap_add.
  - apply lookup_insert_eq.
  - exact (Hel _ _ eq_refl).
Qed.

(** C7.  Every public operation that returns normally keeps the world
    invariant: afterwards every container still owns a tree in which each
    node N has [dist(N.left) >= dist(N.right)] (with -1 for an empty child),
    [N.dist = dist(N.right) + 1], and [N.dist = 0] iff N has no right
    child. *)
Theorem C7_leftist_after_every_operation w w' (o : op T) :
  world_inv w →
  exec cmp alloc o w = Done w' tt →
  world_inv w'
  ∧ ∀ c q, objs w' !! c = Some q →
      ∃ t, owns w' c t ∧ root q = root_of t ∧ leftist t.
Proof.
  intros Hinv Hexec.
  assert (Hinv' : world_inv w').
  { destruct o as [c|c c'|c|c c'|c|c e|c|c|c|c c']; simpl in Hexec.
    - by eapply inv_construct.
    - by eapply inv_copy_construct.
    - by eapply inv_destroy.
    - by eapply inv_assign.
    - unfold bind in Hexec. destruct (top c w) as [w1 v| | |] eqn:Ht; try done.
      injection Hexec as <-. by rewrite (top_pure _ _ _ _ Hinv Ht).
    - by eapply inv_push.
    - by eapply inv_pop.
    - unfold bind in Hexec. destruct (size c w) as [w1 v| | |] eqn:Ht; try done.
      injection Hexec as <-. by rewrite (size_pure _ _ _ _ Ht).
    - unfold bind in Hexec. destruct (empty c w) as [w1 v| | |] eqn:Ht; try done.
      injection Hexec as <-. by rewrite (empty_pure _ _ _ _ Ht).
    - by eapply inv_merge. }
  split; [done|]. intros c q Hc.
  destruct (world_inv_lookup _ _ _ Hinv' Hc) as (own & t & _ & _ & _ & _ & Ho & Hlf).
  exists t. split_and!; try done.
  destruct Ho as (Hc' & _). rewrite Hc in Hc'. by injection Hc' as ->.
Qed.

(** C8.  One frame of [mergeNodes] on two non-empty subtrees [a] and [b]:
    the comparator is consulted once, as [cmp(a.data, b.data)], before
    anything else.  If it throws, nothing but the trace changes.  If it
    returns false, [a] is the root of the result and the recursive call
    merges [b] into [a]'s right subtree; otherwise [b] is the root and the
    recursive call merges [a] into [b]'s right subtree.  The frame adds no
    comparator call of its own beyond the first: its trace is the trace of
    the recursive call. *)
Theorem C8_merge_frame fuel w la va da al ar lb vb db bl br :
  let a := Nd la va da al ar in
  let b := Nd lb vb db bl br in
  stored (heap w) a → stored (heap w) b →
  NoDup (locs a ++ locs b) →
  (tsize a + tsize b ≤ fuel)%nat →
  let w1 := log w (Cmp va vb) in
  match cmp (trace w) va vb with
  | Throws k =>
      mergeNodes_fuel cmp (S fuel) (Some la) (Some lb) w = Raised w1 (foreign k)
  | Returns false =>
      match mergeNodes_fuel cmp fuel (root_of ar) (Some lb) w1 with
      | Done w2 r =>
          ∃ m, r = root_of m ∧ stored (heap w2) m
            ∧ (∃ rest, trace w2 = trace w ++ Cmp va vb :: rest)
            ∧ mergeNodes_fuel cmp (S fuel) (Some la) (Some lb) w
              = Done (mkWorld (write_tree (join la va al m) (heap w)) (objs w)
                              (trace w2))
                     (Some la)
      | Raised w2 ex =>
          mergeNodes_fuel cmp (S fuel) (Some la) (Some lb) w = Raised w2 ex
          ∧ heap w2 = heap w
          ∧ (∃ rest, trace w2 = trace w ++ Cmp va vb :: rest)
      | _ => False
      end
  | Returns true =>
      match mergeNodes_fuel cmp fuel (Some la) (root_of br) w1 with
      | Done w2 r =>
          ∃ m, r = root_of m ∧ stored (heap w2) m
            ∧ (∃ rest, trace w2 = trace w ++ Cmp va vb :: rest)
            ∧ mergeNodes_fuel cmp (S fuel) (Some la) (Some lb) w
              = Done (mkWorld (write_tree (join lb vb bl m) (heap w)) (objs w)
                              (trace w2))
                     (Some lb)
      | Raised w2 ex =>
          mergeNodes_fuel cmp (S fuel) (Some la) (Some lb) w = Raised w2 ex
          ∧ heap w2 = heap w
          ∧ (∃ rest, trace w2 = trace w ++ Cmp va vb :: rest)
      | _ => False
      end
  end.
Proof.
  intros a b Ha Hb Hnd Hfuel w1.
  change (Some la) with (root_of a). change (Some lb) with (root_of b).
  rewrite (mergeNodes_fuel_spec a (trace w) b (S fuel) w) by (try done; lia).
  rewrite merge_tree_eq. subst a b. cbv iota.
  destruct (cmp (trace w) va vb) as [[|]|k] eqn:Hc; [| |done].
  - pose proof Hb as (_ & _ & Hbr).
    assert (Hnd' : NoDup (locs (Nd la va da al ar) ++ locs br)).
    { change (locs (Nd lb vb db bl br)) with (lb :: locs bl ++ locs br) in Hnd.
      rewrite <- perm_swap_middle in Hnd.
      apply NoDup_cons in Hnd as [_ Hnd].
      by apply NoDup_app in Hnd as (_ & _ & ?). }
    rewrite (mergeNodes_fuel_spec (Nd la va da al ar) (trace w1) br fuel w1)
      by (try done; simpl in *; lia).
    change (trace w1) with (trace w ++ [Cmp va vb]).
    pose proof (merge_tree_locs (Nd la va da al ar) (trace w ++ [Cmp va vb]) br)
      as Hperm.
    destruct (merge_tree_trace (Nd la va da al ar) (trace w ++ [Cmp va vb]) br)
      as (rest & Htr & _).
    destruct (merge_tree cmp (Nd la va da al ar) (trace w ++ [Cmp va vb]) br)
      as [tr2 [m|k]]; simpl in *; subst tr2; rewrite <- app_assoc;
      [|split_and!; eauto].
    exists m. split_and!; [done| |by eauto|by rewrite join_root].
    apply stored_write. by rewrite (Hperm _ _ eq_refl).
  - pose proof Ha as (_ & _ & Har).
    assert (Hnd' : NoDup (locs ar ++ locs (Nd lb vb db bl br))).
    { simpl in Hnd. apply NoDup_cons in Hnd as [_ Hnd].
      rewrite <- app_assoc in Hnd. by apply NoDup_app in Hnd as (_ & _ & ?). }
    change (Some lb) with (root_of (Nd lb vb db bl br)).
    rewrite (mergeNodes_fuel_spec ar (trace w1) (Nd lb vb db bl br) fuel w1)
      by (try done; simpl in *; lia).
    change (trace w1) with (trace w ++ [Cmp va vb]).
    pose proof (merge_tree_locs ar (trace w ++ [Cmp va vb]) (Nd lb vb db bl br))
      as Hperm.
    destruct (merge_tree_trace ar (trace w ++ [Cmp va vb]) (Nd lb vb db bl br))
      as (rest & Htr & _).
    destruct (merge_tree cmp ar (trace w ++ [Cmp va vb]) (Nd lb vb db bl br))
      as [tr2 [m|k]]; simpl in *; subst tr2; rewrite <- app_assoc;
      [|split_and!; eauto].
    exists m. split_and!; [done| |by eauto|by rewrite join_root].
    apply stored_write. by rewrite (Hperm _ _ eq_refl).
Qed.

(** C10.  [mergeNodes] with a null operand returns the other operand and
    leaves the world, trace included, as it was: the comparator is not
    called.  Hence [push] on an empty container adds no comparator call to
    the trace and can only fail because [new] failed, and [pop] on a
    one-element container always succeeds, again without a comparator
    call. *)
Theorem C10_no_comparison_on_empty_operand :
  (∀ fuel p w,
      mergeNodes_fuel cmp fuel None p w = Done w p
      ∧ mergeNodes_fuel cmp fuel p None w = Done w p
      ∧ mergeNodes cmp None p w = Done w p
      ∧ mergeNodes cmp p None w = Done w p)
  ∧ (∀ w c e,
        owns w c Leaf →
        match push cmp alloc c e w with
        | Done w' _ => filter is_cmp (trace w') = filter is_cmp (trace w)
        | Raised w' ex =>
            (∃ k, alloc (trace w) (heap w) e = Throws k ∧ ex = foreign k)
            ∧ filter is_cmp (trace w') = filter is_cmp (trace w)
        | _ => False
        end)
  ∧ (∀ w c l v d,
        owns w c (Nd l v d Leaf Leaf) →
        ∃ w', pop cmp c w = Done w' tt
              ∧ filter is_cmp (trace w') = filter is_cmp (trace w)
              ∧ owns w' c Leaf).
Proof.
  split_and!.
  - intros fuel p w. unfold mergeNodes.
    split_and!; try (by destruct p); by destruct fuel, p.
  - intros w c e Ho. rewrite (push_spec _ _ _ _ Ho).
    destruct (alloc (trace w) (heap w) e) as [l|k] eqn:Hal.
    + rewrite merge_tree_leaf_l. simpl.
      rewrite filter_app. simpl. by rewrite app_nil_r.
    + simpl. split; [by exists k|].
      rewrite filter_app. simpl. by rewrite app_nil_r.
  - intros w c l v d Ho. rewrite (pop_spec _ _ _ Ho).
    pose proof (owns_after_pop w c l v d Leaf Leaf (trace w) Leaf Ho) as Hafter.
    rewrite merge_tree_leaf_l in Hafter. specialize (Hafter eq_refl).
    rewrite merge_tree_leaf_l. simpl tsize.
    change (wrap (Z.of_nat 1) =? 0) with false. cbv iota.
    eexists. split_and!; [done| |exact Hafter].
    simpl. rewrite filter_app. simpl. by rewrite app_nil_r.
Qed.

(** C2, as amended.  A non-self assignment frees the destination's old tree
    first and copies the source afterwards: in every outcome the trace
    continues with the [delete]s of all old cells before anything else.  If
    the copy succeeds, the destination owns a fresh tree with the shape,
    elements and [dist] fields of the source's, sharing no cell with it,
    its size is the source's, and the source still owns its tree. *)
Theorem C2_assign_releases_then_copies w c c' t t2 :
  c ≠ c' →
  owns w c t → owns w c' t2 →
  (∀ l, l ∈ locs t → l ∉ locs t2) →
  match assign alloc c c' w with
  | Done w' _ =>
      ∃ t', owns w' c t' ∧ same_shape t2 t'
        ∧ owns w' c' t2
        ∧ (∀ l, l ∈ locs t' → l ∉ locs t2)
        ∧ trace w' = trace w ++ map Delete (postorder t) ++ map New (locs t')
  | Raised w' ex =>
      ∃ ls, trace w'
            = trace w ++ map Delete (postorder t) ++ map New ls ++ [NewFailed]
  | _ => False
  end.
Proof.
  intros Hne Ho Ho2 Hdisj.
  pose proof (assign_spec _ _ _ _ _ Hne Ho Ho2 Hdisj) as Hspec.
  destruct (assign alloc c c' w) as [w' []|w' ex| |]; try done.
  - destruct Hspec as (w2 & p & Hcopy & ->).
    destruct Hcopy as (t' & -> & Hsh & Hnd & Hfresh & Hst & Hout & Hobj & Htr).
    destruct Ho2 as (Hc2 & Hst2 & Hnd2).
    assert (Hlive : ∀ l, l ∈ locs t2 → is_Some (heap (released w t) !! l)).
    { intros l Hl. simpl. rewrite lookup_erase_notin.
      - by eapply stored_live.
      - intros Hin. by apply (Hdisj l). }
    assert (Hd' : ∀ l, l ∈ locs t' → l ∉ locs t2).
    { intros l Hl Hl2. apply Hfresh in Hl. destruct (Hlive _ Hl2). congruence. }
    exists t'. split_and!; try done.
    + split_and!; simpl; [|done|done].
      rewrite lookup_insert_eq. by rewrite (same_shape_size _ _ Hsh).
    + split_and!; simpl; [by rewrite lookup_insert_ne| |done].
      eapply stored_frame; [exact Hst2|]. intros l Hl.
      rewrite Hout by (intros Hin; by apply (Hd' l)).
      simpl. apply lookup_erase_notin. intros Hin. by apply (Hdisj l).
    + simpl. rewrite Htr. simpl. by rewrite <- app_assoc.
  - destruct Hspec as (ls & k & _ & Htr & _). exists ls.
    rewrite Htr. simpl. by rewrite <- app_assoc.
Qed.

(** C3, as amended.  When [new] fails partway through [copyTree], the
    failure is surfaced with every cell the call had allocated still live:
    none of them is freed (the trace of the call holds no [delete]), and the
    source tree and all other cells are unchanged. *)
Theorem C3_failed_copy_keeps_partial_nodes w t w' ex :
  stored (heap w) t → NoDup (locs t) →
  copyTree alloc (root_of t) w = Raised w' ex →
  ∃ ls,
    trace w' = trace w ++ map New ls ++ [NewFailed]
    ∧ (∀ l, l ∈ ls → heap w !! l = None ∧ is_Some (heap w' !! l))
    ∧ (∀ l, l ∉ ls → heap w' !! l = heap w !! l)
    ∧ stored (heap w') t
    ∧ base.size (heap w') = (base.size (heap w) + length ls)%nat.
Proof.
  intros Hst Hnd Hrun.
  pose proof (copyTree_spec t w Hst Hnd) as Hspec. rewrite Hrun in Hspec.
  destruct Hspec as (ls & k & _ & Htr & Hndl & Hls & Hout & _).
  exists ls. split_and!; try done.
  - eapply stored_frame; [exact Hst|]. intros l Hl. apply Hout.
    intros Hin. destruct (Hls _ Hin) as [Hnone _].
    destruct (stored_live _ _ _ Hst Hl). congruence.
  - rewrite <- !size_dom.
    assert (Hdom : dom (heap w') = dom (heap w) ∪ list_to_set ls).
    { apply set_eq. intros l. rewrite elem_of_union, !elem_of_dom, elem_of_list_to_set.
      destruct (decide (l ∈ ls)) as [Hin|Hnin].
      - destruct (Hls _ Hin). tauto.
      - rewrite Hout by done. tauto. }
    rewrite Hdom, size_union, size_list_to_set by
      (try done; intros l Hl1 Hl2%elem_of_list_to_set;
       apply elem_of_dom in Hl1; destruct (Hls _ Hl2); destruct Hl1; congruence).
    done.
Qed.

End Proofs.

(** * Integer queues under [std::less<int>] *)

Lemma fresh_alloc_ok tr (h : gmap loc (Node Z)) v l :
  fresh_alloc tr h v = Returns l → h !! l = None.
Proof. intros [= <-]. apply not_elem_of_dom, is_fresh. Qed.

Lemma capped_alloc_ok cap tr (h : gmap loc (Node Z)) v l :
  capped_alloc cap tr h v = Returns l → h !! l = None.
Proof.
  unfold capped_alloc. case_decide; [|done].
  intros [= <-]. apply not_elem_of_dom, is_fresh.
Qed.

Lemma wrap_small n : 0 ≤ n < size_max → wrap n = n.
Proof. apply Z.mod_small. Qed.

Lemma merge_less_returns a tr b :
  ∃ tr' t, merge_tree less a tr b = (tr', Returns t).
Proof.
  pattern a, tr, b, (merge_tree less a tr b).
  apply merge_tree_ind; clear a tr b; try (intros; by eauto).
  - intros tr la va da al ar lb vb db bl br Hc b r (tr' & t & Hr).
    rewrite Hr. simpl. eauto.
  - intros tr la va da al ar lb vb db bl br Hc a r (tr' & t & Hr).
    rewrite Hr. simpl. eauto.
Qed.

Lemma heap_ordered_join l v tl m :
  Forall (λ x, x ≤ v) (elems tl ++ elems m) →
  heap_ordered tl → heap_ordered m → heap_ordered (join l v tl m).
Proof.
  intros Hall Hl Hm. unfold join. destruct (tdist tl <? tdist m); simpl.
  - split_and!; try done. by rewrite Permutation_app_comm.
  - by split_and!.
Qed.

Lemma heap_ordered_elems t :
  heap_ordered t →
  match t with
  | Leaf => True
  | Nd _ v _ _ _ => Forall (λ x, x ≤ v) (elems t)
  end.
Proof.
  destruct t as [|l v d tl rt]; [done|]. intros (Hall & _). simpl.
  constructor; [lia | done].
Qed.

Lemma merge_less_ordered a tr b tr' t :
  heap_ordered a → heap_ordered b →
  merge_tree less a tr b = (tr', Returns t) → heap_ordered t.
Proof.
  revert tr' t. pattern a, tr, b, (merge_tree less a tr b).
  apply merge_tree_ind; clear a tr b.
  - by intros tr b tr' t _ Hb [= _ <-].
  - by intros tr l v d tl rt tr' t Ha _ [= _ <-].
  - intros; discriminate.
  - intros tr la va da al ar lb vb db bl br Hc b r IH tr' t Ha Hb.
    pose proof (merge_tree_elems less ar (tr ++ [Cmp va vb]) b) as Hel.
    fold r in Hel.
    destruct r as [tr2 [m|c]]; unfold finish; [|discriminate].
    intros [= _ <-]. destruct Ha as (Hall & Hal & Har).
    injection Hc as Hc. apply Z.ltb_ge in Hc.
    apply heap_ordered_join; [|done|by eapply IH].
    rewrite (Hel _ _ eq_refl).
    apply Forall_app in Hall as [Hall1 Hall2].
    rewrite !Forall_app. split_and!; try done.
    eapply Forall_impl; [apply (heap_ordered_elems b Hb)|].
    simpl. intros x Hx. lia.
  - intros tr la va da al ar lb vb db bl br Hc a r IH tr' t Ha Hb.
    pose proof (merge_tree_elems less a (tr ++ [Cmp va vb]) br) as Hel.
    fold r in Hel.
    destruct r as [tr2 [m|c]]; unfold finish; [|discriminate].
    intros [= _ <-]. destruct Hb as (Hall & Hbl & Hbr).
    injection Hc as Hc. apply Z.ltb_lt in Hc.
    apply heap_ordered_join; [|done|by eapply IH].
    rewrite (Hel _ _ eq_refl).
    apply Forall_app in Hall as [Hall1 Hall2].
    rewrite !Forall_app. split_and!; try done.
    eapply Forall_impl; [apply (heap_ordered_elems a Ha)|].
    simpl. intros x Hx. lia.
Qed.

Section IntQueue.

Variable alloc : list (event Z) → gmap loc (Node Z) → Z → answer loc.
Hypothesis alloc_fresh :
  ∀ tr h v l, alloc tr h v = Returns l → h !! l = None.

Implicit Types (w : world Z) (t : tree Z) (c : cid).

(** A caller's attempt at a [push] or [pop] always comes back, and the
    container then owns an ordered tree with at most one node more. *)
Lemma attempt_push_pop w c t o :
  owns w c t → heap_ordered t → push_or_pop c o →
  ∃ w' t', attempt (exec less alloc o) w = Done w' tt
           ∧ owns w' c t' ∧ heap_ordered t'
           ∧ (tsize t' ≤ S (tsize t))%nat.
Proof.
  intros Ho Hord Hop. destruct o as [| | | | |c' e|c'| | |]; simpl in Hop; try done;
    subst c'; unfold attempt, try_catch; simpl exec.
  - rewrite (push_spec less alloc alloc_fresh _ _ _ _ Ho).
    destruct (alloc (trace w) (heap w) e) as [l|k] eqn:Hal.
    + destruct (merge_less_returns t (trace w ++ [New l]) (Nd l e 0 Leaf Leaf))
        as (tr' & t' & Hm).
      rewrite Hm. eexists _, t'. split_and!; [done| | |].
      * by eapply owns_after_push.
      * eapply merge_less_ordered; [exact Hord| |exact Hm]. simpl.
        split_and!; try done; try constructor.
      * rewrite (merge_tree_size _ _ _ _ _ _ Hm). simpl. lia.
    + exists (log w NewFailed), t. split_and!; [done| |done|lia].
      by eapply owns_frame.
  - rewrite (pop_spec less _ _ _ Ho).
    destruct (wrap (Z.of_nat (tsize t)) =? 0) eqn:Hz.
    { exists w, t. split_and!; try done. lia. }
    destruct t as [|l v d tl rt]; [by vm_compute in Hz|].
    destruct (merge_less_returns tl (trace w) rt) as (tr' & m & Hm).
    rewrite Hm. eexists _, m. split_and!; [done| | |].
    + by eapply owns_after_pop.
    + destruct Hord as (_ & Hl & Hr).
      eapply merge_less_ordered; [exact Hl|exact Hr|exact Hm].
    + rewrite (merge_tree_size _ _ _ _ _ _ Hm). simpl. lia.
Qed.

Lemma run_push_pop ops :
  ∀ w c t,
    owns w c t → heap_ordered t → Forall (push_or_pop c) ops →
    ∃ w' t', run less alloc ops w = Done w' tt
             ∧ owns w' c t' ∧ heap_ordered t'
             ∧ (tsize t' ≤ tsize t + length ops)%nat.
Proof.
  induction ops as [|o ops IH]; intros w c t Ho Hord Hops.
  - exists w, t. simpl. split_and!; try done. lia.
  - apply Forall_cons in Hops as [Hop Hops].
    destruct (attempt_push_pop w c t o Ho Hord Hop) as (w1 & t1 & Hrun & Ho1 & Hord1 & Hsz1).
    destruct (IH w1 c t1 Ho1 Hord1 Hops) as (w' & t' & Hrun' & Ho' & Hord' & Hsz').
    exists w', t'. simpl run. step Hrun.
    split_and!; try done. simpl. lia.
Qed.

(** Reading [top] and popping until the container is empty lists the
    elements in non-increasing order. *)
Lemma drain_n_sorted n :
  ∀ w c t,
    owns w c t → heap_ordered t → tsize t = n → Z.of_nat n < size_max →
    ∃ w' vs, drain_n less n c w = Done w' vs
             ∧ vs ≡ₚ elems t
             ∧ StronglySorted Z.ge vs
             ∧ owns w' c Leaf.
Proof.
  induction n as [|n IH]; intros w c t Ho Hord Hsz Hbound.
  - destruct t; [|done]. exists w, []. simpl. split_and!; try done. constructor.
  - destruct t as [|l v d tl rt]; [done|].
    assert (Hw : (wrap (Z.of_nat (tsize (Nd l v d tl rt))) =? 0) = false).
    { rewrite Hsz, wrap_small by lia. apply Z.eqb_neq. lia. }
    cbn [drain_n].
    step (empty_spec _ _ _ Ho). rewrite Hw.
    rewrite (bind_Done _ _ _ w v) by (by rewrite (top_spec _ _ _ Ho), Hw).
    destruct (merge_less_returns tl (trace w) rt) as (tr' & m & Hm).
    pose proof (owns_after_pop less w c l v d tl rt tr' m Ho Hm) as Ho'.
    erewrite bind_Done by (by rewrite (pop_spec less _ _ _ Ho), Hw, Hm).
    destruct Hord as (Hall & Hordl & Hordr).
    pose proof (merge_tree_size _ _ _ _ _ _ Hm) as Hszm.
    pose proof (merge_tree_elems _ _ _ _ _ _ Hm) as Helm.
    destruct (IH _ c m Ho' (merge_less_ordered _ _ _ _ _ Hordl Hordr Hm)
                ltac:(simpl in Hsz; lia) ltac:(lia))
      as (w' & vs & Hrun & Hperm & Hsorted & Hleaf).
    exists w', (v :: vs). step Hrun.
    split_and!; try done.
    + simpl. by rewrite Hperm, Helm.
    + constructor; [done|]. rewrite Hperm, Helm.
      eapply Forall_impl; [exact Hall|]. simpl. intros x Hx. lia.
Qed.

(** C1.  After any sequence of [push] and [pop] calls on an integer
    container (failed calls caught by the caller), reading [top] and popping
    until the container is empty yields a non-increasing sequence, after
    which [empty()] is true; pushing 5, 3, 8, 1, 9, 2 and draining yields
    9, 8, 5, 3, 2, 1. *)
Theorem C1_successive_tops_non_increasing w c (ops : list (op Z)) :
  objs w !! c = None →
  Forall (push_or_pop c) ops →
  Z.of_nat (length ops) < size_max →
  (∃ w' vs,
      (construct c ;~ run less alloc ops ;~ drain less c) w = Done w' vs
      ∧ StronglySorted Z.ge vs
      ∧ empty c w' = Done w' true)
  ∧ (∃ w',
        (construct 1%positive ;~
         push less fresh_alloc 1%positive 5 ;~
         push less fresh_alloc 1%positive 3 ;~
         push less fresh_alloc 1%positive 8 ;~
         push less fresh_alloc 1%positive 1 ;~
         push less fresh_alloc 1%positive 9 ;~
         push less fresh_alloc 1%positive 2 ;~
         drain less 1%positive) empty_world
        = Done w' [9; 8; 5; 3; 2; 1]
        ∧ empty 1%positive w' = Done w' true).
Proof.
  intros Hc Hops Hlen. split.
  - assert (Hcon : construct c w = Done (constructed w c) tt).
    { unfold construct. by rewrite Hc. }
    step Hcon.
    destruct (run_push_pop ops (constructed w c) c Leaf
                (owns_constructed _ _ Hc) I Hops)
      as (w1 & t1 & Hrun & Ho1 & Hord1 & Hsz1).
    step Hrun. simpl in Hsz1.
    unfold drain, size.
    pose proof Ho1 as (Hc1 & _).
    step (get_size_run _ _ _ Hc1). simpl queue_size.
    rewrite wrap_small by lia. rewrite Nat2Z.id.
    destruct (drain_n_sorted (tsize t1) w1 c t1 Ho1 Hord1 eq_refl ltac:(lia))
      as (w' & vs & Hdrain & _ & Hsorted & Hleaf).
    exists w', vs. split_and!; try done.
    by rewrite (empty_spec _ _ _ Hleaf).
  - eexists. split; vm_compute; reflexivity.
Qed.

End IntQueue.

(** * Concrete worlds *)

Lemma owns_one_elem : owns one_elem 1%positive one_elem_tree.
Proof.
  split_and!; [reflexivity|by split_and!|].
  apply NoDup_singleton.
Qed.

Lemma owns_two_queues_1 : owns two_queues 1%positive one_elem_tree.
Proof.
  split_and!; [reflexivity|by split_and!|].
  apply NoDup_singleton.
Qed.

Lemma owns_two_queues_2 : owns two_queues 2%positive other_tree.
Proof.
  split_and!; [reflexivity|by split_and!|].
  apply NoDup_singleton.
Qed.

Lemma two_queues_disjoint l : l ∈ locs one_elem_tree → l ∉ locs other_tree.
Proof.
  simpl. intros ->%list_elem_of_singleton Hin%list_elem_of_singleton. done.
Qed.

Lemma two_nodes_NoDup : NoDup (locs two_nodes_tree).
Proof.
  simpl. apply NoDup_cons. split; [|apply NoDup_singleton].
  intros Hin%list_elem_of_singleton. done.
Qed.

Lemma world_inv_two_queues : world_inv two_queues.
Proof.
  exists (<[1%positive := one_elem_tree]> (<[2%positive := other_tree]> ∅)).
  assert (Hlook : ∀ c t,
    (<[1%positive := one_elem_tree]> (<[2%positive := other_tree]> ∅)
       : gmap cid (tree Z)) !! c = Some t →
    (c = 1%positive ∧ t = one_elem_tree) ∨ (c = 2%positive ∧ t = other_tree)).
  { intros c t Hc.
    destruct (decide (c = 1%positive)) as [->|H1].
    - rewrite lookup_insert_eq in Hc. injection Hc as <-. by left.
    - rewrite lookup_insert_ne in Hc by done.
      destruct (decide (c = 2%positive)) as [->|H2].
      + rewrite lookup_insert_eq in Hc. injection Hc as <-. by right.
      + by rewrite lookup_insert_ne in Hc. }
  split_and!.
  - intros c [q Hq]. unfold two_queues in Hq. simpl in Hq.
    destruct (decide (c = 1%positive)) as [->|H1]; [by eexists|].
    destruct (decide (c = 2%positive)) as [->|H2]; [by eexists|].
    by rewrite !lookup_insert_ne in Hq.
  - intros c t [[-> ->]|[-> ->]]%Hlook.
    + split; [apply owns_two_queues_1|by split_and!].
    + split; [apply owns_two_queues_2|by split_and!].
  - intros c1 c2 t1 t2 l Hne [[-> ->]|[-> ->]]%Hlook [[-> ->]|[-> ->]]%Hlook;
      try done.
    + apply two_queues_disjoint.
    + simpl. intros ->%list_elem_of_singleton Hin%list_elem_of_singleton. done.
Qed.

(** * Self-merge, and two guarantees the code does not give *)

(** C9.  Merging a container with itself does nothing at all, whatever the
    comparator and the world; for a container holding 1, 2, 3 the size is
    still 3 afterwards and draining yields 3, 2, 1. *)
Theorem C9_self_merge_is_noop :
  (∀ (T : Type) (cmp : list (event T) → T → T → answer bool)
     (w : world T) (c : cid),
      merge cmp c c w = Done w tt)
  ∧ (∃ w',
        (construct 1%positive ;~
         push less fresh_alloc 1%positive 1 ;~
         push less fresh_alloc 1%positive 2 ;~
         push less fresh_alloc 1%positive 3 ;~
         merge less 1%positive 1%positive ;~
         n <~ size 1%positive ;~
         vs <~ drain less 1%positive ;~
         ret (n, vs)) empty_world
        = Done w' (3, [3; 2; 1])).
Proof.
  split.
  - intros T cmp w c. unfold merge. by rewrite decide_True.
  - eexists. vm_compute. reflexivity.
Qed.

(** C2 fails as stated: with a source that cannot be copied because [new]
    throws, a failed assignment leaves the destination neither owning its
    old tree nor validly empty.  Its old cell has been freed, yet its root
    still points there and its size is still 1. *)
Lemma C2_counterexample :
  ¬ (∀ (alloc : list (event Z) → gmap loc (Node Z) → Z → answer loc)
       (w w' : world Z) (c c' : cid) (t t2 : tree Z) (ex : exn),
        (∀ tr h v l, alloc tr h v = Returns l → h !! l = None) →
        c ≠ c' →
        owns w c t → owns w c' t2 →
        (∀ l, l ∈ locs t → l ∉ locs t2) →
        assign alloc c c' w = Raised w' ex →
        owns w' c t ∨ owns w' c Leaf).
Proof.
  intros H.
  destruct (H (capped_alloc 0) two_queues
              (world_after (assign (capped_alloc 0) 1%positive 2%positive two_queues)
                           two_queues)
              1%positive 2%positive one_elem_tree other_tree (foreign 0)
              (capped_alloc_ok 0) ltac:(done)
              owns_two_queues_1 owns_two_queues_2 two_queues_disjoint
              ltac:(vm_compute; reflexivity))
    as [(_ & (Hl & _) & _) | (Hc & _)].
  - vm_compute in Hl. discriminate.
  - vm_compute in Hc. discriminate.
Qed.

(** C3 fails as stated: copying the two-node tree with room for only one
    more cell throws after the first [new], and the cell allocated by the call
    is still live when the exception reaches the caller. *)
Lemma C3_counterexample :
  ¬ (∀ (alloc : list (event Z) → gmap loc (Node Z) → Z → answer loc)
       (w w' : world Z) (t : tree Z) (ex : exn) (evs : list (event Z)),
        (∀ tr h v l, alloc tr h v = Returns l → h !! l = None) →
        stored (heap w) t → NoDup (locs t) →
        copyTree alloc (root_of t) w = Raised w' ex →
        trace w' = trace w ++ evs →
        ∀ l, New l ∈ evs → heap w' !! l = None).
Proof.
  intros H.
  pose proof (H (capped_alloc 3) two_nodes
                (world_after (copyTree (capped_alloc 3) (Some 1%positive) two_nodes)
                             two_nodes)
                two_nodes_tree (foreign 0) [New 3%positive; NewFailed]
                (capped_alloc_ok 3)
                ltac:(by split_and!) two_nodes_NoDup
                ltac:(vm_compute; reflexivity) ltac:(vm_compute; reflexivity)
                3%positive ltac:(left)) as Hl.
  vm_compute in Hl. discriminate.
Qed.

(** ** The theorems at concrete inputs *)

Lemma C1_witness :
  let ops : list (op Z) :=
    [OpPush 1%positive 5; OpPush 1%positive 3; OpPop 1%positive;
     OpPush 1%positive 8; OpPop 1%positive; OpPop 1%positive;
     OpPop 1%positive; OpPush 1%positive 4] in
  (objs empty_world !! 1%positive = None
   ∧ Z.of_nat (length ops) < size_max)
  ∧ ∃ w' vs,
      (construct 1%positive ;~ run less fresh_alloc ops ;~ drain less 1%positive)
        empty_world = Done w' vs
      ∧ StronglySorted Z.ge vs
      ∧ empty 1%positive w' = Done w' true.
Proof.
  intros ops. split; [split; reflexivity|].
  apply (C1_successive_tops_non_increasing fresh_alloc fresh_alloc_ok
           empty_world 1%positive ops).
  - reflexivity.
  - repeat constructor.
  - reflexivity.
Defined.

Lemma C2_witness :
  (1%positive ≠ 2%positive
   ∧ owns two_queues 1%positive one_elem_tree
   ∧ owns two_queues 2%positive other_tree)
  ∧ match assign fresh_alloc 1%positive 2%positive two_queues with
    | Done w' _ =>
        ∃ t', owns w' 1%positive t' ∧ same_shape other_tree t'
          ∧ owns w' 2%positive other_tree
          ∧ (∀ l, l ∈ locs t' → l ∉ locs other_tree)
          ∧ trace w' = trace two_queues ++ map Delete (postorder one_elem_tree)
                       ++ map New (locs t')
    | Raised w' ex =>
        ∃ ls, trace w' = trace two_queues ++ map Delete (postorder one_elem_tree)
                         ++ map New ls ++ [NewFailed]
    | _ => False
    end.
Proof.
  split; [split_and!; [done|apply owns_two_queues_1|apply owns_two_queues_2]|].
  apply (C2_assign_releases_then_copies fresh_alloc fresh_alloc_ok
           two_queues 1%positive 2%positive one_elem_tree other_tree).
  - done.
  - apply owns_two_queues_1.
  - apply owns_two_queues_2.
  - apply two_queues_disjoint.
Defined.

Lemma C3_witness :
  let w' := world_after (copyTree (capped_alloc 3) (Some 1%positive) two_nodes)
                        two_nodes in
  (stored (heap two_nodes) two_nodes_tree
   ∧ copyTree (capped_alloc 3) (root_of two_nodes_tree) two_nodes
     = Raised w' (foreign 0))
  ∧ ∃ ls,
      trace w' = trace two_nodes ++ map New ls ++ [NewFailed]
      ∧ (∀ l, l ∈ ls → heap two_nodes !! l = None ∧ is_Some (heap w' !! l))
      ∧ (∀ l, l ∉ ls → heap w' !! l = heap two_nodes !! l)
      ∧ stored (heap w') two_nodes_tree
      ∧ base.size (heap w') = (base.size (heap two_nodes) + length ls)%nat.
Proof.
  intros w'. split; [split; [by split_and!|vm_compute; reflexivity]|].
  apply (C3_failed_copy_keeps_partial_nodes (capped_alloc 3) (capped_alloc_ok 3)
           two_nodes two_nodes_tree w' (foreign 0)).
  - by split_and!.
  - apply two_nodes_NoDup.
  - vm_compute. reflexivity.
Defined.

Lemma C4_witness :
  let w' := world_after (push (throwing_less 0) fresh_alloc 1%positive 3 one_elem)
                        one_elem in
  (owns one_elem 1%positive one_elem_tree
   ∧ push (throwing_less 0) fresh_alloc 1%positive 3 one_elem
     = Raised w' (foreign 1))
  ∧ heap w' = heap one_elem
  ∧ objs w' = objs one_elem
  ∧ match fresh_alloc (trace one_elem) (heap one_elem) 3 with
    | Returns l =>
        heap w' !! l = None
        ∧ ∃ cmps, trace w' = trace one_elem ++ [New l] ++ cmps ++ [Delete l]
                  ∧ Forall (λ ev, is_cmp ev = true) cmps
    | Throws k => foreign 1 = foreign k ∧ trace w' = trace one_elem ++ [NewFailed]
    end.
Proof.
  intros w'. split; [split; [apply owns_one_elem|vm_compute; reflexivity]|].
  apply (C4_push_strong_guarantee (throwing_less 0) fresh_alloc fresh_alloc_ok
           one_elem 1%positive one_elem_tree 3 w' (foreign 1)).
  - apply owns_one_elem.
  - vm_compute. reflexivity.
Defined.

Lemma C5_witness :
  owns one_elem 1%positive one_elem_tree
  ∧ ((∃ w', top 1%positive one_elem = Raised w' container_is_empty)
     ↔ size 1%positive one_elem = Done one_elem 0)
  ∧ ((∃ w', pop less 1%positive one_elem = Raised w' container_is_empty)
     ↔ size 1%positive one_elem = Done one_elem 0)
  ∧ (∀ w' ex, top 1%positive one_elem = Raised w' ex
              → ex = container_is_empty ∧ w' = one_elem)
  ∧ (∀ w', pop less 1%positive one_elem = Raised w' container_is_empty
           → w' = one_elem)
  ∧ (∀ w' ex, pop less 1%positive one_elem = Raised w' ex
              → heap w' = heap one_elem ∧ objs w' = objs one_elem).
Proof.
  split; [apply owns_one_elem|].
  apply (C5_empty_errors less one_elem 1%positive one_elem_tree).
  apply owns_one_elem.
Defined.

Lemma C6_witness :
  (1%positive ≠ 2%positive
   ∧ owns two_queues 1%positive one_elem_tree
   ∧ owns two_queues 2%positive other_tree)
  ∧ match merge less 1%positive 2%positive two_queues with
    | Done w' _ =>
        ∃ w1 r m,
          mergeNodes less (root_of one_elem_tree) (root_of other_tree) two_queues
          = Done w1 r
          ∧ heap w' = heap w1
          ∧ objs w' !! 1%positive
            = Some (mkPq r (wrap (wrap (Z.of_nat (tsize one_elem_tree))
                                  + wrap (Z.of_nat (tsize other_tree)))))
          ∧ objs w' !! 2%positive = Some (mkPq None 0)
          ∧ owns w' 1%positive m ∧ owns w' 2%positive Leaf
          ∧ elems m ≡ₚ elems one_elem_tree ++ elems other_tree
    | Raised w' ex =>
        mergeNodes less (root_of one_elem_tree) (root_of other_tree) two_queues
        = Raised w' ex
        ∧ heap w' = heap two_queues ∧ objs w' = objs two_queues
    | _ => False
    end.
Proof.
  split; [split_and!; [done|apply owns_two_queues_1|apply owns_two_queues_2]|].
  apply (C6_merge_containers less two_queues 1%positive 2%positive
           one_elem_tree other_tree).
  - done.
  - apply owns_two_queues_1.
  - apply owns_two_queues_2.
  - apply two_queues_disjoint.
Defined.

Lemma C7_witness :
  let o : op Z := OpMerge 1%positive 2%positive in
  let w' := world_after (exec less fresh_alloc o two_queues) two_queues in
  (world_inv two_queues
   ∧ exec less fresh_alloc o two_queues = Done w' tt)
  ∧ world_inv w'
  ∧ ∀ c q, objs w' !! c = Some q →
      ∃ t, owns w' c t ∧ root q = root_of t ∧ leftist t.
Proof.
  intros o w'. split; [split; [apply world_inv_two_queues|vm_compute; reflexivity]|].
  apply (C7_leftist_after_every_operation less fresh_alloc fresh_alloc_ok
           two_queues w' o).
  - apply world_inv_two_queues.
  - vm_compute. reflexivity.
Defined.

Lemma C8_witness :
  let a : tree Z := Nd 1%positive 5 0 Leaf Leaf in
  let b : tree Z := Nd 2%positive 5 0 Leaf Leaf in
  let w1 := log tie_world (Cmp 5 5) in
  (stored (heap tie_world) a ∧ stored (heap tie_world) b
   ∧ (tsize a + tsize b ≤ 2)%nat)
  ∧ match less (trace tie_world) 5 5 with
    | Throws k =>
        mergeNodes_fuel less 3 (Some 1%positive) (Some 2%positive) tie_world
        = Raised w1 (foreign k)
    | Returns false =>
        match mergeNodes_fuel less 2 None (Some 2%positive) w1 with
        | Done w2 r =>
            ∃ m, r = root_of m ∧ stored (heap w2) m
              ∧ (∃ rest, trace w2 = trace tie_world ++ Cmp 5 5 :: rest)
              ∧ mergeNodes_fuel less 3 (Some 1%positive) (Some 2%positive) tie_world
                = Done (mkWorld (write_tree (join 1%positive 5 Leaf m) (heap tie_world))
                                (objs tie_world) (trace w2))
                       (Some 1%positive)
        | Raised w2 ex =>
            mergeNodes_fuel less 3 (Some 1%positive) (Some 2%positive) tie_world
            = Raised w2 ex
            ∧ heap w2 = heap tie_world
            ∧ (∃ rest, trace w2 = trace tie_world ++ Cmp 5 5 :: rest)
        | _ => False
        end
    | Returns true =>
        match mergeNodes_fuel less 2 (Some 1%positive) None w1 with
        | Done w2 r =>
            ∃ m, r = root_of m ∧ stored (heap w2) m
              ∧ (∃ rest, trace w2 = trace tie_world ++ Cmp 5 5 :: rest)
              ∧ mergeNodes_fuel less 3 (Some 1%positive) (Some 2%positive) tie_world
                = Done (mkWorld (write_tree (join 2%positive 5 Leaf m) (heap tie_world))
                                (objs tie_world) (trace w2))
                       (Some 2%positive)
        | Raised w2 ex =>
            mergeNodes_fuel less 3 (Some 1%positive) (Some 2%positive) tie_world
            = Raised w2 ex
            ∧ heap w2 = heap tie_world
            ∧ (∃ rest, trace w2 = trace tie_world ++ Cmp 5 5 :: rest)
        | _ => False
        end
    end.
Proof.
  intros a b w1.
  split; [split_and!; [by split_and!|by split_and!|simpl; lia]|].
  apply (C8_merge_frame less 2 tie_world 1%positive 5 0 Leaf Leaf
           2%positive 5 0 Leaf Leaf).
  - by split_and!.
  - by split_and!.
  - simpl. apply NoDup_cons. split; [|apply NoDup_singleton].
    intros Hin%list_elem_of_singleton. done.
  - simpl. lia.
Defined.

Lemma C10_witness :
  (mergeNodes less None (Some 1%positive) one_elem = Done one_elem (Some 1%positive)
   ∧ mergeNodes less (Some 1%positive) None one_elem = Done one_elem (Some 1%positive))
  ∧ match push (throwing_less 0) fresh_alloc 1%positive 4
            (constructed empty_world 1%positive) with
    | Done w' _ =>
        filter is_cmp (trace w')
        = filter is_cmp (trace (constructed empty_world 1%positive))
    | Raised w' ex =>
        (∃ k, fresh_alloc (trace (constructed empty_world 1%positive))
                          (heap (constructed empty_world 1%positive)) 4 = Throws k
              ∧ ex = foreign k)
        ∧ filter is_cmp (trace w')
          = filter is_cmp (trace (constructed empty_world 1%positive))
    | _ => False
    end
  ∧ ∃ w', pop (throwing_less 0) 1%positive one_elem = Done w' tt
          ∧ filter is_cmp (trace w') = filter is_cmp (trace one_elem)
          ∧ owns w' 1%positive Leaf.
Proof.
  pose proof (C10_no_comparison_on_empty_operand less fresh_alloc fresh_alloc_ok)
    as (Hnull & _ & _).
  pose proof (C10_no_comparison_on_empty_operand (throwing_less 0) fresh_alloc
                fresh_alloc_ok) as (_ & Hpush & Hpop).
  split_and!.
  - apply (Hnull O (Some 1%positive) one_elem).
  - apply (Hnull O (Some 1%positive) one_elem).
  - apply (Hpush (constructed empty_world 1%positive) 1%positive 4).
    by apply (owns_constructed empty_world 1%positive).
  - apply (Hpop one_elem 1%positive 1%positive 7 0). apply owns_one_elem.
Defined.

(** * Further properties of the tree primitives *)

Section Primitives.

Context {T : Type}.
Variable cmp : list (event T) → T → T → answer bool.
Variable alloc : list (event T) → gmap loc (Node T) → T → answer loc.
Hypothesis alloc_fresh :
  ∀ tr h v l, alloc tr h v = Returns l → h !! l = None.

Implicit Types (h : gmap loc (Node T)) (w : world T) (t : tree T)
  (l : loc) (p : ptr) (tr : list (event T)).


Lemma dom_write_live t h :
  (∀ l, l ∈ locs t → is_Some (h !! l)) → dom (write_tree t h) = dom h.
Proof.
  revert h. induction t as [|l v d tl IHl rt IHr]; intros h Hlive; simpl; [done|].
  assert (Hr : dom (write_tree rt h) = dom h).
  { apply IHr. intros x Hx. apply Hlive. right. apply elem_of_app. by right. }
  assert (Hlr : dom (write_tree tl (write_tree rt h)) = dom h).
  { rewrite IHl; [done|]. intros x Hx. apply elem_of_dom. rewrite Hr.
    apply elem_of_dom, Hlive. right. apply elem_of_app. by left. }
  rewrite dom_insert_lookup_L; [done|].
  apply elem_of_dom. rewrite Hlr. apply elem_of_dom, Hlive. left.
Qed.

(** [mergeNodes] is all or nothing.  On two stored trees sharing no cell it
    makes comparator calls and nothing else: it allocates and frees nothing.
    Either it returns the root of a tree made of exactly the cells and
    elements of both operands, leaving every other cell and the set of live
    addresses as they were; or the comparator threw and the heap is as it
    was. *)
Theorem mergeNodes_all_or_nothing a b w :
  stored (heap w) a → stored (heap w) b → NoDup (locs a ++ locs b) →
  ∃ cmps,
    Forall (λ ev, is_cmp ev = true) cmps
    ∧ match mergeNodes cmp (root_of a) (root_of b) w with
      | Done w' r =>
          ∃ m, r = root_of m
            ∧ stored (heap w') m
            ∧ locs m ≡ₚ locs a ++ locs b
            ∧ elems m ≡ₚ elems a ++ elems b
            ∧ (∀ l, l ∉ locs a ++ locs b → heap w' !! l = heap w !! l)
            ∧ dom (heap w') = dom (heap w)
            ∧ objs w' = objs w
            ∧ trace w' = trace w ++ cmps
      | Raised w' ex =>
          heap w' = heap w ∧ objs w' = objs w
          ∧ trace w' = trace w ++ cmps ∧ cmps ≠ []
      | _ => False
      end.
Proof.
  intros Ha Hb Hnd. rewrite (mergeNodes_spec cmp a b w Ha Hb Hnd).
  destruct (merge_tree_trace cmp a (trace w) b) as (cmps & Htr & Hall).
  exists cmps. split; [done|].
  pose proof (merge_tree_locs cmp a (trace w) b) as Hlocs.
  pose proof (merge_tree_elems cmp a (trace w) b) as Hel.
  destruct (merge_tree cmp a (trace w) b) as [tr' [m|k]] eqn:Hm; simpl in *.
  - specialize (Hlocs _ _ eq_refl). specialize (Hel _ _ eq_refl).
    exists m. split_and!; try done.
    + apply stored_write. by rewrite Hlocs.
    + intros l Hl. apply lookup_write_notin. by rewrite Hlocs.
    + apply dom_write_live. intros l Hl. rewrite Hlocs in Hl.
      apply elem_of_app in Hl as [Hl|Hl]; eauto using stored_live.
  - split_and!; try done. intros ->. rewrite app_nil_r in Htr. subst tr'.
    clear Hlocs Hel Hall. revert Hm.
    rewrite merge_tree_eq. destruct a as [|la va da al ar]; [done|].
    destruct b as [|lb vb db bl br]; [done|].
    pose proof (merge_tree_trace cmp ar (trace w ++ [Cmp va vb]) (Nd lb vb db bl br))
      as (c1 & H1 & _).
    pose proof (merge_tree_trace cmp (Nd la va da al ar) (trace w ++ [Cmp va vb]) br)
      as (c2 & H2 & _).
    assert (Hlen : ∀ (x : list (event T)) y, (trace w ++ [Cmp va vb]) ++ y = x →
                     x ≠ trace w).
    { intros x y <- Heq. apply (f_equal length) in Heq.
      rewrite !length_app in Heq. simpl in Heq. lia. }
    destruct (cmp (trace w) va vb) as [[|]|k'].
    + destruct (merge_tree cmp (Nd la va da al ar) _ br) as [tr2 [m|k2]];
        unfold finish; [done|]. intros [= Heq _]. cbn [fst] in H2.
      eapply Hlen; [symmetry; exact H2|exact Heq].
    + destruct (merge_tree cmp ar _ (Nd lb vb db bl br)) as [tr2 [m|k2]];
        unfold finish; [done|]. intros [= Heq _]. cbn [fst] in H1.
      eapply Hlen; [symmetry; exact H1|exact Heq].
    + intros [= Heq _]. eapply (Hlen _ []); [|exact Heq]. by rewrite app_nil_r.
Qed.

(** The number of comparator calls one [mergeNodes] makes on leftist trees
    is bounded by their [dist] fields. *)
Lemma merge_tree_calls a tr b :
  leftist a → leftist b →
  Z.of_nat (length (merge_tree cmp a tr b).1) - Z.of_nat (length tr)
  ≤ (tdist a + 1) + (tdist b + 1).
Proof.
  pattern a, tr, b, (merge_tree cmp a tr b).
  apply merge_tree_ind; clear a tr b.
  - intros tr b _ Hb. pose proof (leftist_dist_ge _ Hb). simpl. lia.
  - intros tr l v d tl rt Ha _. pose proof (leftist_dist_ge _ Ha). simpl in *. lia.
  - intros tr la va da al ar lb vb db bl br c Hc Ha Hb.
    pose proof Ha as (_ & -> & _ & _ & Har). pose proof Hb as (_ & -> & _ & _ & Hbr).
    pose proof (leftist_dist_ge _ Har). pose proof (leftist_dist_ge _ Hbr).
    simpl. rewrite length_app. simpl. lia.
  - intros tr la va da al ar lb vb db bl br Hc b r IH Ha Hb.
    pose proof Ha as (_ & -> & _ & _ & Har).
    specialize (IH Har Hb). rewrite length_app in IH. simpl length in IH.
    assert ((finish la va al r).1 = r.1) as -> by (by destruct r as [? [?|?]]).
    simpl tdist in *. lia.
  - intros tr la va da al ar lb vb db bl br Hc a r IH Ha Hb.
    pose proof Hb as (_ & -> & _ & _ & Hbr).
    specialize (IH Ha Hbr). rewrite length_app in IH. simpl length in IH.
    assert ((finish lb vb bl r).1 = r.1) as -> by (by destruct r as [? [?|?]]).
    simpl tdist in *. lia.
Qed.

(** [mergeNodes] is logarithmic: on two leftist trees with [n] and [m] nodes
    it calls the comparator [k] times with [2^k <= (n + 1) * (m + 1)],
    whether it returns or throws. *)
Theorem mergeNodes_logarithmic a b w :
  stored (heap w) a → stored (heap w) b → NoDup (locs a ++ locs b) →
  leftist a → leftist b →
  let w' := world_after (mergeNodes cmp (root_of a) (root_of b) w) w in
  ∃ cmps,
    trace w' = trace w ++ cmps
    ∧ Forall (λ ev, is_cmp ev = true) cmps
    ∧ 2 ^ Z.of_nat (length cmps)
      ≤ (Z.of_nat (tsize a) + 1) * (Z.of_nat (tsize b) + 1).
Proof.
  intros Ha Hb Hnd Hla Hlb w'. subst w'.
  rewrite (mergeNodes_spec cmp a b w Ha Hb Hnd).
  destruct (merge_tree_trace cmp a (trace w) b) as (cmps & Htr & Hall).
  pose proof (merge_tree_calls a (trace w) b Hla Hlb) as Hcalls.
  rewrite Htr, length_app in Hcalls.
  exists cmps. split_and!; [|done|].
  - destruct (merge_tree cmp a (trace w) b) as [tr' [m|k]]; simpl in *; done.
  - pose proof (leftist_dist_bound _ Hla). pose proof (leftist_dist_bound _ Hlb).
    pose proof (leftist_dist_ge _ Hla). pose proof (leftist_dist_ge _ Hlb).
    transitivity (2 ^ ((tdist a + 1) + (tdist b + 1))).
    + apply Z.pow_le_mono_r; lia.
    + rewrite Z.pow_add_r by lia.
      apply Z.mul_le_mono_nonneg; try lia; apply Z.pow_nonneg; lia.
Qed.


(** Which operand ends up on top: a successful [mergeNodes] of two
    non-empty trees has compared the two roots first, and returns the second
    root exactly when [cmp(a->data, b->data)] held; when it did not hold (in
    particular on equal keys) the first operand's root stays the root. *)
Theorem mergeNodes_root_choice la va da al ar lb vb db bl br w w' r :
  let a := Nd la va da al ar in
  let b := Nd lb vb db bl br in
  stored (heap w) a → stored (heap w) b → NoDup (locs a ++ locs b) →
  mergeNodes cmp (Some la) (Some lb) w = Done w' r →
  ∃ (swap : bool) rest,
    cmp (trace w) va vb = Returns swap
    ∧ trace w' = trace w ++ Cmp va vb :: rest
    ∧ r = Some (if swap then lb else la)
    ∧ data <$> (r ≫= λ l, heap w' !! l) = Some (if swap then vb else va).
Proof.
  intros a b Ha Hb Hnd.
  change (Some la) with (root_of a). change (Some lb) with (root_of b).
  rewrite (mergeNodes_spec cmp a b w Ha Hb Hnd).
  pose proof (merge_tree_locs cmp a (trace w) b) as Hlocs.
  rewrite merge_tree_eq. subst a b. cbv iota beta.
  rewrite merge_tree_eq in Hlocs. cbv iota beta in Hlocs.
  destruct (cmp (trace w) va vb) as [swap|k]; [|done].
  intros H. exists swap. destruct swap.
  - destruct (merge_tree_trace cmp (Nd la va da al ar) (trace w ++ [Cmp va vb]) br)
      as (cmps & Htr & _).
    destruct (merge_tree cmp (Nd la va da al ar) (trace w ++ [Cmp va vb]) br)
      as [tr2 [m|k]]; [|done].
    simpl in Htr, H. subst tr2. injection H as <- <-. exists cmps.
    specialize (Hlocs _ _ eq_refl).
    assert (Hnd' : NoDup (locs (join lb vb bl m))) by (by rewrite Hlocs).
    pose proof (stored_write (heap w) _ Hnd') as Hst.
    rewrite <- app_assoc. split_and!; try done.
    + unfold join. by destruct (_ <? _).
    + unfold join in *. destruct (_ <? _); destruct Hst as (Hd & _); simpl in *;
        by rewrite Hd.
  - destruct (merge_tree_trace cmp ar (trace w ++ [Cmp va vb]) (Nd lb vb db bl br))
      as (cmps & Htr & _).
    destruct (merge_tree cmp ar (trace w ++ [Cmp va vb]) (Nd lb vb db bl br))
      as [tr2 [m|k]]; [|done].
    simpl in Htr, H. subst tr2. injection H as <- <-. exists cmps.
    specialize (Hlocs _ _ eq_refl).
    assert (Hnd' : NoDup (locs (join la va al m))) by (by rewrite Hlocs).
    pose proof (stored_write (heap w) _ Hnd') as Hst.
    rewrite <- app_assoc. split_and!; try done.
    + unfold join. by destruct (_ <? _).
    + unfold join in *. destruct (_ <? _); destruct Hst as (Hd & _); simpl in *;
        by rewrite Hd.
Qed.

End Primitives.

(** * Further properties of the member functions *)

Section Members.

Context {T : Type}.
Variable cmp : list (event T) → T → T → answer bool.
Variable alloc : list (event T) → gmap loc (Node T) → T → answer loc.
Hypothesis alloc_fresh :
  ∀ tr h v l, alloc tr h v = Returns l → h !! l = None.

Implicit Types (h : gmap loc (Node T)) (w : world T) (t : tree T)
  (l : loc) (p : ptr) (tr : list (event T)) (c : cid).

Lemma size_write_live t h :
  (∀ l, l ∈ locs t → is_Some (h !! l)) →
  base.size (write_tree t h) = base.size h.
Proof. intros Hlive. by rewrite <- !size_dom, dom_write_live. Qed.

(** A successful [push(e)] allocates exactly one cell and hangs it into the
    tree: the container then owns a tree made of its old cells and the new
    one, holding the old elements and [e]; its size went up by one (as a
    [size_t]); no other cell and no other object changed. *)
Theorem push_adds_one_element w c t e w' :
  owns w c t →
  push cmp alloc c e w = Done w' tt →
  ∃ l t',
    alloc (trace w) (heap w) e = Returns l
    ∧ heap w !! l = None
    ∧ owns w' c t'
    ∧ locs t' ≡ₚ l :: locs t
    ∧ elems t' ≡ₚ e :: elems t
    ∧ size c w' = Done w' (wrap (wrap (Z.of_nat (tsize t)) + 1))
    ∧ (∀ x, x ≠ l → x ∉ locs t → heap w' !! x = heap w !! x)
    ∧ (∀ c', c' ≠ c → objs w' !! c' = objs w !! c')
    ∧ base.size (heap w') = S (base.size (heap w)).
Proof.
  intros Ho. rewrite (push_spec cmp alloc alloc_fresh _ _ _ _ Ho).
  destruct (alloc (trace w) (heap w) e) as [l|k] eqn:Hal; [|done].
  pose proof (alloc_fresh _ _ _ _ Hal) as Hl.
  destruct (merge_tree cmp t (trace w ++ [New l]) (Nd l e 0 Leaf Leaf))
    as [tr' [t'|k]] eqn:Hm; [|done].
  intros [= <-].
  pose proof (owns_after_push cmp alloc alloc_fresh _ _ _ _ _ _ _ Ho Hal Hm) as Ho'.
  pose proof (merge_tree_locs _ _ _ _ _ _ Hm) as Hlocs. simpl in Hlocs.
  pose proof (merge_tree_elems _ _ _ _ _ _ Hm) as Hel. simpl in Hel.
  destruct Ho as (_ & Hst & _).
  exists l, t'. split_and!; try done.
  - by rewrite Hlocs, Permutation_app_comm.
  - by rewrite Hel, Permutation_app_comm.
  - unfold size. erewrite get_size_run by (simpl; apply lookup_insert_eq).
    simpl. by rewrite wrap_succ.
  - intros x Hxl Hx. simpl. rewrite lookup_write_notin.
    + by apply lookup_insert_ne.
    + rewrite Hlocs. intros [?|?%list_elem_of_singleton]%elem_of_app; done.
  - intros c' Hne. simpl. by apply lookup_insert_ne.
  - simpl. rewrite size_write_live.
    + by apply map_size_insert_None.
    + intros x Hx. rewrite Hlocs in Hx.
      apply elem_of_app in Hx as [Hx|Hx].
      * rewrite lookup_insert_ne; [by eapply stored_live|].
        intros ->. destruct (stored_live _ _ _ Hst Hx). congruence.
      * apply list_elem_of_singleton in Hx as ->.
        rewrite lookup_insert_eq. by eexists.
Qed.

(** A successful [pop()] removes what [top()] returned and nothing else: the
    container owned a non-empty tree, [top] read the element at its root,
    the root cell is freed, and the container then owns a tree made of the
    remaining cells and elements; no other cell and no other object
    changed. *)
Theorem pop_removes_the_top w c t w' :
  owns w c t →
  pop cmp c w = Done w' tt →
  ∃ l v d tl rt t',
    t = Nd l v d tl rt
    ∧ top c w = Done w v
    ∧ owns w' c t'
    ∧ locs t ≡ₚ l :: locs t'
    ∧ elems t ≡ₚ v :: elems t'
    ∧ heap w' !! l = None
    ∧ size c w' = Done w' (wrap (wrap (Z.of_nat (tsize t)) - 1))
    ∧ (∀ x, x ∉ locs t → heap w' !! x = heap w !! x)
    ∧ (∀ c', c' ≠ c → objs w' !! c' = objs w !! c')
    ∧ S (base.size (heap w')) = base.size (heap w).
Proof.
  intros Ho. rewrite (pop_spec cmp _ _ _ Ho), (top_spec _ _ _ Ho).
  destruct (wrap (Z.of_nat (tsize t)) =? 0); [done|].
  destruct t as [|l v d tl rt]; [done|].
  destruct (merge_tree cmp tl (trace w) rt) as [tr' [m|k]] eqn:Hm; [|done].
  intros [= <-].
  pose proof (owns_after_pop cmp _ _ _ _ _ _ _ _ _ Ho Hm) as Ho'.
  pose proof (merge_tree_locs _ _ _ _ _ _ Hm) as Hlocs.
  pose proof (merge_tree_elems _ _ _ _ _ _ Hm) as Hel.
  destruct Ho as (_ & Hst & Hnd).
  pose proof Hst as (Hl & Hsl & Hsr).
  exists l, v, d, tl, rt, m. split_and!; try done.
  - simpl. by rewrite Hlocs.
  - simpl. by rewrite Hel.
  - simpl. apply lookup_delete_eq.
  - unfold size. erewrite get_size_run by (simpl; apply lookup_insert_eq).
    simpl queue_size. by rewrite wrap_pred.
  - intros x Hx. simpl in *. apply not_elem_of_cons in Hx as [Hxl Hx].
    rewrite lookup_delete_ne by done. apply lookup_write_notin. by rewrite Hlocs.
  - intros c' Hne. simpl. by apply lookup_insert_ne.
  - simpl heap. rewrite map_size_delete.
    assert (Hlive : ∀ x, x ∈ locs m → is_Some (heap w !! x)).
    { intros x Hx. rewrite Hlocs in Hx. eapply (stored_live _ (Nd l v d tl rt));
        [done|]. by right. }
    rewrite lookup_write_notin.
    + rewrite Hl, size_write_live by done.
      pose proof (map_size_ne_0_lookup_1 (heap w)) as Hne.
      destruct (base.size (heap w)) eqn:Hsz; [|done].
      apply map_size_empty_iff in Hsz. by rewrite Hsz in Hl.
    + simpl in Hnd. apply NoDup_cons in Hnd as [Hnot _]. by rewrite Hlocs.
Qed.


Lemma size_erase_tree t h :
  stored h t → NoDup (locs t) →
  (base.size (erase_tree t h) + tsize t)%nat = base.size h.
Proof.
  revert h. induction t as [|l v d tl IHl rt IHr]; intros h Hst Hnd; simpl; [lia|].
  destruct Hst as (Hl & Hsl & Hsr).
  apply NoDup_cons in Hnd as [Hnot Hnd].
  apply not_elem_of_app in Hnot as [Hn1 Hn2].
  apply NoDup_app in Hnd as (Hndl & Hdisj & Hndr).
  assert (Hsr' : stored (erase_tree tl h) rt).
  { eapply stored_frame; [exact Hsr|]. intros x Hx.
    apply lookup_erase_notin. intros Hx'. by apply (Hdisj x). }
  specialize (IHl h Hsl Hndl). specialize (IHr _ Hsr' Hndr).
  rewrite map_size_delete. rewrite !lookup_erase_notin by done. rewrite Hl.
  destruct (base.size (erase_tree rt (erase_tree tl h))) eqn:Hsz.
  - apply map_size_empty_iff in Hsz.
    assert (Hl' : erase_tree rt (erase_tree tl h) !! l = Some (mkNode v (root_of tl) (root_of rt) d))
      by (by rewrite !lookup_erase_notin).
    by rewrite Hsz in Hl'.
  - simpl. lia.
Qed.


(** A successful [copyTree] builds, out of cells that were not live, a tree
    with the shape, elements and [dist] fields of the source, one [new] per
    node in preorder; the copy of a leftist tree is leftist; the source and
    every other cell are untouched. *)
Theorem copyTree_builds_a_fresh_copy w t w' r :
  stored (heap w) t → NoDup (locs t) →
  copyTree alloc (root_of t) w = Done w' r →
  ∃ t',
    r = root_of t'
    ∧ same_shape t t'
    ∧ elems t' = elems t
    ∧ (leftist t → leftist t')
    ∧ stored (heap w') t' ∧ NoDup (locs t')
    ∧ (∀ l, l ∈ locs t' → heap w !! l = None)
    ∧ (∀ l, l ∉ locs t' → heap w' !! l = heap w !! l)
    ∧ stored (heap w') t
    ∧ objs w' = objs w
    ∧ trace w' = trace w ++ map New (locs t').
Proof.
  intros Hst Hnd Hrun.
  pose proof (copyTree_spec alloc alloc_fresh t w Hst Hnd) as Hspec.
  rewrite Hrun in Hspec.
  destruct Hspec as (t' & -> & Hsh & Hnd' & Hfresh & Hst' & Hout & Hobj & Htr).
  exists t'. split_and!; try done.
  - clear -Hsh. revert t' Hsh.
    induction t as [|l v d tl IHl rt IHr]; intros [|l' v' d' tl' rt']; simpl;
      try done.
    intros (-> & _ & Hl & Hr). by rewrite (IHl _ Hl), (IHr _ Hr).
  - by apply same_shape_leftist.
  - eapply stored_frame; [exact Hst|]. intros l Hl. apply Hout.
    intros Hin. apply Hfresh in Hin.
    destruct (stored_live _ _ _ Hst Hl). congruence.
Qed.

(** A successful copy construction is a deep copy: the new container owns a
    fresh tree with the shape and elements of the source's, so it reports
    the same size; the two trees share no cell, and the source owns its tree
    as before. *)
Theorem copy_constructor_deep_copy w c c' t2 w' :
  objs w !! c = None →
  owns w c' t2 →
  copy_construct alloc c c' w = Done w' tt →
  ∃ t',
    owns w' c t'
    ∧ same_shape t2 t'
    ∧ owns w' c' t2
    ∧ (∀ l, l ∈ locs t' → l ∉ locs t2)
    ∧ (∀ l, l ∈ locs t' → heap w !! l = None)
    ∧ (∀ l, l ∉ locs t' → heap w' !! l = heap w !! l)
    ∧ size c w' = size c' w'.
Proof.
  intros Hc Ho2 Hrun.
  pose proof (copy_construct_spec alloc alloc_fresh _ _ _ _ Hc Ho2) as Hspec.
  rewrite Hrun in Hspec. destruct Hspec as (w2 & p & Hcopy & ->).
  destruct Hcopy as (t' & -> & Hsh & Hnd & Hfresh & Hst & Hout & Hobj & Htr).
  destruct Ho2 as (Hc2 & Hst2 & Hnd2). simpl in Hfresh, Hout.
  assert (Hne : c ≠ c') by congruence.
  assert (Hd : ∀ l, l ∈ locs t' → l ∉ locs t2).
  { intros l Hl Hl2. apply Hfresh in Hl.
    destruct (stored_live _ _ _ Hst2 Hl2). congruence. }
  assert (Ho : owns (set_objs w2 (<[c:=mkPq (root_of t') (wrap (Z.of_nat (tsize t2)))]>
                                    (objs w))) c t').
  { split_and!; simpl; [|done|done].
    rewrite lookup_insert_eq. by rewrite (same_shape_size _ _ Hsh). }
  assert (Ho' : owns (set_objs w2 (<[c:=mkPq (root_of t') (wrap (Z.of_nat (tsize t2)))]>
                                     (objs w))) c' t2).
  { split_and!; simpl; [by rewrite lookup_insert_ne| |done].
    eapply stored_frame; [exact Hst2|]. intros l Hl. apply Hout.
    intros Hin. by apply (Hd l). }
  exists t'. split_and!; try done.
  unfold size. destruct Ho as (H1 & _), Ho' as (H2 & _).
  rewrite (get_size_run _ _ _ H1), (get_size_run _ _ _ H2). simpl.
  by rewrite (same_shape_size _ _ Hsh).
Qed.

(** A copy construction that fails leaves no object behind: the objects
    are exactly those before the call, every cell that was live is
    unchanged, and the source owns its tree as before. *)
Theorem copy_constructor_failure w c c' t2 w' ex :
  objs w !! c = None →
  owns w c' t2 →
  copy_construct alloc c c' w = Raised w' ex →
  objs w' = objs w
  ∧ (∀ l, is_Some (heap w !! l) → heap w' !! l = heap w !! l)
  ∧ owns w' c' t2.
Proof.
  intros Hc Ho2 Hrun.
  pose proof (copy_construct_spec alloc alloc_fresh _ _ _ _ Hc Ho2) as Hspec.
  rewrite Hrun in Hspec. destruct Hspec as (w2 & Hfail & ->).
  destruct Hfail as (ls & k & _ & _ & _ & Hls & Hout & _). simpl in Hls, Hout.
  assert (Hkeep : ∀ l, is_Some (heap w !! l) → heap w2 !! l = heap w !! l).
  { intros l [n Hn]. apply Hout. intros Hin. destruct (Hls _ Hin). congruence. }
  split_and!; try done.
  destruct Ho2 as (Hc2 & Hst2 & Hnd2). split_and!; simpl; try done.
  eapply stored_frame; [exact Hst2|]. intros l Hl. apply Hkeep.
  by eapply stored_live.
Qed.

Lemma world_inv_frame w w' :
  objs w' = objs w →
  (∀ l, is_Some (heap w !! l) → heap w' !! l = heap w !! l) →
  world_inv w → world_inv w'.
Proof.
  intros Hobj Hkeep (own & Hdom & Hown & Hdisj).
  exists own. split_and!; [by rewrite Hobj| |done].
  intros c t Hc. destruct (Hown _ _ Hc) as [Ho Hlf]. split; [|done].
  eapply owns_frame; [exact Ho|by rewrite Hobj|].
  intros l Hl. apply Hkeep. destruct Ho as (_ & Hst & _). by eapply stored_live.
Qed.


(** An operation that throws does not break the invariant, unless it is an
    assignment: after a failed [top], [push], [pop], [merge] or copy
    construction every container still owns its leftist tree and no two
    containers share a cell. *)
Theorem failed_operations_keep_the_invariant w w' (o : op T) ex :
  world_inv w →
  (∀ c c', o ≠ OpAssign c c') →
  exec cmp alloc o w = Raised w' ex →
  world_inv w'.
Proof.
  intros Hinv Hnot.
  assert (Hsame : ∀ w0 : world T,
             heap w0 = heap w → objs w0 = objs w → world_inv w0).
  { intros w0 Hh Hobj. apply (world_inv_frame w); [done| |done].
    intros l _. by rewrite Hh. }
  destruct o as [c|c c'|c|c c'|c|c e|c|c|c|c c']; simpl exec.
  - unfold construct. by destruct (objs w !! c).
  - destruct (objs w !! c) as [q|] eqn:Hc.
    { unfold copy_construct, construct, bind. by rewrite Hc. }
    destruct (decide (c = c')) as [<-|Hne].
    { unfold copy_construct, construct, bind at 1. rewrite Hc.
      set (w1 := set_objs w _).
      assert (Hc1 : objs w1 !! c = Some (mkPq None 0))
        by (subst w1; simpl; apply lookup_insert_eq).
      unfold try_catch.
      step (get_root_run _ _ _ Hc1). simpl root.
      step (copyTree_null alloc w1).
      step (set_root_id _ _ _ _ Hc1).
      step (get_size_run _ _ _ Hc1).
      cbn [queue_size]. by rewrite (set_size_id _ _ _ _ Hc1). }
    destruct (objs w !! c') as [q'|] eqn:Hc'.
    2:{ unfold copy_construct, construct, bind at 1. rewrite Hc.
        unfold try_catch. erewrite bind_Undefined; [done|].
        apply get_root_none. simpl. by rewrite lookup_insert_ne. }
    destruct (world_inv_lookup _ _ _ Hinv Hc') as (_ & t2 & _ & _ & _ & _ & Ho2 & _).
    pose proof (copy_construct_spec alloc alloc_fresh _ _ _ _ Hc Ho2) as Hspec.
    destruct (copy_construct alloc c c' w) as [|w2' ex'| |]; try done.
    intros [= <- <-]. destruct Hspec as (w2 & Hfail & ->).
    destruct Hfail as (ls & k & _ & _ & _ & Hls & Hout & _). simpl in Hls, Hout.
    apply (world_inv_frame w); [done| |done].
    intros l [n Hn]. simpl. apply Hout. intros Hin.
    destruct (Hls _ Hin). congruence.
  - destruct (objs w !! c) as [q|] eqn:Hc.
    2:{ unfold destroy. by rewrite (bind_Undefined _ _ _ (get_root_none _ _ Hc)). }
    destruct (world_inv_lookup _ _ _ Hinv Hc) as (_ & t & _ & _ & _ & _ & Ho & _).
    by rewrite (destroy_spec _ _ _ Ho).
  - by destruct (Hnot c c').
  - destruct (objs w !! c) as [q|] eqn:Hc.
    2:{ unfold top, empty.
        by rewrite (bind_Undefined _ _ _
                      (bind_Undefined _ _ _ (bind_Undefined _ _ _ (get_size_none _ _ Hc)))). }
    destruct (world_inv_lookup _ _ _ Hinv Hc) as (_ & t & _ & _ & _ & _ & Ho & _).
    unfold bind. rewrite (top_spec _ _ _ Ho).
    destruct (wrap (Z.of_nat (tsize t)) =? 0); [by intros [= <- _]|].
    by destruct t.
  - destruct (objs w !! c) as [q|] eqn:Hc.
    2:{ unfold push, bind at 1. rewrite new_node_run.
        destruct (alloc _ _ _); [|intros [= <- _]; by apply Hsame].
        unfold try_catch. by erewrite bind_Undefined by (by apply get_root_none). }
    destruct (world_inv_lookup _ _ _ Hinv Hc) as (_ & t & _ & _ & _ & _ & Ho & _).
    rewrite (push_spec cmp alloc alloc_fresh _ _ _ _ Ho).
    destruct (alloc (trace w) (heap w) e); [|intros [= <- _]; by apply Hsame].
    destruct (merge_tree cmp t _ _) as [? [?|?]]; [done|].
    intros [= <- _]. by apply Hsame.
  - destruct (objs w !! c) as [q|] eqn:Hc.
    2:{ unfold pop, empty.
        by rewrite (bind_Undefined _ _ _ (bind_Undefined _ _ _ (get_size_none _ _ Hc))). }
    destruct (world_inv_lookup _ _ _ Hinv Hc) as (_ & t & _ & _ & _ & _ & Ho & _).
    rewrite (pop_spec cmp _ _ _ Ho).
    destruct (wrap (Z.of_nat (tsize t)) =? 0); [by intros [= <- _]|].
    destruct t; [done|].
    destruct (merge_tree cmp _ _ _) as [? [?|?]]; [done|].
    intros [= <- _]. by apply Hsame.
  - unfold bind, size, get_size, get_obj, bind, ret. by destruct (objs w !! c).
  - unfold bind, empty, get_size, get_obj, bind, ret. by destruct (objs w !! c).
  - destruct (decide (c = c')) as [->|Hne].
    { unfold merge. by rewrite decide_True. }
    destruct (objs w !! c) as [q1|] eqn:Hc1.
    2:{ unfold merge. rewrite decide_False by done.
        by rewrite (bind_Undefined _ _ _ (get_root_none _ _ Hc1)). }
    destruct (objs w !! c') as [q2|] eqn:Hc2.
    2:{ unfold merge. rewrite decide_False by done.
        step (get_root_run _ _ _ Hc1). step (get_size_run _ _ _ Hc1).
        by rewrite (bind_Undefined _ _ _ (get_root_none _ _ Hc2)). }
    destruct (world_inv_lookup _ _ _ Hinv Hc1)
      as (own & t & Hdom & Hown & Hdisj & Ht & Ho & _).
    destruct (Hdom c') as [t2 Ht2]; [eauto|].
    destruct (Hown _ _ Ht2) as [Ho2 _].
    rewrite (merge_spec cmp _ _ _ _ _ Hne Ho Ho2 (λ l, Hdisj c c' t t2 l Hne Ht Ht2)).
    destruct (merge_tree cmp _ _ _) as [? [?|?]]; [done|].
    intros [= <- _]. by apply Hsame.
Qed.




End Members.

(** * Further properties of integer queues under [std::less<int>] *)

Section IntMembers.

Variable alloc : list (event Z) → gmap loc (Node Z) → Z → answer loc.
Hypothesis alloc_fresh :
  ∀ tr h v l, alloc tr h v = Returns l → h !! l = None.

Implicit Types (w : world Z) (t : tree Z) (c : cid).

Lemma ge_sorted_unique (l1 l2 : list Z) :
  StronglySorted Z.ge l1 → StronglySorted Z.ge l2 → l1 ≡ₚ l2 → l1 = l2.
Proof. apply StronglySorted_unique_strong. intros. lia. Qed.

(** Draining a container touches its own cells only. *)
Lemma drain_n_frame n :
  ∀ w c t,
    owns w c t → heap_ordered t → tsize t = n → Z.of_nat n < size_max →
    ∃ w' vs, drain_n less n c w = Done w' vs
             ∧ vs ≡ₚ elems t
             ∧ StronglySorted Z.ge vs
             ∧ owns w' c Leaf
             ∧ (∀ l, l ∈ locs t → heap w' !! l = None)
             ∧ (∀ l, l ∉ locs t → heap w' !! l = heap w !! l)
             ∧ (∀ c', c' ≠ c → objs w' !! c' = objs w !! c').
Proof.
  induction n as [|n IH]; intros w c t Ho Hord Hsz Hbound.
  - destruct t; [|done]. exists w, []. simpl. split_and!; try done; [constructor|].
    intros l Hl. by apply elem_of_nil in Hl.
  - destruct t as [|l v d tl rt]; [done|].
    assert (Hw : (wrap (Z.of_nat (tsize (Nd l v d tl rt))) =? 0) = false).
    { rewrite Hsz, wrap_small by lia. apply Z.eqb_neq. lia. }
    cbn [drain_n].
    step (empty_spec _ _ _ Ho). rewrite Hw.
    rewrite (bind_Done _ _ _ w v) by (by rewrite (top_spec _ _ _ Ho), Hw).
    destruct (merge_less_returns tl (trace w) rt) as (tr' & m & Hm).
    pose proof (owns_after_pop less w c l v d tl rt tr' m Ho Hm) as Ho'.
    erewrite bind_Done by (by rewrite (pop_spec less _ _ _ Ho), Hw, Hm).
    destruct Hord as (Hall & Hordl & Hordr).
    pose proof (merge_tree_size _ _ _ _ _ _ Hm) as Hszm.
    pose proof (merge_tree_elems _ _ _ _ _ _ Hm) as Helm.
    pose proof (merge_tree_locs _ _ _ _ _ _ Hm) as Hlocs.
    destruct Ho as (_ & Hst & Hnd).
    simpl in Hnd. apply NoDup_cons in Hnd as [Hl_not Hnd].
    destruct (IH _ c m Ho' (merge_less_ordered _ _ _ _ _ Hordl Hordr Hm)
                ltac:(simpl in Hsz; lia) ltac:(lia))
      as (w' & vs & Hrun & Hperm & Hsorted & Hleaf & Hdead & Hout & Hobj).
    exists w', (v :: vs). step Hrun.
    split_and!; try done.
    + simpl. by rewrite Hperm, Helm.
    + constructor; [done|]. rewrite Hperm, Helm.
      eapply Forall_impl; [exact Hall|]. simpl. intros x Hx. lia.
    + intros x Hx. simpl in Hx. apply elem_of_cons in Hx as [->|Hx].
      * rewrite Hout by (by rewrite Hlocs). simpl. apply lookup_delete_eq.
      * apply Hdead. by rewrite Hlocs.
    + intros x Hx. simpl in Hx. apply not_elem_of_cons in Hx as [Hne Hx].
      rewrite Hout by (by rewrite Hlocs). simpl.
      rewrite lookup_delete_ne by done. apply lookup_write_notin. by rewrite Hlocs.
    + intros c' Hne. rewrite Hobj by done. simpl. by apply lookup_insert_ne.
Qed.

Lemma drain_unfold w c t :
  owns w c t → Z.of_nat (tsize t) < size_max →
  drain less c w = drain_n less (tsize t) c w.
Proof.
  intros (Hc & _) Hbound. unfold drain, size.
  step (get_size_run _ _ _ Hc). simpl queue_size.
  rewrite wrap_small by lia. by rewrite Nat2Z.id.
Qed.

(** [top()] returns a maximum: on a non-empty container whose tree is in
    heap order it returns, without changing anything, an element of the
    container that no other element exceeds. *)
Theorem top_returns_a_maximum w c t :
  owns w c t → heap_ordered t →
  (0 < tsize t)%nat → Z.of_nat (tsize t) < size_max →
  ∃ v, top c w = Done w v ∧ v ∈ elems t ∧ Forall (λ x, x ≤ v) (elems t).
Proof.
  intros Ho Hord Hpos Hbound. rewrite (top_spec _ _ _ Ho).
  rewrite wrap_small by lia.
  destruct (Z.eqb_spec (Z.of_nat (tsize t)) 0) as [?|_]; [lia|].
  destruct t as [|l v d tl rt]; [simpl in Hpos; lia|].
  exists v. split_and!; [done|by left|].
  apply (heap_ordered_elems _ Hord).
Qed.

(** Heap sort: reading [top] and popping until the container is empty
    returns exactly the elements it held, in non-increasing order, and
    frees every cell of its tree; other cells and other objects are left
    alone. *)
Theorem drain_returns_the_elements_sorted w c t :
  owns w c t → heap_ordered t → Z.of_nat (tsize t) < size_max →
  ∃ w' vs,
    drain less c w = Done w' vs
    ∧ vs ≡ₚ elems t
    ∧ StronglySorted Z.ge vs
    ∧ owns w' c Leaf
    ∧ (∀ l, l ∈ locs t → heap w' !! l = None)
    ∧ (∀ l, l ∉ locs t → heap w' !! l = heap w !! l)
    ∧ (∀ c', c' ≠ c → objs w' !! c' = objs w !! c').
Proof.
  intros Ho Hord Hbound. rewrite (drain_unfold _ _ _ Ho Hbound).
  by apply drain_n_frame.
Qed.

Lemma heap_ordered_singleton l (e : Z) : heap_ordered (Nd l e 0 Leaf Leaf).
Proof. simpl. by split_and!. Qed.

(** With [std::less] the comparator never throws, so [push] can only fail
    in [new], [pop] only on an empty container, and [merge] not at all; and
    all three keep the heap order: after a successful call the container
    owns a tree in heap order holding the expected elements. *)
Theorem less_keeps_heap_order w c t :
  owns w c t → heap_ordered t →
  (∀ e,
      match push less alloc c e w with
      | Done w' _ =>
          ∃ t', owns w' c t' ∧ heap_ordered t' ∧ elems t' ≡ₚ e :: elems t
      | Raised w' ex =>
          ∃ k, alloc (trace w) (heap w) e = Throws k ∧ ex = foreign k
      | _ => False
      end)
  ∧ match pop less c w with
    | Done w' _ =>
        ∃ l v d tl rt t',
          t = Nd l v d tl rt ∧ owns w' c t' ∧ heap_ordered t'
          ∧ elems t ≡ₚ v :: elems t'
    | Raised w' ex => ex = container_is_empty ∧ w' = w
    | _ => False
    end
  ∧ (∀ c2 t2,
        c ≠ c2 → owns w c2 t2 → heap_ordered t2 →
        (∀ l, l ∈ locs t → l ∉ locs t2) →
        ∃ w' m,
          merge less c c2 w = Done w' tt
          ∧ owns w' c m ∧ heap_ordered m
          ∧ elems m ≡ₚ elems t ++ elems t2
          ∧ owns w' c2 Leaf).
Proof.
  intros Ho Hord. split_and!.
  - intros e. rewrite (push_spec less alloc alloc_fresh _ _ _ _ Ho).
    destruct (alloc (trace w) (heap w) e) as [l|k] eqn:Hal; [|by exists k].
    destruct (merge_less_returns t (trace w ++ [New l]) (Nd l e 0 Leaf Leaf))
      as (tr' & t' & Hm).
    rewrite Hm. exists t'. split_and!.
    + by eapply owns_after_push.
    + eapply merge_less_ordered; [exact Hord| |exact Hm].
      apply heap_ordered_singleton.
    + rewrite (merge_tree_elems _ _ _ _ _ _ Hm). simpl.
      by rewrite Permutation_app_comm.
  - rewrite (pop_spec less _ _ _ Ho).
    destruct (wrap (Z.of_nat (tsize t)) =? 0) eqn:Hz; [done|].
    destruct t as [|l v d tl rt]; [by vm_compute in Hz|].
    destruct (merge_less_returns tl (trace w) rt) as (tr' & m & Hm).
    rewrite Hm. exists l, v, d, tl, rt, m. split_and!; [done| | |].
    + by eapply owns_after_pop.
    + destruct Hord as (_ & Hol & Hor).
      eapply merge_less_ordered; [exact Hol|exact Hor|exact Hm].
    + simpl. by rewrite (merge_tree_elems _ _ _ _ _ _ Hm).
  - intros c2 t2 Hne Ho2 Hord2 Hdisj.
    rewrite (merge_spec less _ _ _ _ _ Hne Ho Ho2 Hdisj).
    destruct (merge_less_returns t (trace w) t2) as (tr' & m & Hm).
    rewrite Hm.
    destruct (owns_after_merge less _ _ _ _ _ _ _ Hne Ho Ho2 Hdisj Hm) as [Hom Hol].
    eexists _, m. split_and!; try done.
    + eapply merge_less_ordered; [exact Hord|exact Hord2|exact Hm].
    + exact (merge_tree_elems _ _ _ _ _ _ Hm).
Qed.

(** After a successful [push(e)], [top()] returns the larger of [e] and the
    previous top (just [e] on a container that was empty). *)
Theorem push_then_top w c t e w' :
  owns w c t → heap_ordered t →
  Z.of_nat (tsize t) + 1 < size_max →
  push less alloc c e w = Done w' tt →
  top c w' = Done w' (match t with
                      | Leaf => e
                      | Nd _ v _ _ _ => Z.max v e
                      end).
Proof.
  intros Ho Hord Hbound. rewrite (push_spec less alloc alloc_fresh _ _ _ _ Ho).
  destruct (alloc (trace w) (heap w) e) as [l|k] eqn:Hal; [|done].
  destruct (merge_less_returns t (trace w ++ [New l]) (Nd l e 0 Leaf Leaf))
    as (tr' & t' & Hm).
  rewrite Hm. intros [= <-].
  pose proof (owns_after_push less alloc alloc_fresh _ _ _ _ _ _ _ Ho Hal Hm) as Ho'.
  pose proof (merge_less_ordered _ _ _ _ _ Hord (heap_ordered_singleton l e) Hm)
    as Hord'.
  pose proof (merge_tree_elems _ _ _ _ _ _ Hm) as Hel. simpl in Hel.
  pose proof (merge_tree_size _ _ _ _ _ _ Hm) as Hsz. simpl in Hsz.
  rewrite (top_spec _ _ _ Ho'). rewrite wrap_small by lia.
  destruct (Z.eqb_spec (Z.of_nat (tsize t')) 0) as [?|_]; [lia|].
  destruct t' as [|l' v' d' tl' rt']; [simpl in Hsz; lia|].
  f_equal.
  pose proof (heap_ordered_elems _ Hord') as Hmax. simpl in Hmax.
  assert (Hin : v' ∈ elems t ++ [e]) by (rewrite <- Hel; left).
  assert (He : e ≤ v').
  { rewrite Forall_forall in Hmax. apply Hmax.
    change (e ∈ elems (Nd l' v' d' tl' rt')). rewrite Hel.
    apply elem_of_app. right. by left. }
  destruct t as [|lt v d tl rt].
  - simpl in Hin. apply list_elem_of_singleton in Hin. done.
  - pose proof (heap_ordered_elems _ Hord) as Hmax0. simpl in Hmax0.
    assert (Hv : v ≤ v').
    { rewrite Forall_forall in Hmax. apply Hmax.
      change (v ∈ elems (Nd l' v' d' tl' rt')). rewrite Hel.
      apply elem_of_app. left. by left. }
    apply elem_of_app in Hin as [Hin|Hin%list_elem_of_singleton].
    + rewrite Forall_forall in Hmax0. specialize (Hmax0 _ Hin). lia.
    + lia.
Qed.

(** Pushing an element larger than the current top and popping it again is
    a round trip: [top] in between returns that element, and afterwards the
    heap and the objects are exactly what they were. *)
Theorem push_pop_round_trip w c t e l :
  owns w c t →
  match t with
  | Leaf => True
  | Nd _ v _ _ _ => v < e
  end →
  Z.of_nat (tsize t) + 1 < size_max →
  alloc (trace w) (heap w) e = Returns l →
  ∃ w',
    (push less alloc c e ;~ v <~ top c ;~ pop less c ;~ ret v) w = Done w' e
    ∧ heap w' = heap w
    ∧ objs w' = objs w.
Proof.
  intros Ho Hlt Hbound Hal.
  pose proof (alloc_fresh _ _ _ _ Hal) as Hl.
  pose proof Ho as (Hc & Hst & Hnd).
  assert (Hl_t : l ∉ locs t).
  { intros Hin. destruct (stored_live _ _ _ Hst Hin). congruence. }
  set (t1 := match t with
             | Leaf => Nd l e 0 Leaf Leaf
             | Nd _ _ _ _ _ => join l e Leaf t
             end).
  assert (Hm : ∃ tr', merge_tree less t (trace w ++ [New l]) (Nd l e 0 Leaf Leaf)
                      = (tr', Returns t1)).
  { rewrite merge_tree_eq. subst t1. destruct t as [|lt v d tl rt]; [by eexists|].
    unfold less at 1. apply Z.ltb_lt in Hlt. rewrite Hlt.
    rewrite merge_tree_eq. simpl. by eexists. }
  destruct Hm as (tr' & Hm).
  assert (Hshape : ∃ d1 a b, t1 = Nd l e d1 a b
                    ∧ ((a = Leaf ∧ b = t) ∨ (a = t ∧ b = Leaf))).
  { subst t1. destruct t as [|lt v d tl rt]; [by eexists _, _, _; eauto|].
    unfold join. destruct (_ <? _); eexists _, _, _; eauto. }
  destruct Hshape as (d1 & a & b & Ht1 & Hab).
  pose proof (owns_after_push less alloc alloc_fresh _ _ _ _ _ _ _ Ho Hal Hm) as Ho1.
  pose proof (merge_tree_size _ _ _ _ _ _ Hm) as Hsz. simpl in Hsz.
  erewrite bind_Done by (by rewrite (push_spec less alloc alloc_fresh _ _ _ _ Ho), Hal, Hm).
  set (w1 := mkWorld _ _ _) in *.
  assert (Hw : (wrap (Z.of_nat (tsize t1)) =? 0) = false).
  { rewrite wrap_small by lia. apply Z.eqb_neq. lia. }
  rewrite (bind_Done _ _ _ w1 e) by (by rewrite (top_spec _ _ _ Ho1), Hw, Ht1).
  assert (Hmerge : ∃ tr2, merge_tree less a (trace w1) b = (tr2, Returns t)).
  { destruct Hab as [[-> ->]|[-> ->]]; rewrite merge_tree_eq; [by eexists|].
    destruct t; by eexists. }
  destruct Hmerge as (tr2 & Hmerge).
  rewrite Ht1 in Ho1.
  erewrite bind_Done by (by rewrite (pop_spec less _ _ _ Ho1), <- Ht1, Hw, Ht1, Hmerge).
  eexists. split; [done|]. simpl.
  assert (Hin1 : ∀ x, x ∈ locs t → x ∈ locs t1).
  { intros x Hx. rewrite (merge_tree_locs _ _ _ _ _ _ Hm). apply elem_of_app. by left. }
  split.
  - apply map_eq. intros x. destruct (decide (x = l)) as [->|Hne].
    + by rewrite lookup_delete_eq, Hl.
    + rewrite lookup_delete_ne by done.
      destruct (decide (x ∈ locs t)) as [Hin|Hnin].
      * destruct Ho1 as (_ & Hst1 & _). simpl in Hst1.
        destruct Hst1 as (_ & Hsa & Hsb).
        assert (Hst' : stored (write_tree t1 (<[l:=mkNode e None None 0]> (heap w))) t).
        { by destruct Hab as [[-> ->]|[-> ->]]. }
        rewrite (stored_write_id _ _ Hst').
        assert (Heq : ∀ h1 h2, stored h1 t → stored h2 t → h1 !! x = h2 !! x).
        { clear -Hin. induction t as [|lt v d tl IHl rt IHr]; intros h1 h2 H1 H2.
          - by apply elem_of_nil in Hin.
          - destruct H1 as (H1 & H1l & H1r), H2 as (H2 & H2l & H2r). simpl in Hin.
            apply elem_of_cons in Hin as [->|Hin]; [by rewrite H1, H2|].
            apply elem_of_app in Hin as [Hin|Hin]; eauto. }
        by apply Heq.
      * rewrite lookup_write_notin by done.
        rewrite lookup_write_notin.
        -- by apply lookup_insert_ne.
        -- rewrite (merge_tree_locs _ _ _ _ _ _ Hm). simpl.
           intros [?|?%list_elem_of_singleton]%elem_of_app; done.
  - rewrite insert_insert_eq. apply insert_id. rewrite Hc. do 2 f_equal.
    rewrite Ht1 in Hsz. simpl in Hsz. f_equal. lia.
Qed.


(** [merge] followed by draining the receiver yields the elements of both
    containers in non-increasing order, and leaves both containers empty. *)
Theorem merge_then_drain w c1 c2 t1 t2 :
  c1 ≠ c2 →
  owns w c1 t1 → owns w c2 t2 →
  heap_ordered t1 → heap_ordered t2 →
  (∀ l, l ∈ locs t1 → l ∉ locs t2) →
  Z.of_nat (tsize t1) + Z.of_nat (tsize t2) < size_max →
  ∃ w' vs,
    (merge less c1 c2 ;~ drain less c1) w = Done w' vs
    ∧ vs ≡ₚ elems t1 ++ elems t2
    ∧ StronglySorted Z.ge vs
    ∧ owns w' c1 Leaf
    ∧ owns w' c2 Leaf.
Proof.
  intros Hne Ho1 Ho2 Hord1 Hord2 Hdisj Hbound.
  destruct (merge_less_returns t1 (trace w) t2) as (tr' & m & Hm).
  destruct (owns_after_merge less _ _ _ _ _ _ _ Hne Ho1 Ho2 Hdisj Hm) as [Hom Hol].
  erewrite bind_Done by (by rewrite (merge_spec less _ _ _ _ _ Hne Ho1 Ho2 Hdisj), Hm).
  pose proof (merge_less_ordered _ _ _ _ _ Hord1 Hord2 Hm) as Hordm.
  pose proof (merge_tree_size _ _ _ _ _ _ Hm) as Hsz.
  pose proof (merge_tree_elems _ _ _ _ _ _ Hm) as Hel.
  assert (Hb : Z.of_nat (tsize m) < size_max) by lia.
  rewrite (drain_unfold _ _ _ Hom Hb).
  destruct (drain_n_frame _ _ _ _ Hom Hordm eq_refl Hb)
    as (w' & vs & Hrun & Hperm & Hsorted & Hown & _ & Hout & Hobjs).
  exists w', vs. split_and!; try done.
  - by rewrite Hperm.
  - eapply owns_frame; [exact Hol|by apply Hobjs|].
    intros l Hl. by apply elem_of_nil in Hl.
Qed.

Lemma same_shape_elems {A} (t t' : tree A) : same_shape t t' → elems t' = elems t.
Proof.
  revert t'. induction t as [|l v d tl IHl rt IHr]; intros [|l' v' d' tl' rt']; try done.
  intros (-> & _ & Hl & Hr). simpl. by rewrite (IHl _ Hl), (IHr _ Hr).
Qed.

Lemma same_shape_heap_ordered (t t' : tree Z) :
  same_shape t t' → heap_ordered t → heap_ordered t'.
Proof.
  revert t'. induction t as [|l v d tl IHl rt IHr]; intros [|l' v' d' tl' rt']; try done.
  intros (-> & _ & Hl & Hr) (Hall & Hol & Hor). simpl.
  rewrite (same_shape_elems _ _ Hl), (same_shape_elems _ _ Hr). eauto.
Qed.

(** A copy is independent of its source: after [priority_queue c(c')], the
    source can be drained completely, and the copy still yields the very
    same sequence of elements. *)
Theorem copy_is_independent w c c' t w1 :
  objs w !! c = None →
  owns w c' t → heap_ordered t →
  Z.of_nat (tsize t) < size_max →
  copy_construct alloc c c' w = Done w1 tt →
  ∃ w2 w3 vs,
    drain less c' w1 = Done w2 vs
    ∧ drain less c w2 = Done w3 vs
    ∧ vs ≡ₚ elems t
    ∧ StronglySorted Z.ge vs
    ∧ owns w3 c Leaf ∧ owns w3 c' Leaf.
Proof.
  intros Hc Ho2 Hord Hbound Hrun.
  pose proof (copy_construct_spec alloc alloc_fresh _ _ _ _ Hc Ho2) as Hspec.
  rewrite Hrun in Hspec. destruct Hspec as (w2 & p & Hcopy & ->).
  destruct Hcopy as (t' & -> & Hsh & Hnd & Hfresh & Hst & Hout & Hobj & Htr).
  pose proof Ho2 as (Hc2 & Hst2 & Hnd2). simpl in Hfresh, Hout.
  assert (Hne : c ≠ c') by congruence.
  assert (Hd : ∀ l, l ∈ locs t' → l ∉ locs t).
  { intros l Hl Hl2. apply Hfresh in Hl.
    destruct (stored_live _ _ _ Hst2 Hl2). congruence. }
  set (wc := set_objs w2 _).
  assert (Ho : owns wc c t').
  { split_and!; simpl; [|done|done].
    rewrite lookup_insert_eq. by rewrite (same_shape_size _ _ Hsh). }
  assert (Ho' : owns wc c' t).
  { split_and!; simpl; [by rewrite lookup_insert_ne| |done].
    eapply stored_frame; [exact Hst2|]. intros l Hl. apply Hout.
    intros Hin. by apply (Hd l). }
  rewrite (drain_unfold _ _ _ Ho' Hbound).
  destruct (drain_n_frame _ _ _ _ Ho' Hord eq_refl Hbound)
    as (wa & vs & Hrun1 & Hperm1 & Hsorted1 & Hown1 & _ & Hout1 & Hobjs1).
  assert (Hoa : owns wa c t').
  { eapply owns_frame; [exact Ho|by apply Hobjs1|].
    intros l Hl. apply Hout1. by apply Hd. }
  pose proof (same_shape_heap_ordered _ _ Hsh Hord) as Hord'.
  pose proof (same_shape_size _ _ Hsh) as Hsz.
  assert (Hb' : Z.of_nat (tsize t') < size_max) by lia.
  destruct (drain_n_frame _ _ _ _ Hoa Hord' eq_refl Hb')
    as (wb & vs' & Hrun2 & Hperm2 & Hsorted2 & Hown2 & _ & Hout2 & Hobjs2).
  rewrite (same_shape_elems _ _ Hsh) in Hperm2.
  assert (vs' = vs) as ->.
  { apply ge_sorted_unique; [done|done|]. by rewrite Hperm1, Hperm2. }
  exists wa, wb, vs. split_and!; try done.
  - by rewrite (drain_unfold _ _ _ Hoa Hb').
  - eapply owns_frame; [exact Hown1|by apply Hobjs2|].
    intros l Hl. by apply elem_of_nil in Hl.
Qed.

End IntMembers.

(** * Assignment *)

Section Assignment.

Context {T : Type}.
Variable alloc : list (event T) → gmap loc (Node T) → T → answer loc.
Hypothesis alloc_fresh : ∀ tr h v l, alloc tr h v = Returns l → h !! l = None.

Lemma size_fresh_cells (h h' : gmap loc (Node T)) (ls : list loc) :
  NoDup ls →
  (∀ l, l ∈ ls → h !! l = None) →
  (∀ l, l ∈ ls → is_Some (h' !! l)) →
  (∀ l, l ∉ ls → h' !! l = h !! l) →
  base.size h' = (base.size h + length ls)%nat.
Proof.
  intros Hnd Hdead Hlive Hout.
  rewrite <- !size_dom, <- (size_list_to_set (C := gset loc) ls Hnd).
  rewrite <- size_union.
  - f_equal. apply set_eq. intros x.
    rewrite elem_of_union, !elem_of_dom, elem_of_list_to_set.
    destruct (decide (x ∈ ls)) as [Hin|Hnin].
    + split; [by right|]. intros _. by apply Hlive.
    + rewrite (Hout _ Hnin). split; [by left|]. by intros [?|?].
  - intros x Hx Hx'. apply elem_of_dom in Hx as [n Hn].
    apply elem_of_list_to_set in Hx'. rewrite (Hdead _ Hx') in Hn. done.
Qed.

(** A successful assignment [c = c'] between two different containers
    replaces the contents of [c]: it then owns a tree with the shape and
    elements of the source's and reports the source's size, the source and
    every other container are as before, no cell outside the old and the
    new tree of [c] changed, and the count of live cells went down by the
    old size and up by the new one. *)
Theorem assignment_replaces_contents w c c' t t2 w' :
  c ≠ c' →
  owns w c t → owns w c' t2 →
  (∀ l, l ∈ locs t → l ∉ locs t2) →
  assign alloc c c' w = Done w' tt →
  ∃ t',
    owns w' c t'
    ∧ same_shape t2 t'
    ∧ owns w' c' t2
    ∧ size c w' = size c' w'
    ∧ (∀ c'', c'' ≠ c → objs w' !! c'' = objs w !! c'')
    ∧ (∀ l, l ∉ locs t → l ∉ locs t' → heap w' !! l = heap w !! l)
    ∧ (base.size (heap w') + tsize t)%nat = (base.size (heap w) + tsize t2)%nat.
Proof.
  intros Hne Ho Ho2 Hdisj Hrun.
  pose proof (assign_spec alloc alloc_fresh _ _ _ _ _ Hne Ho Ho2 Hdisj) as Hspec.
  rewrite Hrun in Hspec. destruct Hspec as (w2 & p & Hcopy & ->).
  destruct Hcopy as (t' & -> & Hsh & Hnd & Hfresh & Hst & Hout & Hobj & Htr).
  destruct Ho as (Hc & Hstt & Hndt). destruct Ho2 as (Hc2 & Hst2 & Hnd2).
  simpl in Hfresh, Hout.
  assert (Hd : ∀ l, l ∈ locs t' → l ∉ locs t2).
  { intros l Hl Hl2. apply Hfresh in Hl.
    rewrite lookup_erase_notin in Hl by (intros Hin; by apply (Hdisj l)).
    destruct (stored_live _ _ _ Hst2 Hl2). congruence. }
  set (wf := set_objs w2 _).
  assert (Ho : owns wf c t').
  { split_and!; simpl; [|done|done].
    rewrite lookup_insert_eq. by rewrite (same_shape_size _ _ Hsh). }
  assert (Ho' : owns wf c' t2).
  { split_and!; simpl; [by rewrite lookup_insert_ne| |done].
    eapply stored_frame; [exact Hst2|]. intros l Hl.
    rewrite Hout by (intros Hin; by apply (Hd l)).
    apply lookup_erase_notin. intros Hin. by apply (Hdisj l). }
  exists t'. split_and!; try done.
  - unfold size. destruct Ho as (H1 & _), Ho' as (H2 & _).
    rewrite (get_size_run _ _ _ H1), (get_size_run _ _ _ H2). simpl.
    by rewrite (same_shape_size _ _ Hsh).
  - intros c'' Hc''. simpl. by rewrite lookup_insert_ne.
  - intros l Hl Hl'. simpl. rewrite (Hout _ Hl'). by apply lookup_erase_notin.
  - simpl.
    rewrite (size_fresh_cells (erase_tree t (heap w)) (heap w2) (locs t') Hnd
               Hfresh (λ l Hl, stored_live _ _ _ Hst Hl) Hout).
    rewrite locs_length, (same_shape_size _ _ Hsh).
    pose proof (size_erase_tree t (heap w) Hstt Hndt). lia.
Qed.

End Assignment.


(** * The further properties at concrete worlds *)

Lemma two_nodes_stored : stored (heap two_nodes) two_nodes_tree.
Proof. by split_and!. Qed.

Lemma owns_two_nodes : owns two_nodes 1%positive two_nodes_tree.
Proof.
  split_and!; [reflexivity|apply two_nodes_stored|apply two_nodes_NoDup].
Qed.

Lemma two_nodes_ordered : heap_ordered two_nodes_tree.
Proof.
  simpl. split_and!; try done; repeat constructor. lia.
Qed.

Lemma two_queues_NoDup : NoDup (locs one_elem_tree ++ locs other_tree).
Proof.
  simpl. apply NoDup_cons. split; [|apply NoDup_singleton].
  intros Hin%list_elem_of_singleton. done.
Qed.

Lemma one_elem_ordered : heap_ordered one_elem_tree.
Proof. apply heap_ordered_singleton. Qed.

Lemma other_ordered : heap_ordered other_tree.
Proof. apply heap_ordered_singleton. Qed.

Lemma mergeNodes_all_or_nothing_witness :
  let a := one_elem_tree in
  let b := other_tree in
  let w := two_queues in
  (stored (heap w) a ∧ stored (heap w) b ∧ NoDup (locs a ++ locs b))
  ∧ ∃ cmps,
      Forall (λ ev, is_cmp ev = true) cmps
      ∧ match mergeNodes less (root_of a) (root_of b) w with
        | Done w' r =>
            ∃ m, r = root_of m
              ∧ stored (heap w') m
              ∧ locs m ≡ₚ locs a ++ locs b
              ∧ elems m ≡ₚ elems a ++ elems b
              ∧ (∀ l, l ∉ locs a ++ locs b → heap w' !! l = heap w !! l)
              ∧ dom (heap w') = dom (heap w)
              ∧ objs w' = objs w
              ∧ trace w' = trace w ++ cmps
        | Raised w' ex =>
            heap w' = heap w ∧ objs w' = objs w
            ∧ trace w' = trace w ++ cmps ∧ cmps ≠ []
        | _ => False
        end.
Proof.
  intros a b w.
  split; [split_and!; [by split_and!|by split_and!|apply two_queues_NoDup]|].
  apply (mergeNodes_all_or_nothing less a b w).
  - by split_and!.
  - by split_and!.
  - apply two_queues_NoDup.
Defined.

Lemma mergeNodes_logarithmic_witness :
  let a := one_elem_tree in
  let b := other_tree in
  let w := two_queues in
  (stored (heap w) a ∧ stored (heap w) b ∧ NoDup (locs a ++ locs b)
   ∧ leftist a ∧ leftist b)
  ∧ let w' := world_after (mergeNodes less (root_of a) (root_of b) w) w in
    ∃ cmps,
      trace w' = trace w ++ cmps
      ∧ Forall (λ ev, is_cmp ev = true) cmps
      ∧ 2 ^ Z.of_nat (length cmps)
        ≤ (Z.of_nat (tsize a) + 1) * (Z.of_nat (tsize b) + 1).
Proof.
  intros a b w.
  split; [split_and!; [by split_and!|by split_and!|apply two_queues_NoDup
                      |by split_and!|by split_and!]|].
  apply (mergeNodes_logarithmic less a b w).
  - by split_and!.
  - by split_and!.
  - apply two_queues_NoDup.
  - by split_and!.
  - by split_and!.
Defined.

Lemma mergeNodes_root_choice_witness :
  let a : tree Z := Nd 1%positive 5 0 Leaf Leaf in
  let b : tree Z := Nd 2%positive 5 0 Leaf Leaf in
  let w := tie_world in
  let w' := world_after (mergeNodes less (Some 1%positive) (Some 2%positive) w) w in
  let r : ptr := Some 1%positive in
  (stored (heap w) a ∧ stored (heap w) b ∧ NoDup (locs a ++ locs b)
   ∧ mergeNodes less (Some 1%positive) (Some 2%positive) w = Done w' r)
  ∧ ∃ (swap : bool) rest,
      less (trace w) 5 5 = Returns swap
      ∧ trace w' = trace w ++ Cmp 5 5 :: rest
      ∧ r = Some (if swap then 2%positive else 1%positive)
      ∧ data <$> (r ≫= λ l, heap w' !! l) = Some (if swap then 5 else 5).
Proof.
  intros a b w w' r.
  assert (Hnd : NoDup (locs a ++ locs b)).
  { simpl. apply NoDup_cons. split; [|apply NoDup_singleton].
    intros Hin%list_elem_of_singleton. done. }
  split; [split_and!; [by split_and!|by split_and!|exact Hnd
                      |vm_compute; reflexivity]|].
  apply (mergeNodes_root_choice less 1%positive 5 0 Leaf Leaf
           2%positive 5 0 Leaf Leaf w w' r).
  - by split_and!.
  - by split_and!.
  - exact Hnd.
  - vm_compute. reflexivity.
Defined.

Lemma push_adds_one_element_witness :
  let w := one_elem in
  let c := 1%positive in
  let t := one_elem_tree in
  let e := 3 in
  let w' := world_after (push less fresh_alloc c e w) w in
  (owns w c t ∧ push less fresh_alloc c e w = Done w' tt)
  ∧ ∃ l t',
      fresh_alloc (trace w) (heap w) e = Returns l
      ∧ heap w !! l = None
      ∧ owns w' c t'
      ∧ locs t' ≡ₚ l :: locs t
      ∧ elems t' ≡ₚ e :: elems t
      ∧ size c w' = Done w' (wrap (wrap (Z.of_nat (tsize t)) + 1))
      ∧ (∀ x, x ≠ l → x ∉ locs t → heap w' !! x = heap w !! x)
      ∧ (∀ c', c' ≠ c → objs w' !! c' = objs w !! c')
      ∧ base.size (heap w') = S (base.size (heap w)).
Proof.
  intros w c t e w'.
  split; [split; [apply owns_one_elem|vm_compute; reflexivity]|].
  apply (push_adds_one_element less fresh_alloc fresh_alloc_ok w c t e w').
  - apply owns_one_elem.
  - vm_compute. reflexivity.
Defined.

Lemma pop_removes_the_top_witness :
  let w := two_nodes in
  let c := 1%positive in
  let t := two_nodes_tree in
  let w' := world_after (pop less c w) w in
  (owns w c t ∧ pop less c w = Done w' tt)
  ∧ ∃ l v d tl rt t',
      t = Nd l v d tl rt
      ∧ top c w = Done w v
      ∧ owns w' c t'
      ∧ locs t ≡ₚ l :: locs t'
      ∧ elems t ≡ₚ v :: elems t'
      ∧ heap w' !! l = None
      ∧ size c w' = Done w' (wrap (wrap (Z.of_nat (tsize t)) - 1))
      ∧ (∀ x, x ∉ locs t → heap w' !! x = heap w !! x)
      ∧ (∀ c', c' ≠ c → objs w' !! c' = objs w !! c')
      ∧ S (base.size (heap w')) = base.size (heap w).
Proof.
  intros w c t w'.
  split; [split; [apply owns_two_nodes|vm_compute; reflexivity]|].
  apply (pop_removes_the_top less w c t w').
  - apply owns_two_nodes.
  - vm_compute. reflexivity.
Defined.


Lemma copyTree_builds_a_fresh_copy_witness :
  let w := two_nodes in
  let t := two_nodes_tree in
  let w' := world_after (copyTree fresh_alloc (root_of t) w) w in
  let r : ptr := Some 3%positive in
  (stored (heap w) t ∧ NoDup (locs t)
   ∧ copyTree fresh_alloc (root_of t) w = Done w' r)
  ∧ ∃ t',
      r = root_of t'
      ∧ same_shape t t'
      ∧ elems t' = elems t
      ∧ (leftist t → leftist t')
      ∧ stored (heap w') t' ∧ NoDup (locs t')
      ∧ (∀ l, l ∈ locs t' → heap w !! l = None)
      ∧ (∀ l, l ∉ locs t' → heap w' !! l = heap w !! l)
      ∧ stored (heap w') t
      ∧ objs w' = objs w
      ∧ trace w' = trace w ++ map New (locs t').
Proof.
  intros w t w' r.
  split; [split_and!; [apply two_nodes_stored|apply two_nodes_NoDup
                      |vm_compute; reflexivity]|].
  apply (copyTree_builds_a_fresh_copy fresh_alloc fresh_alloc_ok w t w' r).
  - apply two_nodes_stored.
  - apply two_nodes_NoDup.
  - vm_compute. reflexivity.
Defined.

Lemma copy_constructor_deep_copy_witness :
  let w := two_nodes in
  let c := 2%positive in
  let c' := 1%positive in
  let t2 := two_nodes_tree in
  let w' := world_after (copy_construct fresh_alloc c c' w) w in
  (objs w !! c = None ∧ owns w c' t2
   ∧ copy_construct fresh_alloc c c' w = Done w' tt)
  ∧ ∃ t',
      owns w' c t'
      ∧ same_shape t2 t'
      ∧ owns w' c' t2
      ∧ (∀ l, l ∈ locs t' → l ∉ locs t2)
      ∧ (∀ l, l ∈ locs t' → heap w !! l = None)
      ∧ (∀ l, l ∉ locs t' → heap w' !! l = heap w !! l)
      ∧ size c w' = size c' w'.
Proof.
  intros w c c' t2 w'.
  split; [split_and!; [reflexivity|apply owns_two_nodes|vm_compute; reflexivity]|].
  apply (copy_constructor_deep_copy fresh_alloc fresh_alloc_ok w c c' t2 w').
  - reflexivity.
  - apply owns_two_nodes.
  - vm_compute. reflexivity.
Defined.

Lemma copy_constructor_failure_witness :
  let w := two_nodes in
  let c := 2%positive in
  let c' := 1%positive in
  let t2 := two_nodes_tree in
  let w' := world_after (copy_construct (capped_alloc 3) c c' w) w in
  (objs w !! c = None ∧ owns w c' t2
   ∧ copy_construct (capped_alloc 3) c c' w = Raised w' (foreign 0))
  ∧ objs w' = objs w
  ∧ (∀ l, is_Some (heap w !! l) → heap w' !! l = heap w !! l)
  ∧ owns w' c' t2.
Proof.
  intros w c c' t2 w'.
  split; [split_and!; [reflexivity|apply owns_two_nodes|vm_compute; reflexivity]|].
  apply (copy_constructor_failure (capped_alloc 3) (capped_alloc_ok 3)
           w c c' t2 w' (foreign 0)).
  - reflexivity.
  - apply owns_two_nodes.
  - vm_compute. reflexivity.
Defined.


Lemma failed_operations_keep_the_invariant_witness :
  let w := two_queues in
  let o : op Z := OpMerge 1%positive 2%positive in
  let w' := world_after (exec (throwing_less 0) fresh_alloc o w) w in
  (world_inv w ∧ (∀ c c', o ≠ OpAssign c c')
   ∧ exec (throwing_less 0) fresh_alloc o w = Raised w' (foreign 1))
  ∧ world_inv w'.
Proof.
  intros w o w'.
  split; [split_and!; [apply world_inv_two_queues|done|vm_compute; reflexivity]|].
  apply (failed_operations_keep_the_invariant (throwing_less 0) fresh_alloc
           fresh_alloc_ok w w' o (foreign 1)).
  - apply world_inv_two_queues.
  - done.
  - vm_compute. reflexivity.
Defined.


Lemma top_returns_a_maximum_witness :
  let w := two_nodes in
  let c := 1%positive in
  let t := two_nodes_tree in
  (owns w c t ∧ heap_ordered t ∧ (0 < tsize t)%nat
   ∧ Z.of_nat (tsize t) < size_max)
  ∧ ∃ v, top c w = Done w v ∧ v ∈ elems t ∧ Forall (λ x, x ≤ v) (elems t).
Proof.
  intros w c t.
  split; [split_and!; [apply owns_two_nodes|apply two_nodes_ordered
                      |simpl; lia|reflexivity]|].
  apply (top_returns_a_maximum w c t).
  - apply owns_two_nodes.
  - apply two_nodes_ordered.
  - simpl. lia.
  - reflexivity.
Defined.

Lemma drain_returns_the_elements_sorted_witness :
  let w := two_nodes in
  let c := 1%positive in
  let t := two_nodes_tree in
  (owns w c t ∧ heap_ordered t ∧ Z.of_nat (tsize t) < size_max)
  ∧ ∃ w' vs,
      drain less c w = Done w' vs
      ∧ vs ≡ₚ elems t
      ∧ StronglySorted Z.ge vs
      ∧ owns w' c Leaf
      ∧ (∀ l, l ∈ locs t → heap w' !! l = None)
      ∧ (∀ l, l ∉ locs t → heap w' !! l = heap w !! l)
      ∧ (∀ c', c' ≠ c → objs w' !! c' = objs w !! c').
Proof.
  intros w c t.
  split; [split_and!; [apply owns_two_nodes|apply two_nodes_ordered|reflexivity]|].
  apply (drain_returns_the_elements_sorted w c t).
  - apply owns_two_nodes.
  - apply two_nodes_ordered.
  - reflexivity.
Defined.

Lemma less_keeps_heap_order_witness :
  let w := two_queues in
  let c := 1%positive in
  let t := one_elem_tree in
  (owns w c t ∧ heap_ordered t)
  ∧ (∀ e,
        match push less fresh_alloc c e w with
        | Done w' _ =>
            ∃ t', owns w' c t' ∧ heap_ordered t' ∧ elems t' ≡ₚ e :: elems t
        | Raised w' ex =>
            ∃ k, fresh_alloc (trace w) (heap w) e = Throws k ∧ ex = foreign k
        | _ => False
        end)
  ∧ match pop less c w with
    | Done w' _ =>
        ∃ l v d tl rt t',
          t = Nd l v d tl rt ∧ owns w' c t' ∧ heap_ordered t'
          ∧ elems t ≡ₚ v :: elems t'
    | Raised w' ex => ex = container_is_empty ∧ w' = w
    | _ => False
    end
  ∧ (∀ c2 t2,
        c ≠ c2 → owns w c2 t2 → heap_ordered t2 →
        (∀ l, l ∈ locs t → l ∉ locs t2) →
        ∃ w' m,
          merge less c c2 w = Done w' tt
          ∧ owns w' c m ∧ heap_ordered m
          ∧ elems m ≡ₚ elems t ++ elems t2
          ∧ owns w' c2 Leaf).
Proof.
  intros w c t.
  split; [split; [apply owns_two_queues_1|apply one_elem_ordered]|].
  apply (less_keeps_heap_order fresh_alloc fresh_alloc_ok w c t).
  - apply owns_two_queues_1.
  - apply one_elem_ordered.
Defined.

Lemma push_then_top_witness :
  let w := one_elem in
  let c := 1%positive in
  let t := one_elem_tree in
  let e := 9 in
  let w' := world_after (push less fresh_alloc c e w) w in
  (owns w c t ∧ heap_ordered t ∧ Z.of_nat (tsize t) + 1 < size_max
   ∧ push less fresh_alloc c e w = Done w' tt)
  ∧ top c w' = Done w' (match t with
                        | Leaf => e
                        | Nd _ v _ _ _ => Z.max v e
                        end).
Proof.
  intros w c t e w'.
  split; [split_and!; [apply owns_one_elem|apply one_elem_ordered|reflexivity
                      |vm_compute; reflexivity]|].
  apply (push_then_top fresh_alloc fresh_alloc_ok w c t e w').
  - apply owns_one_elem.
  - apply one_elem_ordered.
  - reflexivity.
  - vm_compute. reflexivity.
Defined.

Lemma push_pop_round_trip_witness :
  let w := one_elem in
  let c := 1%positive in
  let t := one_elem_tree in
  let e := 9 in
  let l := 2%positive in
  (owns w c t
   ∧ match t with
     | Leaf => True
     | Nd _ v _ _ _ => v < e
     end
   ∧ Z.of_nat (tsize t) + 1 < size_max
   ∧ fresh_alloc (trace w) (heap w) e = Returns l)
  ∧ ∃ w',
      (push less fresh_alloc c e ;~ v <~ top c ;~ pop less c ;~ ret v) w
      = Done w' e
      ∧ heap w' = heap w
      ∧ objs w' = objs w.
Proof.
  intros w c t e l.
  split; [split_and!; [apply owns_one_elem|reflexivity|reflexivity
                      |vm_compute; reflexivity]|].
  apply (push_pop_round_trip fresh_alloc fresh_alloc_ok w c t e l).
  - apply owns_one_elem.
  - reflexivity.
  - reflexivity.
  - vm_compute. reflexivity.
Defined.

Lemma merge_then_drain_witness :
  let w := two_queues in
  let c1 := 1%positive in
  let c2 := 2%positive in
  let t1 := one_elem_tree in
  let t2 := other_tree in
  (c1 ≠ c2 ∧ owns w c1 t1 ∧ owns w c2 t2
   ∧ heap_ordered t1 ∧ heap_ordered t2
   ∧ (∀ l, l ∈ locs t1 → l ∉ locs t2)
   ∧ Z.of_nat (tsize t1) + Z.of_nat (tsize t2) < size_max)
  ∧ ∃ w' vs,
      (merge less c1 c2 ;~ drain less c1) w = Done w' vs
      ∧ vs ≡ₚ elems t1 ++ elems t2
      ∧ StronglySorted Z.ge vs
      ∧ owns w' c1 Leaf
      ∧ owns w' c2 Leaf.
Proof.
  intros w c1 c2 t1 t2.
  split; [split_and!; [done|apply owns_two_queues_1|apply owns_two_queues_2
                      |apply one_elem_ordered|apply other_ordered
                      |apply two_queues_disjoint|reflexivity]|].
  apply (merge_then_drain w c1 c2 t1 t2).
  - done.
  - apply owns_two_queues_1.
  - apply owns_two_queues_2.
  - apply one_elem_ordered.
  - apply other_ordered.
  - apply two_queues_disjoint.
  - reflexivity.
Defined.

Lemma copy_is_independent_witness :
  let w := two_nodes in
  let c := 2%positive in
  let c' := 1%positive in
  let t := two_nodes_tree in
  let w1 := world_after (copy_construct fresh_alloc c c' w) w in
  (objs w !! c = None ∧ owns w c' t ∧ heap_ordered t
   ∧ Z.of_nat (tsize t) < size_max
   ∧ copy_construct fresh_alloc c c' w = Done w1 tt)
  ∧ ∃ w2 w3 vs,
      drain less c' w1 = Done w2 vs
      ∧ drain less c w2 = Done w3 vs
      ∧ vs ≡ₚ elems t
      ∧ StronglySorted Z.ge vs
      ∧ owns w3 c Leaf ∧ owns w3 c' Leaf.
Proof.
  intros w c c' t w1.
  split; [split_and!; [reflexivity|apply owns_two_nodes|apply two_nodes_ordered
                      |reflexivity|vm_compute; reflexivity]|].
  apply (copy_is_independent fresh_alloc fresh_alloc_ok w c c' t w1).
  - reflexivity.
  - apply owns_two_nodes.
  - apply two_nodes_ordered.
  - reflexivity.
  - vm_compute. reflexivity.
Defined.

Lemma assignment_replaces_contents_witness :
  let w := two_queues in
  let c := 1%positive in
  let c' := 2%positive in
  let t := one_elem_tree in
  let t2 := other_tree in
  let w' := world_after (assign fresh_alloc c c' w) w in
  (c ≠ c' ∧ owns w c t ∧ owns w c' t2
   ∧ (∀ l, l ∈ locs t → l ∉ locs t2)
   ∧ assign fresh_alloc c c' w = Done w' tt)
  ∧ ∃ t',
      owns w' c t'
      ∧ same_shape t2 t'
      ∧ owns w' c' t2
      ∧ size c w' = size c' w'
      ∧ (∀ c'', c'' ≠ c → objs w' !! c'' = objs w !! c'')
      ∧ (∀ l, l ∉ locs t → l ∉ locs t' → heap w' !! l = heap w !! l)
      ∧ (base.size (heap w') + tsize t)%nat = (base.size (heap w) + tsize t2)%nat.
Proof.
  intros w c c' t t2 w'.
  split; [split_and!; [done|apply owns_two_queues_1|apply owns_two_queues_2
                      |apply two_queues_disjoint|vm_compute; reflexivity]|].
  apply (assignment_replaces_contents fresh_alloc fresh_alloc_ok w c c' t t2 w').
  - done.
  - apply owns_two_queues_1.
  - apply owns_two_queues_2.
  - apply two_queues_disjoint.
  - vm_compute. reflexivity.
Defined.
